(** * Category loggers of oxen-logging: a shallow embedding and its properties

    The development follows [include/oxen/log/catlogger.hpp] and
    [src/catlogger.cpp]: the [CategoryLogger] handle, the static registry
    [loggers_] with its default level, [find_or_make_logger], the conversion
    operator to [logger_ptr], [for_each_cat_logger] and the two functions of
    namespace [detail]. *)

From stdpp Require Import gmap strings list fin_maps.

(** ** The types the two files take from elsewhere *)

(** Modelled from the spec: [level.hpp] is not among the sources.  The spec
    describes [Level] as "a small ordered severity type (trace < debug < info
    < warn < error < critical/off)". *)
Inductive Level := trace | debug | info | warn | err | critical | off.

#[global] Instance Level_eq_dec : EqDecision Level.
Proof. solve_decision. Defined.

(** Addresses.  A [std::shared_ptr] is modelled by the address it holds:
    equal addresses mean the same object (identity), and [None] is the empty
    pointer. *)
Abbreviation loc := nat (only parsing).
Abbreviation sink_ptr := nat (only parsing).
Abbreviation logger_ptr := (option nat) (only parsing).

(** Modelled from the spec: [spdlog::logger] belongs to the logging backend.
    Of a Logger Object the core uses its name, the sinks it is attached to and
    its level ("construct a new Logger Object attached to the Master Sink, set
    its level"). *)
Record spdlog_logger := SpdLogger {
  name_ : string;
  sinks_ : list sink_ptr;
  level_ : Level
}.

(** [spdlog::logger(name, single_sink)]; the backend starts a logger at
    [info]. *)
Definition new_logger (n : string) (s : sink_ptr) : spdlog_logger :=
  {| name_ := n; sinks_ := [s]; level_ := info |}.

(** [spdlog::logger::set_level]. *)
Definition set_level (L : Level) (o : spdlog_logger) : spdlog_logger :=
  {| name_ := name_ o; sinks_ := sinks_ o; level_ := L |}.

(** [CategoryLogger::master_sink]: a constant pointer, fixed when the statics
    are initialised. *)
Definition master_sink : sink_ptr := 0.

(** ** The handle *)

(** The non-static members of [struct CategoryLogger]. *)
Record CategoryLogger := MkCategoryLogger {
  have_logger : bool;
  logger : logger_ptr;
  name : string
}.

(** [explicit CategoryLogger(std::string name) : name{std::move(name)} {}]
    with the default member initialisers [have_logger = false] and an empty
    [logger]. *)
Definition CategoryLogger_new (n : string) : CategoryLogger :=
  {| have_logger := false; logger := None; name := n |}.

(** [inline CategoryLogger Cat(std::string cat)]. *)
Definition Cat (cat : string) : CategoryLogger := CategoryLogger_new cat.

(** ** The process state *)

(** What code outside the two files can reach, and so what a callback handed
    to [for_each_cat_logger] may read and change: the default level (through
    namespace [detail]), the logger objects (through the reference it is
    given, or a pointer it kept), the sinks attached to [*master_sink], and
    state of its own, of type [U]. *)
Record env (U : Type) := Env {
  loggers_default_level_ : Level;
  objects : gmap loc spdlog_logger;
  master_sink_sinks : list sink_ptr;
  user : U
}.
Arguments Env {U}.
Arguments loggers_default_level_ {U}.
Arguments objects {U}.
Arguments master_sink_sinks {U}.
Arguments user {U}.

(** The whole state: the private static map [loggers_], the allocator (the
    next address [std::make_shared] hands out: addresses are never reused,
    since the registry keeps every logger alive), and the environment. *)
Record world (U : Type) := World {
  loggers_ : gmap string logger_ptr;
  next_loc : loc;
  env_of : env U
}.
Arguments World {U}.
Arguments loggers_ {U}.
Arguments next_loc {U}.
Arguments env_of {U}.

Section Core.
Context {U : Type}.

Definition with_objects (h : gmap loc spdlog_logger) (e : env U) : env U :=
  {| loggers_default_level_ := loggers_default_level_ e;
     objects := h;
     master_sink_sinks := master_sink_sinks e;
     user := user e |}.

(** The statics as initialised at lines 7-13 of [catlogger.cpp]: an empty map,
    default level [info], a master sink with nothing attached. *)
Definition initial_world (u : U) : world U :=
  {| loggers_ := ∅;
     next_loc := 0;
     env_of := {| loggers_default_level_ := info;
                  objects := ∅;
                  master_sink_sinks := [];
                  user := u |} |}.

(** ** [namespace detail] *)

Definition set_default_catlogger_level (level : Level) (e : env U) : env U :=
  {| loggers_default_level_ := level;
     objects := objects e;
     master_sink_sinks := master_sink_sinks e;
     user := user e |}.

Definition get_default_catlogger_level (e : env U) : Level :=
  loggers_default_level_ e.

(** ** [CategoryLogger::find_or_make_logger] *)

(** [loggers_[name]]: [operator[]] of [std::unordered_map] inserts an empty
    pointer under a missing key and returns the mapped value. *)
Definition subscript (m : gmap string logger_ptr) (k : string)
  : gmap string logger_ptr * logger_ptr :=
  match m !! k with
  | Some p => (m, p)
  | None => (<[k := None]> m, None)
  end.

(** Lines 22-23: [std::make_shared<spdlog::logger>(name, master_sink)] is
    assigned through the reference [known_logger], so into the map, and the
    new logger gets [set_level(loggers_default_level_)].  Returns the new
    value of [known_logger]. *)
Definition make_logger (n : string) (m : gmap string logger_ptr) (w : world U)
  : logger_ptr * world U :=
  let l := next_loc w in
  let o := set_level (loggers_default_level_ (env_of w)) (new_logger n master_sink) in
  (Some l,
   {| loggers_ := <[n := Some l]> m;
      next_loc := S l;
      env_of := with_objects (<[l := o]> (objects (env_of w))) (env_of w) |}).

(** The lock guard of line 16 has no effect on a single thread; the mutex is
    part of the state in [Module Threads] below. *)
Definition find_or_make_logger (c : CategoryLogger) (w : world U)
  : CategoryLogger * world U :=
  if have_logger c then (c, w)
  else
    let '(m, known_logger) := subscript (loggers_ w) (name c) in
    let '(known_logger, w') :=
      match known_logger with
      | None => make_logger (name c) m w
      | Some l =>
          (Some l, {| loggers_ := m; next_loc := next_loc w; env_of := env_of w |})
      end in
    ({| have_logger := true; logger := known_logger; name := name c |}, w').

(** The world a resolution that has to create the logger leaves behind. *)
Definition created (n : string) (w : world U) : world U :=
  {| loggers_ := <[n := Some (next_loc w)]> (loggers_ w);
     next_loc := S (next_loc w);
     env_of :=
       with_objects
         (<[next_loc w :=
              {| name_ := n; sinks_ := [master_sink];
                 level_ := loggers_default_level_ (env_of w) |}]>
            (objects (env_of w)))
         (env_of w) |}.

(** [operator const logger_ptr&()]. *)
Definition operator_logger_ptr (c : CategoryLogger) (w : world U)
  : logger_ptr * CategoryLogger * world U :=
  if have_logger c then (logger c, c, w)
  else
    let '(c', w') := find_or_make_logger c w in
    (logger c', c', w').

(** ** [for_each_cat_logger] *)

(** A [std::function] may be empty, hence the [option]s.  The visitor is given
    the name and the logger, by reference: here, its address. *)
Definition visitor := string → loc → env U → env U.
Definition follow_up := env U → env U.

(** The range-for over [loggers_]; [*logger] on an empty pointer is undefined
    behaviour, here [None]. *)
Fixpoint visit_all (f : visitor) (entries : list (string * logger_ptr))
    (e : env U) : option (env U) :=
  match entries with
  | [] => Some e
  | (n, Some l) :: rest => visit_all f rest (f n l e)
  | (_, None) :: _ => None
  end.

(** [loggers_] is private and every function that changes it takes the mutex
    the enumeration holds, so a callback cannot change the map it is run
    over: callbacks act on the environment only.  The order of the range-for
    over a [std::unordered_map] is unspecified; [map_to_list] stands for it,
    and the statements about the visits hold up to rearrangement.  As in
    [find_or_make_logger], the lock guard (line 33) has no effect on a single
    thread. *)
Definition for_each_cat_logger (f : option visitor) (and_then : option follow_up)
    (w : world U) : option (world U) :=
  e1 ← match f with
       | Some f => visit_all f (map_to_list (loggers_ w)) (env_of w)
       | None => Some (env_of w)
       end;
  let e2 := match and_then with
            | Some g => g e1
            | None => e1
            end in
  Some {| loggers_ := loggers_ w; next_loc := next_loc w; env_of := e2 |}.


(** ** Programs over the core

    A client of the core is a sequence of calls.  Handles live in a store of
    their own and are named by their index in it. *)

Record system := System {
  sys_world : world U;
  sys_handles : list CategoryLogger
}.

Inductive op :=
  | OpCat (n : string)
  | OpAccess (h : nat)
  | OpForEach (f : option visitor) (and_then : option follow_up)
  | OpSetDefault (L : Level)
  | OpGetDefault.

Inductive ret :=
  | RHandle (h : nat)
  | RPtr (p : logger_ptr)
  | RLevel (L : Level)
  | RDone.

Definition with_env (e : env U) (w : world U) : world U :=
  {| loggers_ := loggers_ w; next_loc := next_loc w; env_of := e |}.

(** One call.  [None] stands for undefined behaviour: a handle that was never
    constructed, or an empty pointer dereferenced by the enumeration. *)
Definition exec (o : op) (s : system) : option (ret * system) :=
  match o with
  | OpCat n =>
      Some (RHandle (length (sys_handles s)),
            {| sys_world := sys_world s;
               sys_handles := sys_handles s ++ [Cat n] |})
  | OpAccess h =>
      c ← sys_handles s !! h;
      let '(p, c', w') := operator_logger_ptr c (sys_world s) in
      Some (RPtr p, {| sys_world := w'; sys_handles := <[h := c']> (sys_handles s) |})
  | OpForEach f and_then =>
      w' ← for_each_cat_logger f and_then (sys_world s);
      Some (RDone, {| sys_world := w'; sys_handles := sys_handles s |})
  | OpSetDefault L =>
      Some (RDone,
            {| sys_world :=
                 with_env (set_default_catlogger_level L (env_of (sys_world s)))
                          (sys_world s);
               sys_handles := sys_handles s |})
  | OpGetDefault =>
      Some (RLevel (get_default_catlogger_level (env_of (sys_world s))), s)
  end.

Fixpoint run (ops : list op) (s : system) : option (list ret * system) :=
  match ops with
  | [] => Some ([], s)
  | o :: rest =>
      '(r, s1) ← exec o s;
      '(rs, s2) ← run rest s1;
      Some (r :: rs, s2)
  end.

Definition initial_system (u : U) : system :=
  {| sys_world := initial_world u; sys_handles := [] |}.

End Core.

Arguments system : clear implicits.
Arguments op : clear implicits.
Arguments visitor : clear implicits.
Arguments follow_up : clear implicits.

(** ** Vocabulary of the statements *)
Section Vocabulary.
Context {U : Type}.

(** The registry holds no empty pointer, only addresses that were handed out,
    no address under two names, and as many entries as loggers were made. *)
Definition registry_ok (w : world U) : Prop :=
  (∀ n p, loggers_ w !! n = Some p → ∃ l, p = Some l ∧ l < next_loc w)
  ∧ (∀ n1 n2 l, loggers_ w !! n1 = Some (Some l) →
                loggers_ w !! n2 = Some (Some l) → n1 = n2)
  ∧ size (loggers_ w) = next_loc w.

(** No name is registered with an empty pointer. *)
Definition no_empty_pointer (m : gmap string logger_ptr) : Prop :=
  map_Forall (λ _ p, is_Some p) m.

#[global] Instance no_empty_pointer_dec m : Decision (no_empty_pointer m).
Proof. unfold no_empty_pointer. apply _. Defined.

(** A resolved handle caches the registry's pointer for its name. *)
Definition handle_ok (w : world U) (c : CategoryLogger) : Prop :=
  have_logger c = true →
  loggers_ w !! name c = Some (logger c) ∧ is_Some (logger c).

Definition consistent (s : system U) : Prop :=
  registry_ok (sys_world s) ∧ Forall (handle_ok (sys_world s)) (sys_handles s).

(** Calls that leave [loggers_default_level_] alone. *)
Definition keeps_default (o : op U) : Prop :=
  match o with
  | OpSetDefault _ => False
  | OpForEach f and_then =>
      (∀ f', f = Some f' → ∀ n l e,
         loggers_default_level_ (f' n l e) = loggers_default_level_ e)
      ∧ (∀ g, and_then = Some g → ∀ e,
         loggers_default_level_ (g e) = loggers_default_level_ e)
  | _ => True
  end.

(** Every access is to a handle constructed before it; [k] handles exist at
    the start. *)
Fixpoint well_scoped (ops : list (op U)) (k : nat) : bool :=
  match ops with
  | [] => true
  | OpCat _ :: rest => well_scoped rest (S k)
  | OpAccess h :: rest => bool_decide (h < k) && well_scoped rest k
  | _ :: rest => well_scoped rest k
  end.

Definition is_enumeration (o : op U) : bool :=
  match o with
  | OpForEach _ _ => true
  | _ => false
  end.

(** *** Recording callbacks

    To count the calls [for_each_cat_logger] makes, a callback is wrapped so
    that it notes each of its invocations in a log kept next to its own
    state. *)
Inductive event :=
  | Visited (n : string) (l : loc)
  | FollowedUp.

Definition forget_log (e : env (list event * U)) : env U :=
  {| loggers_default_level_ := loggers_default_level_ e;
     objects := objects e;
     master_sink_sinks := master_sink_sinks e;
     user := (user e).2 |}.

Definition with_log (log : list event) (e : env U) : env (list event * U) :=
  {| loggers_default_level_ := loggers_default_level_ e;
     objects := objects e;
     master_sink_sinks := master_sink_sinks e;
     user := (log, user e) |}.

Definition log_of (w : world (list event * U)) : list event :=
  (user (env_of w)).1.

Definition recording_visitor (f : visitor U) : visitor (list event * U) :=
  λ n l e, with_log ((user e).1 ++ [Visited n l]) (f n l (forget_log e)).

Definition recording_follow_up (g : follow_up U) : follow_up (list event * U) :=
  λ e, with_log ((user e).1 ++ [FollowedUp]) (g (forget_log e)).

(** The visit owed to a registry entry. *)
Definition entry_of (ev : string * loc) : string * logger_ptr := (ev.1, Some ev.2).

(** A visitor that sets the level of the logger it is shown, and a registry
    of two categories, to try the enumeration on. *)
Definition level_setter (L : Level) : visitor U :=
  λ _ l e, with_objects (alter (set_level L) l (objects e)) e.

Definition two_categories (u : U) : world U :=
  {| loggers_ := {[ "net" := Some 0; "disk" := Some 1 ]};
     next_loc := 2;
     env_of := {| loggers_default_level_ := info;
                  objects := {[ 0 := set_level info (new_logger "net" master_sink);
                                1 := set_level info (new_logger "disk" master_sink) ]};
                  master_sink_sinks := [];
                  user := u |} |}.

(** A client that constructs two handles of one name and accesses them in
    turn, and a system in which a handle of ["net"] has resolved. *)
Definition net_twice : list (op U) :=
  [OpCat "net"; OpAccess 0; OpCat "net"; OpAccess 1; OpAccess 0].

Definition net_resolved (u : U) : system U :=
  {| sys_world := two_categories u;
     sys_handles := [ {| have_logger := true; logger := Some 0; name := "net" |} ] |}.

(** The scenario of two handles of ["net"], a reconfiguration to [warn]
    through the enumeration, and a handle of ["disk"] resolved after it. *)
Definition scenario : list (op U) :=
  [ OpCat "net"; OpAccess 0; OpCat "net"; OpAccess 1;
    OpForEach (Some (level_setter warn))
              (Some (set_default_catlogger_level warn));
    OpCat "disk"; OpAccess 2; OpAccess 0 ].

(** The world without the log of the recording callbacks. *)
Definition forget_world_log (w : world (list event * U)) : world U :=
  {| loggers_ := loggers_ w;
     next_loc := next_loc w;
     env_of := forget_log (env_of w) |}.

(** The note a visit leaves in the log. *)
Definition event_of (v : string * loc) : event := Visited v.1 v.2.

End Vocabulary.


(** ** Threads

    Several threads, each converting a handle of its own with [operator const
    logger_ptr&], interleaved statement by statement.  [loggers_mutex_] is
    part of the state: it holds the index of the thread owning it. *)
Module Threads.
Section Model.
Context {U : Type}.

(** The statement a thread is about to execute. *)
Inductive pc :=
  | AtEntry      (* hpp 63: if (have_logger)                              *)
  | AtLock       (* cpp 16: std::lock_guard lock{loggers_mutex_}          *)
  | AtRecheck    (* cpp 17: if (have_logger) return                       *)
  | AtSubscript  (* cpp 20: auto& known_logger = loggers_[name]           *)
  | AtTest       (* cpp 21: if (!known_logger)                            *)
  | AtMake       (* cpp 22: known_logger = std::make_shared<...>(...)     *)
  | AtSetLevel   (* cpp 23: known_logger->set_level(...)                  *)
  | AtAssign     (* cpp 26: logger = known_logger                         *)
  | AtFlag       (* cpp 27: have_logger = true                            *)
  | AtUnlock     (* cpp 18/28: the guard's destructor                     *)
  | AtReturn     (* hpp 64/66: return logger                              *)
  | Done (p : logger_ptr).

Record thread := Thread {
  t_pc : pc;
  t_handle : CategoryLogger
}.

Record cstate := CState {
  c_world : world U;
  loggers_mutex_ : option nat;
  c_threads : list thread
}.

(** The statements between the construction of the guard and its
    destruction. *)
Definition in_critical (p : pc) : bool :=
  match p with
  | AtRecheck | AtSubscript | AtTest | AtMake | AtSetLevel
  | AtAssign | AtFlag | AtUnlock => true
  | _ => false
  end.

(** The value of the reference [known_logger], which designates the slot of
    the handle's name in [loggers_]. *)
Definition slot (w : world U) (n : string) : logger_ptr :=
  default None (loggers_ w !! n).

Definition goto (i : nat) (p : pc) (c : CategoryLogger) (w : world U)
    (mu : option nat) (s : cstate) : cstate :=
  {| c_world := w;
     loggers_mutex_ := mu;
     c_threads := <[i := {| t_pc := p; t_handle := c |}]> (c_threads s) |}.

(** One statement of thread [i].  [None]: the thread does not exist, has
    returned, waits for the mutex, or would dereference an empty pointer. *)
Definition tstep (i : nat) (s : cstate) : option cstate :=
  t ← c_threads s !! i;
  let c := t_handle t in
  let w := c_world s in
  let mu := loggers_mutex_ s in
  match t_pc t with
  | AtEntry =>
      Some (goto i (if have_logger c then AtReturn else AtLock) c w mu s)
  | AtLock =>
      match mu with
      | None => Some (goto i AtRecheck c w (Some i) s)
      | Some _ => None
      end
  | AtRecheck =>
      Some (goto i (if have_logger c then AtUnlock else AtSubscript) c w mu s)
  | AtSubscript =>
      let w' := {| loggers_ := (subscript (loggers_ w) (name c)).1;
                   next_loc := next_loc w;
                   env_of := env_of w |} in
      Some (goto i AtTest c w' mu s)
  | AtTest =>
      let next := match slot w (name c) with
                  | Some _ => AtAssign
                  | None => AtMake
                  end in
      Some (goto i next c w mu s)
  | AtMake =>
      let l := next_loc w in
      let w' := {| loggers_ := <[name c := Some l]> (loggers_ w);
                   next_loc := S l;
                   env_of := with_objects
                     (<[l := new_logger (name c) master_sink]> (objects (env_of w)))
                     (env_of w) |} in
      Some (goto i AtSetLevel c w' mu s)
  | AtSetLevel =>
      l ← slot w (name c);
      let w' := with_env
                  (with_objects
                     (alter (set_level (loggers_default_level_ (env_of w))) l
                            (objects (env_of w)))
                     (env_of w)) w in
      Some (goto i AtAssign c w' mu s)
  | AtAssign =>
      Some (goto i AtFlag
              {| have_logger := have_logger c;
                 logger := slot w (name c);
                 name := name c |} w mu s)
  | AtFlag =>
      Some (goto i AtUnlock
              {| have_logger := true; logger := logger c; name := name c |} w mu s)
  | AtUnlock => Some (goto i AtReturn c w None s)
  | AtReturn => Some (goto i (Done (logger c)) c w mu s)
  | Done _ => None
  end.

(** A schedule names the thread that moves next; a thread that cannot move
    leaves the state as it is. *)
Fixpoint run_schedule (sch : list nat) (s : cstate) : cstate :=
  match sch with
  | [] => s
  | i :: rest => run_schedule rest (default s (tstep i s))
  end.

(** Every thread at the start of the operator, the mutex free. *)
Definition start (w : world U) (cs : list CategoryLogger) : cstate :=
  {| c_world := w;
     loggers_mutex_ := None;
     c_threads := (λ c, {| t_pc := AtEntry; t_handle := c |}) <$> cs |}.

Definition returned (t : thread) : option logger_ptr :=
  match t_pc t with
  | Done p => Some p
  | _ => None
  end.

Definition all_done (s : cstate) : bool :=
  forallb (λ t, bool_decide (is_Some (returned t))) (c_threads s).


(** *** Vocabulary of the statements about threads *)

(** The stages the world goes through while the first thread to find name
    [n] missing creates its logger, starting from [w0]: nothing done yet; the
    empty slot inserted by [loggers_[name]]; the logger made but still at the
    backend's level; the logger at the default level. *)
Inductive phase := Untouched | SlotInserted | LoggerMade | Settled.

Definition with_slot (n : string) (w0 : world U) : world U :=
  {| loggers_ := <[n := None]> (loggers_ w0);
     next_loc := next_loc w0;
     env_of := env_of w0 |}.

Definition with_raw_logger (n : string) (w0 : world U) : world U :=
  {| loggers_ := <[n := Some (next_loc w0)]> (loggers_ w0);
     next_loc := S (next_loc w0);
     env_of := with_objects
       (<[next_loc w0 := new_logger n master_sink]> (objects (env_of w0)))
       (env_of w0) |}.

(** The world one resolution of a handle named [n], run on its own, leaves
    behind. *)
Definition settled (n : string) (w0 : world U) : world U :=
  (find_or_make_logger (Cat n) w0).2.

Definition world_at (ph : phase) (n : string) (w0 : world U) : world U :=
  match ph with
  | Untouched => w0
  | SlotInserted => with_slot n w0
  | LoggerMade => with_raw_logger n w0
  | Settled => settled n w0
  end.

(** Where a thread can be in each stage. *)
Definition pc_allowed (ph : phase) (p : pc) : bool :=
  match ph, p with
  | Untouched, (AtEntry | AtLock | AtRecheck | AtSubscript) => true
  | SlotInserted, (AtEntry | AtLock | AtTest | AtMake) => true
  | LoggerMade, (AtEntry | AtLock | AtSetLevel) => true
  | Settled, (AtMake | AtSetLevel) => false
  | Settled, _ => true
  | _, _ => false
  end.

(** What holds of thread [i] when every handle is named [n], the mutex is
    [mu], and [pN] is the pointer registered for [n] once settled. *)
Definition thread_inv (n : string) (pN : logger_ptr) (ph : phase)
    (mu : option nat) (i : nat) (t : thread) : Prop :=
  name (t_handle t) = n
  ∧ (in_critical (t_pc t) = true ↔ mu = Some i)
  ∧ pc_allowed ph (t_pc t) = true
  ∧ (ph ≠ Settled → have_logger (t_handle t) = false)
  ∧ (have_logger (t_handle t) = true → logger (t_handle t) = pN)
  ∧ (t_pc t = AtFlag → logger (t_handle t) = pN)
  ∧ (t_pc t = AtUnlock ∨ t_pc t = AtReturn → have_logger (t_handle t) = true)
  ∧ (∀ p, t_pc t = Done p → p = pN ∧ have_logger (t_handle t) = true).

Definition inv (n : string) (w0 : world U) (s : cstate) : Prop :=
  ∃ ph,
    c_world s = world_at ph n w0
    ∧ (ph ≠ Settled → loggers_ w0 !! n = None)
    ∧ (ph = SlotInserted ∨ ph = LoggerMade → is_Some (loggers_mutex_ s))
    ∧ (∀ k, loggers_mutex_ s = Some k → k < length (c_threads s))
    ∧ ∀ i t, c_threads s !! i = Some t →
        thread_inv n (slot (settled n w0) n) ph (loggers_mutex_ s) i t.

(** A single thread. *)
Definition alone (p : pc) (c : CategoryLogger) (w : world U)
    (mu : option nat) : cstate :=
  {| c_world := w;
     loggers_mutex_ := mu;
     c_threads := [ {| t_pc := p; t_handle := c |} ] |}.

(** An upper bound on the statements a thread has left. *)
Definition rank (p : pc) : nat :=
  match p with
  | AtEntry => 11
  | AtLock => 10
  | AtRecheck => 9
  | AtSubscript => 8
  | AtTest => 7
  | AtMake => 6
  | AtSetLevel => 5
  | AtAssign => 4
  | AtFlag => 3
  | AtUnlock => 2
  | AtReturn => 1
  | Done _ => 0
  end.

Definition total_rank (s : cstate) : nat :=
  sum_list (rank ∘ t_pc <$> c_threads s).

(** *** The memory the statements access

    For the statement that concurrent conversions have no data race: the
    objects each statement of [tstep] reads and writes.  Every thread
    converts a handle of its own, so the members of a handle are named by the
    index of its thread.  [run_schedule] interleaves whole statements; when
    no two threads are ever about to execute statements with conflicting
    accesses, interleaving the single accesses gives no other outcome. *)

Inductive location :=
  | Registry                (* loggers_, cpp 10: the map and its slots        *)
  | DefaultLevel            (* loggers_default_level_, cpp 12                 *)
  | Heap                    (* the spdlog::logger objects and the allocator   *)
  | Elsewhere               (* the sinks of the master sink, the client state *)
  | Mutex                   (* loggers_mutex_, cpp 11                         *)
  | HaveLogger (i : nat)    (* have_logger of the handle of thread i, hpp 38  *)
  | LoggerMember (i : nat)  (* logger of that handle, hpp 39                  *)
  | NameMember (i : nat).   (* name of that handle, hpp 53                    *)

#[global] Instance location_eq_dec : EqDecision location.
Proof. solve_decision. Defined.

(** What a location holds. *)
Inductive content :=
  | InRegistry (m : gmap string logger_ptr)
  | InDefaultLevel (L : Level)
  | InHeap (next : loc) (os : gmap loc spdlog_logger)
  | InElsewhere (sinks : list sink_ptr) (u : U)
  | InMutex (owner : option nat)
  | InHaveLogger (b : option bool)
  | InLoggerMember (p : option logger_ptr)
  | InNameMember (n : option string).

Definition content_of (x : location) (s : cstate) : content :=
  match x with
  | Registry => InRegistry (loggers_ (c_world s))
  | DefaultLevel => InDefaultLevel (loggers_default_level_ (env_of (c_world s)))
  | Heap => InHeap (next_loc (c_world s)) (objects (env_of (c_world s)))
  | Elsewhere =>
      InElsewhere (master_sink_sinks (env_of (c_world s))) (user (env_of (c_world s)))
  | Mutex => InMutex (loggers_mutex_ s)
  | HaveLogger i => InHaveLogger (have_logger ∘ t_handle <$> c_threads s !! i)
  | LoggerMember i => InLoggerMember (logger ∘ t_handle <$> c_threads s !! i)
  | NameMember i => InNameMember (name ∘ t_handle <$> c_threads s !! i)
  end.

Inductive mode := Reading | Writing.

#[global] Instance mode_eq_dec : EqDecision mode.
Proof. solve_decision. Defined.

(** One access: where, how, and whether it is an operation on a
    [std::atomic] or on the mutex.  At the grain of these locations a write
    may be an update: of one slot of the map, of one object of the heap. *)
Record access := Access {
  a_loc : location;
  a_mode : mode;
  a_atomic : bool
}.

(** The accesses of the statement at [p], executed by thread [i].  After line
    20 [known_logger] refers to the slot of [name] in [loggers_]; [tstep]
    finds that slot by the name, hence the reads of the (constant) name at the
    statements that go through the reference. *)
Definition footprint (i : nat) (p : pc) : list access :=
  match p with
  | AtEntry =>      (* if (have_logger) *)
      [Access (HaveLogger i) Reading true]
  | AtLock =>       (* std::lock_guard lock{loggers_mutex_} *)
      [Access Mutex Writing true]
  | AtRecheck =>    (* if (have_logger) return *)
      [Access (HaveLogger i) Reading true]
  | AtSubscript =>  (* auto& known_logger = loggers_[name] *)
      [Access (NameMember i) Reading false; Access Registry Writing false]
  | AtTest =>       (* if (!known_logger) *)
      [Access (NameMember i) Reading false; Access Registry Reading false]
  | AtMake =>       (* known_logger = std::make_shared<...>(name, master_sink) *)
      [Access (NameMember i) Reading false; Access Heap Writing false;
       Access Registry Writing false]
  | AtSetLevel =>   (* known_logger->set_level(loggers_default_level_) *)
      [Access (NameMember i) Reading false; Access Registry Reading false;
       Access DefaultLevel Reading false; Access Heap Writing false]
  | AtAssign =>     (* logger = known_logger *)
      [Access (NameMember i) Reading false; Access Registry Reading false;
       Access (LoggerMember i) Writing false]
  | AtFlag =>       (* have_logger = true *)
      [Access (HaveLogger i) Writing true]
  | AtUnlock =>     (* the guard's destructor *)
      [Access Mutex Writing true]
  | AtReturn =>     (* return logger *)
      [Access (LoggerMember i) Reading false]
  | Done _ => []
  end.

Definition touched (i : nat) (p : pc) : list location :=
  a_loc <$> footprint i p.

Definition written (i : nat) (p : pc) : list location :=
  a_loc <$> filter (λ a, a_mode a = Writing) (footprint i p).

(** Two accesses conflict when they are to one location, one of them writes,
    and they are not both atomic. *)
Definition conflict (a b : access) : bool :=
  bool_decide (a_loc a = a_loc b)
  && bool_decide (a_mode a = Writing ∨ a_mode b = Writing)
  && negb (a_atomic a && a_atomic b).

(** No two threads are about to execute statements with conflicting
    accesses. *)
Definition race_free (s : cstate) : Prop :=
  ∀ i j ti tj a b,
    i ≠ j → c_threads s !! i = Some ti → c_threads s !! j = Some tj →
    a ∈ footprint i (t_pc ti) → b ∈ footprint j (t_pc tj) →
    conflict a b = false.

Definition pc_of (i : nat) (s : cstate) : option pc :=
  t_pc <$> c_threads s !! i.

Definition agree (xs : list location) (s1 s2 : cstate) : Prop :=
  ∀ x, x ∈ xs → content_of x s1 = content_of x s2.

(** The statement thread [i] executes from [s] to [s'] changes no location
    outside those its footprint writes, and no other thread. *)
Definition confined (i : nat) (s s' : cstate) : Prop :=
  (∀ p x, pc_of i s = Some p → x ∉ written i p →
          content_of x s' = content_of x s)
  ∧ ∀ j, j ≠ i → c_threads s' !! j = c_threads s !! j.

(** The statement thread [i] is about to execute depends on the locations of
    its footprint only: in two states that agree on them, and where the thread
    is at the same statement, it can be executed in both or in neither, goes on
    to the same statement, and leaves these locations in agreement. *)
Definition determined (i : nat) (s1 s2 : cstate) : Prop :=
  ∀ p, pc_of i s1 = Some p → pc_of i s2 = Some p →
       agree (touched i p) s1 s2 →
       match tstep i s1, tstep i s2 with
       | Some s1', Some s2' =>
           pc_of i s1' = pc_of i s2' ∧ agree (touched i p) s1' s2'
       | None, None => True
       | _, _ => False
       end.

(** The scope of the lock guard: the statement thread [i] executes from [s]
    to [s'] enters the guarded region only by taking the free mutex, leaves it
    only with the mutex released, and otherwise leaves the mutex alone. *)
Definition guard_scoped (i : nat) (s s' : cstate) : Prop :=
  ∀ p p', pc_of i s = Some p → pc_of i s' = Some p' →
    match in_critical p, in_critical p' with
    | false, true => loggers_mutex_ s = None ∧ loggers_mutex_ s' = Some i
    | true, false => loggers_mutex_ s' = None
    | _, _ => loggers_mutex_ s' = loggers_mutex_ s
    end.

(** The accesses of a conversion that finds its handle resolved at line 63
    and returns at line 64. *)
Definition fast_path (i : nat) : list access :=
  footprint i AtEntry ++ footprint i AtReturn.

End Model.
Arguments thread : clear implicits.
Arguments cstate : clear implicits.
Arguments content : clear implicits.
End Threads.

(** ** The dereferencing operators, and more vocabulary *)
Section Dereference.
Context {U : Type}.

(** [spdlog::logger& operator*()] (hpp 70) dereferences the result of the
    conversion operator.  The reference is the address; dereferencing an
    empty pointer is undefined behaviour, here [None]. *)
Definition operator_star (c : CategoryLogger) (w : world U)
  : option (loc * CategoryLogger * world U) :=
  let '(p, c', w') := operator_logger_ptr c w in
  l ← p; Some (l, c', w').

(** [spdlog::logger* operator->()] (hpp 73) calls [get()] on the result of
    the conversion operator.  [get] of an empty pointer is the null pointer,
    here again [None]. *)
Definition operator_arrow (c : CategoryLogger) (w : world U)
  : option loc * CategoryLogger * world U :=
  let '(p, c', w') := operator_logger_ptr c w in
  (p, c', w').

(** The registry holds exactly the names some handle has been resolved for,
    and a handle not yet resolved holds an empty pointer. *)
Definition registered_by_use (s : system U) : Prop :=
  (∀ n, is_Some (loggers_ (sys_world s) !! n)
        ↔ ∃ h c, sys_handles s !! h = Some c
                 ∧ have_logger c = true ∧ name c = n)
  ∧ (∀ h c, sys_handles s !! h = Some c → have_logger c = false →
            logger c = None).

(** Every registered logger exists, is named after its category, and is
    attached to the master sink and to nothing else. *)
Definition well_named (w : world U) : Prop :=
  ∀ n l, loggers_ w !! n = Some (Some l) →
    ∃ o, objects (env_of w) !! l = Some o
         ∧ name_ o = n ∧ sinks_ o = [master_sink].

(** A callback that keeps every logger in place, with its name and sinks. *)
Definition keeps_identity_env (g : env U → env U) : Prop :=
  ∀ e l o, objects e !! l = Some o →
    ∃ o', objects (g e) !! l = Some o'
          ∧ name_ o' = name_ o ∧ sinks_ o' = sinks_ o.

Definition keeps_identity (o : op U) : Prop :=
  match o with
  | OpForEach f and_then =>
      (∀ f', f = Some f' → ∀ n l, keeps_identity_env (f' n l))
      ∧ (∀ g, and_then = Some g → keeps_identity_env g)
  | _ => True
  end.

(** The default level is [L] and so is the level of every registered
    logger. *)
Definition all_at (L : Level) (w : world U) : Prop :=
  loggers_default_level_ (env_of w) = L
  ∧ ∀ n l, loggers_ w !! n = Some (Some l) →
      ∃ o, objects (env_of w) !! l = Some o ∧ level_ o = L.

(** Calls that neither enumerate nor set the default level. *)
Definition quiet (o : op U) : bool :=
  match o with
  | OpForEach _ _ | OpSetDefault _ => false
  | _ => true
  end.

(** The reconfiguration the header describes for
    [set_default_catlogger_level]: every logger is set to [L] and [L] is
    remembered as the default, in one enumeration. *)
Definition reconfigure (L : Level) : op U :=
  OpForEach (Some (level_setter L)) (Some (set_default_catlogger_level L)).

End Dereference.

(** ** Threads with handles of any names *)
Module AnyNames.
Import Threads.
Section Vocabulary.
Context {U : Type}.

(** What a thread's position says about the slot of its name and about its
    handle.  A resolved handle caches the registered pointer; between
    [loggers_[name]] and the assignment of line 22 the slot exists and may
    hold an empty pointer; after it the slot holds a logger. *)
Definition thread_ok (w : world U) (t : thread) : Prop :=
  let c := t_handle t in
  (have_logger c = true →
   loggers_ w !! name c = Some (logger c) ∧ is_Some (logger c))
  ∧ match t_pc t with
    | AtTest => is_Some (loggers_ w !! name c)
    | AtMake => loggers_ w !! name c = Some None
    | AtSetLevel | AtAssign => ∃ l, loggers_ w !! name c = Some (Some l)
    | AtFlag => loggers_ w !! name c = Some (logger c) ∧ is_Some (logger c)
    | AtUnlock | AtReturn => have_logger c = true
    | Done p => have_logger c = true ∧ p = logger c
    | _ => True
    end.

(** The invariant of threads started on the handles [cs] in the world [w0]:
    the lock discipline; the handles keep their names; registered pointers
    are addresses handed out, no address is registered twice, and as many
    loggers are registered as were made; an empty pointer is registered only
    under the name of the thread owning the mutex; what [w0] had registered
    stays, and only names of [w0] or of the handles are registered. *)
Definition ginv (w0 : world U) (cs : list CategoryLogger) (s : cstate U)
  : Prop :=
  let w := c_world s in
  let mu := loggers_mutex_ s in
  (∀ i t, c_threads s !! i = Some t →
          in_critical (t_pc t) = true ↔ mu = Some i)
  ∧ (∀ k, mu = Some k → k < length (c_threads s))
  ∧ (name ∘ t_handle) <$> c_threads s = name <$> cs
  ∧ (∀ n l, loggers_ w !! n = Some (Some l) → l < next_loc w)
  ∧ (∀ n1 n2 l, loggers_ w !! n1 = Some (Some l) →
                loggers_ w !! n2 = Some (Some l) → n1 = n2)
  ∧ size (omap id (loggers_ w)) = next_loc w
  ∧ (∀ n, loggers_ w !! n = Some None →
          ∃ i t, mu = Some i ∧ c_threads s !! i = Some t
                 ∧ name (t_handle t) = n)
  ∧ (∀ n l, loggers_ w0 !! n = Some (Some l) →
            loggers_ w !! n = Some (Some l))
  ∧ (∀ n, is_Some (loggers_ w !! n) →
          is_Some (loggers_ w0 !! n) ∨ n ∈ name <$> cs)
  ∧ (∀ i t, c_threads s !! i = Some t → thread_ok w t).

(** The statements a schedule gets executed: a thread that cannot move does
    not count. *)
Fixpoint effective_steps (sch : list nat) (s : cstate U) : nat :=
  match sch with
  | [] => 0
  | i :: rest =>
      match tstep i s with
      | Some s' => S (effective_steps rest s')
      | None => effective_steps rest s
      end
  end.

End Vocabulary.
End AnyNames.

(** ** An enumeration among the threads

    One more thread runs [for_each_cat_logger f and_then], statement by
    statement, while the others convert their handles.  For the mutex it is
    known by the index after the last converting thread. *)
Module Enumerating.
Import Threads.
Section Model.
Context {U : Type}.

(** The statement the enumeration is about to execute. *)
Inductive epc :=
  | ELock      (* cpp 33: std::lock_guard lock{CategoryLogger::loggers_mutex_} *)
  | ETest      (* cpp 34-35: if (f), and the start of the range-for          *)
  | EVisit (rest : list (string * logger_ptr))
               (* cpp 35-36: the entries still to visit                      *)
  | EFollowUp  (* cpp 37-38: if (and_then) and_then()                        *)
  | EUnlock    (* cpp 39: the guard's destructor                             *)
  | EDone.

(** [m_at_lock] is a history variable: the world at the moment the
    enumeration took the mutex.  No statement reads it. *)
Record mstate := MState {
  m_threads : cstate U;
  m_epc : epc;
  m_at_lock : option (world U)
}.

Inductive who := Resolver (i : nat) | Enumerator.

Definition with_mutex (mu : option nat) (b : cstate U) : cstate U :=
  {| c_world := c_world b; loggers_mutex_ := mu; c_threads := c_threads b |}.

Definition with_world (w : world U) (b : cstate U) : cstate U :=
  {| c_world := w; loggers_mutex_ := loggers_mutex_ b;
     c_threads := c_threads b |}.

(** One statement of the enumeration.  [None]: it waits for the mutex, has
    returned, or would dereference an empty pointer. *)
Definition estep (f : option (visitor U)) (and_then : option (follow_up U))
    (s : mstate) : option mstate :=
  let b := m_threads s in
  let w := c_world b in
  match m_epc s with
  | ELock =>
      match loggers_mutex_ b with
      | None =>
          Some {| m_threads := with_mutex (Some (length (c_threads b))) b;
                  m_epc := ETest;
                  m_at_lock := Some w |}
      | Some _ => None
      end
  | ETest =>
      Some {| m_threads := b;
              m_epc := if f is Some _ then EVisit (map_to_list (loggers_ w))
                       else EFollowUp;
              m_at_lock := m_at_lock s |}
  | EVisit [] =>
      Some {| m_threads := b; m_epc := EFollowUp; m_at_lock := m_at_lock s |}
  | EVisit ((n, Some l) :: rest) =>
      f' ← f;
      Some {| m_threads := with_world (with_env (f' n l (env_of w)) w) b;
              m_epc := EVisit rest;
              m_at_lock := m_at_lock s |}
  | EVisit ((_, None) :: _) => None
  | EFollowUp =>
      let e := if and_then is Some g then g (env_of w) else env_of w in
      Some {| m_threads := with_world (with_env e w) b;
              m_epc := EUnlock;
              m_at_lock := m_at_lock s |}
  | EUnlock =>
      Some {| m_threads := with_mutex None b;
              m_epc := EDone;
              m_at_lock := m_at_lock s |}
  | EDone => None
  end.

Definition mstep (f : option (visitor U)) (and_then : option (follow_up U))
    (a : who) (s : mstate) : option mstate :=
  match a with
  | Resolver i =>
      b ← tstep i (m_threads s);
      Some {| m_threads := b; m_epc := m_epc s; m_at_lock := m_at_lock s |}
  | Enumerator => estep f and_then s
  end.

Fixpoint mrun (f : option (visitor U)) (and_then : option (follow_up U))
    (sch : list who) (s : mstate) : mstate :=
  match sch with
  | [] => s
  | a :: rest => mrun f and_then rest (default s (mstep f and_then a s))
  end.

Definition mstart (w : world U) (cs : list CategoryLogger) : mstate :=
  {| m_threads := start w cs; m_epc := ELock; m_at_lock := None |}.

(** The statements between the construction of the guard and its
    destruction. *)
Definition holding (p : epc) : bool :=
  match p with
  | ETest | EVisit _ | EFollowUp | EUnlock => true
  | _ => false
  end.

(** How far the enumeration has come, told against the world [w1] it found
    when it took the mutex. *)
Definition enum_progress (f : option (visitor U)) (g : option (follow_up U))
    (w1 w : world U) (p : epc) : Prop :=
  loggers_ w = loggers_ w1 ∧ next_loc w = next_loc w1
  ∧ no_empty_pointer (loggers_ w1)
  ∧ match p with
    | ETest => w = w1
    | EVisit rest =>
        ∃ f' visited,
          f = Some f'
          ∧ map_to_list (loggers_ w1) = visited ++ rest
          ∧ visit_all f' visited (env_of w1) = Some (env_of w)
    | EFollowUp =>
        match f with
        | Some f' =>
            visit_all f' (map_to_list (loggers_ w1)) (env_of w1)
            = Some (env_of w)
        | None => env_of w = env_of w1
        end
    | EUnlock => for_each_cat_logger f g w1 = Some w
    | _ => True
    end.

Definition minv (f : option (visitor U)) (g : option (follow_up U))
    (w0 : world U) (cs : list CategoryLogger) (s : mstate) : Prop :=
  let b := m_threads s in
  if holding (m_epc s)
  then loggers_mutex_ b = Some (length (c_threads b))
       ∧ AnyNames.ginv w0 cs (with_mutex None b)
       ∧ ∃ w1, m_at_lock s = Some w1
               ∧ enum_progress f g w1 (c_world b) (m_epc s)
  else AnyNames.ginv w0 cs b.

(** Everybody has returned. *)
Definition m_all_done (s : mstate) : bool :=
  all_done (m_threads s) && (if m_epc s is EDone then true else false).

(** The statements the enumeration has left once it owns the mutex. *)
Definition esteps_left (w : world U) (p : epc) : nat :=
  match p with
  | ELock => 0
  | ETest => 4 + length (map_to_list (loggers_ w))
  | EVisit rest => 3 + length rest
  | EFollowUp => 2
  | EUnlock => 1
  | EDone => 0
  end.

End Model.
Arguments mstate : clear implicits.
End Enumerating.

(** ** A reconfiguration among the threads *)
Module Reconfiguring.
Import Threads Enumerating.
Section Vocabulary.
Context {U : Type}.

(** Every registered logger exists. *)
Definition objects_present (w : world U) : Prop :=
  ∀ n l, loggers_ w !! n = Some (Some l) →
         is_Some (objects (env_of w) !! l).

(** The default level is [L], and every registered logger is at [L] or is
    the one a thread has just made (line 22) and is about to set to the
    default level (line 23). *)
Definition levelled (L : Level) (b : cstate U) : Prop :=
  loggers_default_level_ (env_of (c_world b)) = L
  ∧ ∀ n l, loggers_ (c_world b) !! n = Some (Some l) →
      (∃ o, objects (env_of (c_world b)) !! l = Some o ∧ level_ o = L)
      ∨ (∃ i t, c_threads b !! i = Some t
                ∧ t_pc t = AtSetLevel ∧ name (t_handle t) = n).

Definition rinv (L : Level) (s : mstate U) : Prop :=
  objects_present (c_world (m_threads s))
  ∧ match m_epc s with
    | EUnlock | EDone => levelled L (m_threads s)
    | _ => True
    end.

End Vocabulary.
End Reconfiguring.

(** * Properties *)

(** ** One resolution *)
Section Resolution.
Context {U : Type}.
Implicit Types (w : world U) (c : CategoryLogger) (e : env U).

Lemma world_eta w :
  {| loggers_ := loggers_ w; next_loc := next_loc w; env_of := env_of w |} = w.
Proof. by destruct w. Qed.

Lemma find_or_make_resolved c w :
  have_logger c = true → find_or_make_logger c w = (c, w).
Proof. intros H. unfold find_or_make_logger. by rewrite H. Qed.

Lemma find_or_make_present c w l :
  have_logger c = false →
  loggers_ w !! name c = Some (Some l) →
  find_or_make_logger c w
  = ({| have_logger := true; logger := Some l; name := name c |}, w).
Proof.
  intros Hc Hl. unfold find_or_make_logger, subscript.
  rewrite Hc, Hl. simpl. by rewrite world_eta.
Qed.

Lemma find_or_make_absent c w :
  have_logger c = false →
  loggers_ w !! name c = None →
  find_or_make_logger c w
  = ({| have_logger := true; logger := Some (next_loc w); name := name c |},
     created (name c) w).
Proof.
  intros Hc Hl. unfold find_or_make_logger, subscript, make_logger, created.
  rewrite Hc, Hl. simpl. by rewrite insert_insert_eq.
Qed.

Lemma find_or_make_empty_slot c w :
  have_logger c = false →
  loggers_ w !! name c = Some None →
  find_or_make_logger c w
  = ({| have_logger := true; logger := Some (next_loc w); name := name c |},
     created (name c) w).
Proof.
  intros Hc Hl. unfold find_or_make_logger, subscript, make_logger, created.
  by rewrite Hc, Hl.
Qed.

Lemma find_or_make_name c w : name (find_or_make_logger c w).1 = name c.
Proof.
  unfold find_or_make_logger. destruct (have_logger c); [done|].
  destruct (subscript _ _) as [m [l|]]; by simpl.
Qed.

Lemma find_or_make_have_logger c w :
  have_logger (find_or_make_logger c w).1 = true.
Proof.
  unfold find_or_make_logger. destruct (have_logger c) eqn:E; [done|].
  destruct (subscript _ _) as [m [l|]]; by simpl.
Qed.

Lemma operator_resolved c w :
  have_logger c = true → operator_logger_ptr c w = (logger c, c, w).
Proof. intros H. unfold operator_logger_ptr. by rewrite H. Qed.

Lemma operator_unresolved c w :
  have_logger c = false →
  operator_logger_ptr c w
  = (logger (find_or_make_logger c w).1,
     (find_or_make_logger c w).1, (find_or_make_logger c w).2).
Proof.
  intros H. unfold operator_logger_ptr. rewrite H.
  by destruct (find_or_make_logger c w).
Qed.

Lemma registry_ok_fresh w n :
  registry_ok w → loggers_ w !! n ≠ Some (Some (next_loc w)).
Proof.
  intros (Hnn & _ & _) Hn. destruct (Hnn _ _ Hn) as (l & [= <-] & Hlt). lia.
Qed.

(** C2: accessing an unresolved handle whose name is absent from the registry
    makes a new logger at a fresh address, attached to the master sink and at
    the current default level, inserts it under the name, caches the pointer
    in the handle and marks the handle resolved; nothing else changes.  When
    the name is present, the handle caches the registered pointer and the
    world is left as it was. *)
Theorem C2_resolution_creates_or_reuses c w :
  have_logger c = false →
  (loggers_ w !! name c = None →
   ∃ l w',
     operator_logger_ptr c w
     = (Some l, {| have_logger := true; logger := Some l; name := name c |}, w')
     ∧ (registry_ok w → ∀ n, loggers_ w !! n ≠ Some (Some l))
     ∧ loggers_ w' = <[name c := Some l]> (loggers_ w)
     ∧ objects (env_of w')
       = <[l := {| name_ := name c; sinks_ := [master_sink];
                   level_ := loggers_default_level_ (env_of w) |}]>
           (objects (env_of w))
     ∧ loggers_default_level_ (env_of w') = loggers_default_level_ (env_of w)
     ∧ master_sink_sinks (env_of w') = master_sink_sinks (env_of w)
     ∧ user (env_of w') = user (env_of w))
  ∧ (∀ l, loggers_ w !! name c = Some (Some l) →
     operator_logger_ptr c w
     = (Some l, {| have_logger := true; logger := Some l; name := name c |}, w)).
Proof.
  intros Hc. split.
  - intros Habs. exists (next_loc w), (created (name c) w).
    rewrite operator_unresolved, find_or_make_absent by done.
    repeat split; try done.
    intros Hok n. by apply registry_ok_fresh.
  - intros l Hl.
    by rewrite operator_unresolved, (find_or_make_present c w l).
Qed.

End Resolution.

Lemma C2_resolution_creates_or_reuses_witness :
  have_logger (Cat "net") = false
  ∧ ∃ l w',
      operator_logger_ptr (Cat "net") (initial_world ())
      = (Some l, {| have_logger := true; logger := Some l; name := "net" |}, w')
      ∧ loggers_ w' = <["net" := Some l]> (loggers_ (initial_world ())).
Proof.
  split; [reflexivity|].
  pose proof (C2_resolution_creates_or_reuses
                (Cat "net") (initial_world ()) eq_refl) as [Hnew _].
  destruct Hnew as (l & w' & H1 & _ & H2 & _); [reflexivity|].
  exists l, w'. split; [exact H1 | exact H2].
Defined.


(** ** Enumeration *)
Section Enumeration.
Context {U : Type}.
Implicit Types (f : visitor U) (g : follow_up U).

Lemma forget_with_log log (e : env U) : forget_log (with_log log e) = e.
Proof. by destruct e. Qed.

(** Over entries without empty pointers the loop runs to its end, notes one
    visit per entry, in the order of the entries, and otherwise does what the
    bare visitor does. *)
Lemma visit_all_recording f (pairs : list (string * nat)) (e : env (list event * U)) :
  ∃ e',
    visit_all (recording_visitor f) (entry_of <$> pairs) e = Some e'
    ∧ (user e').1 = (user e).1 ++ (event_of <$> pairs)
    ∧ visit_all f (entry_of <$> pairs) (forget_log e) = Some (forget_log e').
Proof.
  revert e. induction pairs as [|[n l] pairs IH]; intros e; simpl.
  - exists e. by rewrite app_nil_r.
  - destruct (IH (recording_visitor f n l e)) as (e' & Hrun & Hlog & Hbare).
    exists e'. split; [done|]. split.
    + rewrite Hlog. unfold recording_visitor. simpl. by rewrite <- app_assoc.
    + rewrite <- Hbare. unfold recording_visitor. by rewrite forget_with_log.
Qed.

Lemma entries_of_pairs (entries : list (string * option nat)) :
  (∀ n p, (n, p) ∈ entries → is_Some p) →
  ∃ pairs : list (string * nat), entries = entry_of <$> pairs.
Proof.
  induction entries as [|[n p] entries IH]; intros Hnn.
  - by exists [].
  - destruct (Hnn n p) as [l ->]; [left|].
    destruct IH as [pairs ->].
    { intros n' p' Hin. apply (Hnn n' p'). by right. }
    by exists ((n, l) :: pairs).
Qed.

Lemma entry_of_inj : Inj (=) (=) entry_of.
Proof. intros [n1 l1] [n2 l2]. unfold entry_of. simpl. congruence. Qed.

Lemma registry_pairs (m : gmap string (option nat)) :
  (∀ n p, m !! n = Some p → is_Some p) →
  ∃ pairs : list (string * nat),
    map_to_list m = entry_of <$> pairs ∧ NoDup pairs.
Proof.
  intros Hnn. destruct (entries_of_pairs (map_to_list m)) as [pairs Hp].
  { intros n p Hin. apply (Hnn n). by apply elem_of_map_to_list. }
  exists pairs. split; [done|].
  apply (NoDup_fmap_1 entry_of). rewrite <- Hp. apply NoDup_map_to_list.
Qed.

(** C6: on a registry without empty pointers, [for_each_cat_logger] calls a
    given visitor once for every entry of the registry and no more (the
    visits are a duplicate-free rearrangement of the entries), and then calls
    a given follow-up once, after the last visit; an absent visitor is not
    called, nor is an absent follow-up.  The registry is the same
    afterwards. *)
Theorem C6_for_each_calls (f : option (visitor U)) (g : option (follow_up U))
    (w : world (list event * U)) :
  no_empty_pointer (loggers_ w) →
  ∃ w' (visits : list (string * nat)),
    for_each_cat_logger (recording_visitor <$> f) (recording_follow_up <$> g) w
    = Some w'
    ∧ log_of w'
      = log_of w ++ (event_of <$> visits)
                 ++ (if g is Some _ then [FollowedUp] else [])
    ∧ (if f is Some _
       then entry_of <$> visits ≡ₚ map_to_list (loggers_ w)
       else visits = [])
    ∧ NoDup visits
    ∧ loggers_ w' = loggers_ w.
Proof.
  intros Hnn. destruct (registry_pairs _ Hnn) as (pairs & Hpairs & Hnd).
  unfold for_each_cat_logger, log_of.
  destruct f as [f|]; simpl.
  - rewrite Hpairs.
    destruct (visit_all_recording f pairs (env_of w)) as (e' & -> & Hlog & _).
    simpl. eexists _, pairs. split; [done|]. simpl.
    repeat split; [|done..].
    destruct g as [g|]; simpl; rewrite Hlog; [|by rewrite app_nil_r].
    by rewrite <- app_assoc.
  - eexists _, []. split; [done|]. simpl.
    repeat split; [|constructor].
    destruct g as [g|]; simpl; [done|by rewrite app_nil_r].
Qed.

(** Recording changes nothing but the log. *)
Lemma for_each_recording_erasure (f : option (visitor U))
    (g : option (follow_up U)) (w w' : world (list event * U)) :
  no_empty_pointer (loggers_ w) →
  for_each_cat_logger (recording_visitor <$> f) (recording_follow_up <$> g) w
  = Some w' →
  for_each_cat_logger f g (forget_world_log w) = Some (forget_world_log w').
Proof.
  intros Hnn. destruct (registry_pairs _ Hnn) as (pairs & Hpairs & _).
  unfold for_each_cat_logger, forget_world_log. simpl.
  destruct f as [f|]; simpl.
  - rewrite Hpairs.
    destruct (visit_all_recording f pairs (env_of w)) as (e' & -> & _ & ->).
    simpl. intros [= <-]. simpl.
    destruct g as [g|]; simpl; [|done].
    unfold recording_follow_up. by rewrite forget_with_log.
  - intros [= <-]. simpl. destruct g as [g|]; simpl; [|done].
    unfold recording_follow_up. by rewrite forget_with_log.
Qed.

(** C7: on an empty registry no visit is made, and a given follow-up is still
    called, once. *)
Theorem C7_for_each_empty (f : option (visitor U)) (g : option (follow_up U))
    (w : world (list event * U)) :
  loggers_ w = ∅ →
  ∃ w',
    for_each_cat_logger (recording_visitor <$> f) (recording_follow_up <$> g) w
    = Some w'
    ∧ log_of w' = log_of w ++ (if g is Some _ then [FollowedUp] else []).
Proof.
  intros Hempty. unfold for_each_cat_logger, log_of. rewrite Hempty.
  rewrite map_to_list_empty.
  destruct f as [f|], g as [g|]; simpl; eexists; (split; [done|]); simpl;
    by rewrite ?app_nil_r.
Qed.

End Enumeration.

Lemma C6_for_each_calls_witness :
  no_empty_pointer (loggers_ (two_categories (@nil event, ())))
  ∧ ∃ w' (visits : list (string * nat)),
      for_each_cat_logger
        (Some (recording_visitor (level_setter warn)))
        (Some (recording_follow_up (set_default_catlogger_level warn)))
        (two_categories ([], ()))
      = Some w'
      ∧ log_of w' = (event_of <$> visits) ++ [FollowedUp]
      ∧ entry_of <$> visits ≡ₚ [("net", Some 0); ("disk", Some 1)].
Proof.
  assert (Hnn : no_empty_pointer (loggers_ (two_categories (@nil event, ())))).
  { apply (bool_decide_unpack _). vm_compute. exact I. }
  split; [exact Hnn|].
  destruct (C6_for_each_calls (Some (level_setter warn))
              (Some (set_default_catlogger_level warn))
              (two_categories ([], ())) Hnn)
    as (w' & visits & Hrun & Hlog & Hperm & _).
  exists w', visits. split; [exact Hrun|]. split; [exact Hlog|].
  rewrite Hperm. vm_compute. reflexivity.
Defined.

Lemma C7_for_each_empty_witness :
  loggers_ (initial_world (@nil event, ())) = ∅
  ∧ ∃ w',
      for_each_cat_logger
        (Some (recording_visitor (level_setter warn)))
        (Some (recording_follow_up (set_default_catlogger_level warn)))
        (initial_world ([], ()))
      = Some w'
      ∧ log_of w' = [FollowedUp].
Proof.
  split; [reflexivity|].
  exact (C7_for_each_empty (Some (level_setter warn))
           (Some (set_default_catlogger_level warn))
           (initial_world ([], ())) eq_refl).
Defined.

(** ** Programs *)
Section Programs.
Context {U : Type}.
Implicit Types (w : world U) (c : CategoryLogger) (s : system U) (o : op U).

Lemma registry_ok_no_empty w : registry_ok w → no_empty_pointer (loggers_ w).
Proof.
  intros (Hnn & _) n p Hn. destruct (Hnn _ _ Hn) as (l & -> & _). by eexists.
Qed.

Lemma registry_ok_ext w w' :
  loggers_ w' = loggers_ w → next_loc w' = next_loc w →
  registry_ok w → registry_ok w'.
Proof. unfold registry_ok. intros -> ->. done. Qed.

Lemma handle_ok_ext w w' c :
  loggers_ w' = loggers_ w → handle_ok w c → handle_ok w' c.
Proof. unfold handle_ok. intros ->. done. Qed.

Lemma registry_ok_created w n :
  registry_ok w → loggers_ w !! n = None → registry_ok (created n w).
Proof.
  intros (Hnn & Hinj & Hsize) Hn. unfold created. repeat split; simpl.
  - intros n' p. rewrite lookup_insert. case_decide as En.
    + intros [= <-]. eexists. split; [done|lia].
    + intros Hn'. destruct (Hnn _ _ Hn') as (l & -> & ?).
      eexists. split; [done|lia].
  - intros n1 n2 l. rewrite !lookup_insert.
    repeat case_decide; subst; try done.
    + intros [= <-] H2. destruct (Hnn _ _ H2) as (? & [= <-] & ?). lia.
    + intros H1 [= <-]. destruct (Hnn _ _ H1) as (? & [= <-] & ?). lia.
    + apply Hinj.
  - rewrite map_size_insert_None by done. by rewrite Hsize.
Qed.

(** Whatever is registered stays registered, under the same address. *)
Lemma find_or_make_keeps c w n l :
  loggers_ w !! n = Some (Some l) →
  loggers_ (find_or_make_logger c w).2 !! n = Some (Some l).
Proof.
  intros Hn. destruct (have_logger c) eqn:Hc.
  { by rewrite find_or_make_resolved. }
  destruct (loggers_ w !! name c) as [[l'|]|] eqn:Hl.
  - by rewrite (find_or_make_present c w l').
  - rewrite find_or_make_empty_slot by done. simpl.
    rewrite lookup_insert_ne; [done|]. intros <-. congruence.
  - rewrite find_or_make_absent by done. simpl.
    rewrite lookup_insert_ne; [done|]. intros <-. congruence.
Qed.

Lemma find_or_make_consistent c w :
  registry_ok w → handle_ok w c →
  registry_ok (find_or_make_logger c w).2
  ∧ handle_ok (find_or_make_logger c w).2 (find_or_make_logger c w).1.
Proof.
  intros Hok Hc. destruct (have_logger c) eqn:Hhave.
  { by rewrite find_or_make_resolved. }
  destruct (loggers_ w !! name c) as [[l'|]|] eqn:Hl.
  - rewrite (find_or_make_present c w l') by done. split; [done|].
    intros _. simpl. split; [done|by eexists].
  - destruct Hok as (Hnn & _). destruct (Hnn _ _ Hl) as (? & [=] & _).
  - rewrite find_or_make_absent by done. split.
    + by apply registry_ok_created.
    + intros _. simpl. rewrite lookup_insert_eq. split; [done|by eexists].
Qed.

Lemma handle_ok_find_or_make c c' w :
  handle_ok w c' → handle_ok (find_or_make_logger c w).2 c'.
Proof.
  intros Hc' Hhave. destruct (Hc' Hhave) as [Hreg [l Hl]]. split; [|by eexists].
  rewrite Hl in *. by apply find_or_make_keeps.
Qed.

Lemma operator_as_find_or_make c w :
  operator_logger_ptr c w
  = (logger (find_or_make_logger c w).1,
     (find_or_make_logger c w).1, (find_or_make_logger c w).2).
Proof.
  destruct (have_logger c) eqn:Hc.
  - by rewrite operator_resolved, find_or_make_resolved.
  - by apply operator_unresolved.
Qed.

Lemma visit_all_total (f : visitor U) (pairs : list (string * nat)) (e : env U) :
  is_Some (visit_all f (entry_of <$> pairs) e).
Proof.
  revert e. induction pairs as [|[n l] pairs IH]; intros e; simpl; [by eexists|].
  apply IH.
Qed.

Lemma for_each_total (f : option (visitor U)) (g : option (follow_up U)) w :
  no_empty_pointer (loggers_ w) → is_Some (for_each_cat_logger f g w).
Proof.
  intros Hnn. unfold for_each_cat_logger.
  destruct f as [f|]; simpl; [|by eexists].
  destruct (registry_pairs _ Hnn) as (pairs & -> & _).
  destruct (visit_all_total f pairs (env_of w)) as [e ->]. by eexists.
Qed.

Lemma for_each_frame (f : option (visitor U)) (g : option (follow_up U)) w w' :
  for_each_cat_logger f g w = Some w' →
  loggers_ w' = loggers_ w ∧ next_loc w' = next_loc w.
Proof.
  unfold for_each_cat_logger. intros H.
  destruct (match f with Some _ => _ | None => _ end) as [e|]; [|done].
  simpl in H. by injection H as <-.
Qed.

(** *** One call *)

Lemma exec_access h s r s' :
  exec (OpAccess h) s = Some (r, s') →
  ∃ c, sys_handles s !! h = Some c
       ∧ r = RPtr (logger (find_or_make_logger c (sys_world s)).1)
       ∧ sys_world s' = (find_or_make_logger c (sys_world s)).2
       ∧ sys_handles s'
         = <[h := (find_or_make_logger c (sys_world s)).1]> (sys_handles s).
Proof.
  unfold exec. destruct (sys_handles s !! h) as [c|] eqn:Hh; [|done]. simpl.
  rewrite operator_as_find_or_make. intros [= <- <-]. by exists c.
Qed.

Lemma exec_total o s :
  consistent s → well_scoped [o] (length (sys_handles s)) = true →
  is_Some (exec o s).
Proof.
  intros [Hreg _] Hscope. destruct o as [n|h|f g|L|]; simpl; try by eexists.
  - simpl in Hscope. rewrite andb_true_r in Hscope.
    apply bool_decide_eq_true in Hscope.
    destruct (lookup_lt_is_Some_2 (sys_handles s) h Hscope) as [c ->]. simpl.
    destruct (operator_logger_ptr c (sys_world s)) as [[p c'] w']. by eexists.
  - destruct (for_each_total f g (sys_world s)) as [w' ->]; [|by eexists].
    by apply registry_ok_no_empty.
Qed.

Lemma exec_keeps o s r s' n l :
  exec o s = Some (r, s') →
  loggers_ (sys_world s) !! n = Some (Some l) →
  loggers_ (sys_world s') !! n = Some (Some l).
Proof.
  intros Hex Hn. destruct o as [n'|h|f g|L|]; simpl in Hex.
  - by injection Hex as <- <-.
  - apply exec_access in Hex as (c & _ & _ & -> & _).
    by apply find_or_make_keeps.
  - destruct (for_each_cat_logger f g (sys_world s)) as [w'|] eqn:Hfe; [|done].
    injection Hex as <- <-. simpl.
    apply for_each_frame in Hfe as [-> _]. done.
  - by injection Hex as <- <-.
  - by injection Hex as <- <-.
Qed.

Lemma exec_handles o s r s' h c :
  exec o s = Some (r, s') →
  sys_handles s !! h = Some c →
  ∃ c', sys_handles s' !! h = Some c'
        ∧ name c' = name c
        ∧ (have_logger c = true → c' = c).
Proof.
  intros Hex Hh. destruct o as [n'|h'|f g|L|]; simpl in Hex.
  - injection Hex as <- <-. simpl. exists c.
    by rewrite lookup_app_l by (by eapply lookup_lt_Some).
  - apply exec_access in Hex as (c0 & Hh' & _ & _ & ->).
    destruct (decide (h' = h)) as [->|Hne].
    + rewrite Hh in Hh'. injection Hh' as <-.
      rewrite list_lookup_insert_eq by (by eapply lookup_lt_Some).
      eexists. split; [done|]. split; [apply find_or_make_name|].
      intros Hc. by rewrite find_or_make_resolved.
    + rewrite list_lookup_insert_ne by done. by exists c.
  - destruct (for_each_cat_logger f g (sys_world s)) as [w'|]; [|done].
    injection Hex as <- <-. by exists c.
  - injection Hex as <- <-. by exists c.
  - injection Hex as <- <-. by exists c.
Qed.

Lemma exec_consistent o s r s' :
  consistent s → exec o s = Some (r, s') → consistent s'.
Proof.
  intros [Hreg Hhs] Hex. destruct o as [n'|h|f g|L|]; simpl in Hex.
  - injection Hex as <- <-. split; [done|]. simpl.
    apply Forall_app. split; [done|]. by repeat constructor.
  - apply exec_access in Hex as (c & Hh & _ & Hw & Hhs').
    assert (handle_ok (sys_world s) c) as Hc.
    { rewrite Forall_forall in Hhs. apply Hhs. by eapply list_elem_of_lookup_2. }
    destruct (find_or_make_consistent c _ Hreg Hc) as [Hreg' Hc'].
    split; rewrite Hw; [done|]. rewrite Hhs'.
    apply Forall_insert; [|done].
    eapply Forall_impl; [exact Hhs|]. intros c0. apply handle_ok_find_or_make.
  - destruct (for_each_cat_logger f g (sys_world s)) as [w'|] eqn:Hfe; [|done].
    injection Hex as <- <-. apply for_each_frame in Hfe as [Hl Hn].
    split; simpl.
    + by eapply registry_ok_ext.
    + eapply Forall_impl; [exact Hhs|]. intros c0. by apply handle_ok_ext.
  - injection Hex as <- <-. split; simpl.
    + by eapply registry_ok_ext.
    + eapply Forall_impl; [exact Hhs|]. intros c0. by apply handle_ok_ext.
  - by injection Hex as <- <-.
Qed.

Lemma exec_length o s r s' :
  exec o s = Some (r, s') →
  length (sys_handles s')
  = if o is OpCat _ then S (length (sys_handles s)) else length (sys_handles s).
Proof.
  intros Hex. destruct o as [n'|h|f g|L|]; simpl in Hex.
  - injection Hex as <- <-. simpl. rewrite length_app. simpl. lia.
  - apply exec_access in Hex as (c & _ & _ & _ & ->). by rewrite length_insert.
  - destruct (for_each_cat_logger f g (sys_world s)); [|done].
    by injection Hex as <- <-.
  - by injection Hex as <- <-.
  - by injection Hex as <- <-.
Qed.

(** *** Sequences of calls *)

Lemma run_cons o ops s rets s' :
  run (o :: ops) s = Some (rets, s') →
  ∃ r s1 rs, exec o s = Some (r, s1) ∧ run ops s1 = Some (rs, s')
             ∧ rets = r :: rs.
Proof.
  simpl. destruct (exec o s) as [[r s1]|]; simpl; [|intros [=]].
  destruct (run ops s1) as [[rs s2]|] eqn:Hrest; simpl; [|intros [=]].
  intros [= <- <-]. by exists r, s1, rs.
Qed.

Lemma well_scoped_cons o ops k :
  well_scoped (o :: ops) k = true →
  well_scoped [o] k = true
  ∧ well_scoped ops (if o is OpCat _ then S k else k) = true.
Proof.
  destruct o; simpl; try done.
  intros [? ?]%andb_true_iff. split; [|done]. by rewrite andb_true_r.
Qed.

Lemma run_total ops s :
  consistent s → well_scoped ops (length (sys_handles s)) = true →
  is_Some (run ops s).
Proof.
  revert s. induction ops as [|o ops IH]; intros s Hs Hscope; [by eexists|].
  apply well_scoped_cons in Hscope as [Ho Hops].
  destruct (exec_total o s Hs Ho) as [[r s1] Hex]. simpl. rewrite Hex. simpl.
  destruct (IH s1) as [[rs s2] ->]; [by eapply exec_consistent| |by eexists].
  by rewrite (exec_length _ _ _ _ Hex).
Qed.

Lemma run_consistent ops s rets s' :
  consistent s → run ops s = Some (rets, s') → consistent s'.
Proof.
  revert s rets. induction ops as [|o ops IH]; intros s rets Hs Hrun.
  - by injection Hrun as <- <-.
  - apply run_cons in Hrun as (r & s1 & rs & Hex & Hrun & ->).
    eapply IH; [|done]. by eapply exec_consistent.
Qed.

Lemma run_keeps ops s rets s' n l :
  run ops s = Some (rets, s') →
  loggers_ (sys_world s) !! n = Some (Some l) →
  loggers_ (sys_world s') !! n = Some (Some l).
Proof.
  revert s rets. induction ops as [|o ops IH]; intros s rets Hrun Hn.
  - by injection Hrun as <- <-.
  - apply run_cons in Hrun as (r & s1 & rs & Hex & Hrun & ->).
    eapply IH; [done|]. by eapply exec_keeps.
Qed.

Lemma run_handles ops s rets s' h c :
  run ops s = Some (rets, s') →
  sys_handles s !! h = Some c →
  ∃ c', sys_handles s' !! h = Some c'
        ∧ name c' = name c
        ∧ (have_logger c = true → c' = c).
Proof.
  revert s rets c. induction ops as [|o ops IH]; intros s rets c Hrun Hh.
  - injection Hrun as <- <-. by exists c.
  - apply run_cons in Hrun as (r & s1 & rs & Hex & Hrun & ->).
    destruct (exec_handles _ _ _ _ _ _ Hex Hh) as (c1 & Hh1 & Hn1 & Hfix1).
    destruct (IH _ _ _ Hrun Hh1) as (c2 & Hh2 & Hn2 & Hfix2).
    exists c2. split; [done|]. split; [congruence|].
    intros Hc. rewrite (Hfix1 Hc) in *. by apply Hfix2.
Qed.

(** An access returns the pointer the registry holds, at the end of the run,
    for the name of the handle. *)
Lemma exec_access_registered h s r s' :
  consistent s → exec (OpAccess h) s = Some (r, s') →
  ∃ c l, sys_handles s' !! h = Some c
         ∧ r = RPtr (Some l)
         ∧ loggers_ (sys_world s') !! name c = Some (Some l).
Proof.
  intros [Hreg Hhs] Hex.
  apply exec_access in Hex as (c & Hh & -> & -> & ->).
  assert (handle_ok (sys_world s) c) as Hc.
  { rewrite Forall_forall in Hhs. apply Hhs. by eapply list_elem_of_lookup_2. }
  destruct (find_or_make_consistent c _ Hreg Hc) as [_ Hc'].
  destruct (Hc' (find_or_make_have_logger _ _)) as [Hentry [l Hl]].
  exists (find_or_make_logger c (sys_world s)).1, l.
  rewrite list_lookup_insert_eq by (by eapply lookup_lt_Some).
  by rewrite Hl in *.
Qed.

Lemma run_access ops s rets s' i h :
  consistent s → run ops s = Some (rets, s') →
  ops !! i = Some (OpAccess h) →
  ∃ c l, sys_handles s' !! h = Some c
         ∧ rets !! i = Some (RPtr (Some l))
         ∧ loggers_ (sys_world s') !! name c = Some (Some l).
Proof.
  revert s rets i. induction ops as [|o ops IH]; intros s rets i Hs Hrun Hi.
  { done. }
  apply run_cons in Hrun as (r & s1 & rs & Hex & Hrun & ->).
  destruct i as [|i]; simpl in Hi.
  - injection Hi as ->.
    destruct (exec_access_registered _ _ _ _ Hs Hex) as (c & l & Hh & -> & Hl).
    destruct (run_handles _ _ _ _ _ _ Hrun Hh) as (c' & Hh' & Hname & _).
    exists c', l. split; [done|]. split; [done|].
    rewrite Hname. by eapply run_keeps.
  - apply (IH s1 rs); [|done..]. by eapply exec_consistent.
Qed.

(** The default level moves only when something sets it. *)
Lemma find_or_make_default c w :
  loggers_default_level_ (env_of (find_or_make_logger c w).2)
  = loggers_default_level_ (env_of w).
Proof.
  destruct (have_logger c) eqn:Hc.
  { by rewrite find_or_make_resolved. }
  destruct (loggers_ w !! name c) as [[l'|]|] eqn:Hl.
  - by rewrite (find_or_make_present c w l').
  - by rewrite find_or_make_empty_slot.
  - by rewrite find_or_make_absent.
Qed.

Lemma visit_all_default (f : visitor U) entries (e e' : env U) :
  (∀ n l e, loggers_default_level_ (f n l e) = loggers_default_level_ e) →
  visit_all f entries e = Some e' →
  loggers_default_level_ e' = loggers_default_level_ e.
Proof.
  intros Hf. revert e. induction entries as [|[n [l|]] entries IH]; intros e; simpl.
  - by intros [= <-].
  - intros Hrun. rewrite (IH _ Hrun). apply Hf.
  - done.
Qed.

Lemma exec_keeps_default o s r s' :
  keeps_default o → exec o s = Some (r, s') →
  loggers_default_level_ (env_of (sys_world s'))
  = loggers_default_level_ (env_of (sys_world s)).
Proof.
  intros Hk Hex. destruct o as [n'|h|f g|L|]; simpl in Hex, Hk.
  - by injection Hex as <- <-.
  - apply exec_access in Hex as (c & _ & _ & -> & _). apply find_or_make_default.
  - destruct Hk as [Hf Hg]. unfold for_each_cat_logger in Hex.
    destruct f as [f|]; simpl in Hex.
    + destruct (visit_all f _ _) as [e1|] eqn:Hv; simpl in Hex; [|done].
      injection Hex as <- <-. simpl.
      apply visit_all_default in Hv; [|by apply Hf]. rewrite <- Hv.
      destruct g as [g|]; [by apply Hg|done].
    + injection Hex as <- <-. simpl. destruct g as [g|]; [by apply Hg|done].
  - done.
  - by injection Hex as <- <-.
Qed.

Lemma run_keeps_default ops s rets s' :
  Forall keeps_default ops → run ops s = Some (rets, s') →
  loggers_default_level_ (env_of (sys_world s'))
  = loggers_default_level_ (env_of (sys_world s)).
Proof.
  intros Hk. revert s rets. induction Hk as [|o ops Ho _ IH]; intros s rets Hrun.
  - by injection Hrun as <- <-.
  - apply run_cons in Hrun as (r & s1 & rs & Hex & Hrun & ->).
    rewrite (IH _ _ Hrun). by eapply exec_keeps_default.
Qed.

(** Outside an enumeration the loggers that exist are left as they are. *)
Lemma find_or_make_objects c w l :
  l < next_loc w →
  objects (env_of (find_or_make_logger c w).2) !! l = objects (env_of w) !! l
  ∧ next_loc w ≤ next_loc (find_or_make_logger c w).2.
Proof.
  intros Hlt. destruct (have_logger c) eqn:Hc.
  { by rewrite find_or_make_resolved. }
  destruct (loggers_ w !! name c) as [[l'|]|] eqn:Hl.
  - by rewrite (find_or_make_present c w l').
  - rewrite find_or_make_empty_slot by done. simpl.
    split; [|lia]. apply lookup_insert_ne. lia.
  - rewrite find_or_make_absent by done. simpl.
    split; [|lia]. apply lookup_insert_ne. lia.
Qed.

Lemma exec_objects o s r s' l :
  is_enumeration o = false → exec o s = Some (r, s') →
  l < next_loc (sys_world s) →
  objects (env_of (sys_world s')) !! l = objects (env_of (sys_world s)) !! l
  ∧ next_loc (sys_world s) ≤ next_loc (sys_world s').
Proof.
  intros Ho Hex Hlt. destruct o as [n'|h|f g|L|]; simpl in Hex, Ho; try done.
  - by injection Hex as <- <-.
  - apply exec_access in Hex as (c & _ & _ & -> & _).
    by apply find_or_make_objects.
  - by injection Hex as <- <-.
  - by injection Hex as <- <-.
Qed.

Lemma run_objects ops s rets s' l :
  Forall (λ o, is_enumeration o = false) ops → run ops s = Some (rets, s') →
  l < next_loc (sys_world s) →
  objects (env_of (sys_world s')) !! l = objects (env_of (sys_world s)) !! l.
Proof.
  intros Hk. revert s rets. induction Hk as [|o ops Ho _ IH]; intros s rets Hrun Hlt.
  - by injection Hrun as <- <-.
  - apply run_cons in Hrun as (r & s1 & rs & Hex & Hrun & ->).
    destruct (exec_objects _ _ _ _ _ Ho Hex Hlt) as [Hobj Hle].
    rewrite <- Hobj. apply (IH _ _ Hrun). lia.
Qed.

Lemma find_or_make_dom c w n :
  is_Some (loggers_ w !! n) →
  is_Some (loggers_ (find_or_make_logger c w).2 !! n).
Proof.
  intros Hn. destruct (have_logger c) eqn:Hc.
  { by rewrite find_or_make_resolved. }
  destruct (loggers_ w !! name c) as [[l'|]|] eqn:Hl.
  - by rewrite (find_or_make_present c w l').
  - rewrite find_or_make_empty_slot by done. simpl. by apply lookup_insert_is_Some'; right.
  - rewrite find_or_make_absent by done. simpl. by apply lookup_insert_is_Some'; right.
Qed.

Lemma run_dom ops s rets s' n :
  run ops s = Some (rets, s') →
  is_Some (loggers_ (sys_world s) !! n) →
  is_Some (loggers_ (sys_world s') !! n).
Proof.
  revert s rets. induction ops as [|o ops IH]; intros s rets Hrun Hn.
  - by injection Hrun as <- <-.
  - apply run_cons in Hrun as (r & s1 & rs & Hex & Hrun & ->).
    apply (IH _ _ Hrun). clear Hrun IH.
    destruct o as [n'|h|f g|L|]; simpl in Hex.
    + by injection Hex as <- <-.
    + apply exec_access in Hex as (c & _ & _ & -> & _). by apply find_or_make_dom.
    + destruct (for_each_cat_logger f g (sys_world s)) as [w'|] eqn:Hfe; [|done].
      injection Hex as <- <-. simpl. apply for_each_frame in Hfe as [-> _]. done.
    + by injection Hex as <- <-.
    + by injection Hex as <- <-.
Qed.

Lemma run_constructions (names : list string) s :
  run (OpCat <$> names) s
  = Some (RHandle <$> seq (length (sys_handles s)) (length names),
          {| sys_world := sys_world s;
             sys_handles := sys_handles s ++ (Cat <$> names) |}).
Proof.
  revert s. induction names as [|n names IH]; intros s; simpl.
  - rewrite app_nil_r. by destruct s.
  - rewrite IH. simpl. rewrite length_app. simpl.
    rewrite Nat.add_1_r. by rewrite <- app_assoc.
Qed.

(** *** The claims about programs *)

(** C1: in a program whose accesses are to constructed handles, started in a
    consistent state, every access returns a pointer to a logger, and two
    accesses, to the same handle or to two handles of one name, in either
    order, return the same pointer, which is the one registered under the
    name.  As many loggers have been made as there are names in the registry,
    and no logger is registered under two names. *)
Theorem C1_one_logger_per_name (ops : list (op U)) s :
  consistent s →
  well_scoped ops (length (sys_handles s)) = true →
  ∃ rets s',
    run ops s = Some (rets, s')
    ∧ (∀ i j hi hj ci cj,
         ops !! i = Some (OpAccess hi) → ops !! j = Some (OpAccess hj) →
         sys_handles s' !! hi = Some ci → sys_handles s' !! hj = Some cj →
         name ci = name cj →
         ∃ l, rets !! i = Some (RPtr (Some l))
              ∧ rets !! j = Some (RPtr (Some l))
              ∧ loggers_ (sys_world s') !! name ci = Some (Some l))
    ∧ next_loc (sys_world s') = size (loggers_ (sys_world s'))
    ∧ (∀ n1 n2 l,
         loggers_ (sys_world s') !! n1 = Some (Some l) →
         loggers_ (sys_world s') !! n2 = Some (Some l) → n1 = n2).
Proof.
  intros Hs Hscope.
  destruct (run_total ops s Hs Hscope) as [[rets s'] Hrun].
  exists rets, s'. split; [done|].
  destruct (run_consistent _ _ _ _ Hs Hrun) as [(_ & Hinj & Hsize) _].
  split; [|by split].
  intros i j hi hj ci cj Hi Hj Hci Hcj Hname.
  destruct (run_access _ _ _ _ _ _ Hs Hrun Hi) as (ci' & li & Hci' & Hri & Hli).
  destruct (run_access _ _ _ _ _ _ Hs Hrun Hj) as (cj' & lj & Hcj' & Hrj & Hlj).
  assert (ci' = ci) as -> by congruence.
  assert (cj' = cj) as -> by congruence.
  exists li. rewrite <- Hname in Hlj.
  assert (lj = li) as -> by congruence. done.
Qed.

(** C3: constructing handles, however many, always succeeds, leaves the whole
    world (registry, default level, loggers, master sink) as it was, and only
    adds to the handles: one unresolved handle per name, holding the name and
    an empty pointer. *)
Theorem C3_construction_touches_nothing (names : list string) (s : system U) :
  ∃ s',
    run (OpCat <$> names) s
    = Some (RHandle <$> seq (length (sys_handles s)) (length names), s')
    ∧ sys_world s' = sys_world s
    ∧ sys_handles s'
      = sys_handles s
        ++ ((λ n, {| have_logger := false; logger := None; name := n |}) <$> names).
Proof.
  eexists. split; [apply run_constructions|]. done.
Qed.

(** C4: a handle that has resolved stays as it is through any program: it is
    the same record afterwards, every access to it returns the pointer it
    cached, and [find_or_make_logger] on it changes neither the handle nor
    the world. *)
Theorem C4_resolved_handle_is_fixed (ops : list (op U)) s h c :
  sys_handles s !! h = Some c →
  have_logger c = true →
  (∀ rets s', run ops s = Some (rets, s') →
     sys_handles s' !! h = Some c
     ∧ ∀ i, ops !! i = Some (OpAccess h) → rets !! i = Some (RPtr (logger c)))
  ∧ (∀ w : world U, find_or_make_logger c w = (c, w))
  ∧ (∀ w : world U, operator_logger_ptr c w = (logger c, c, w))
  ∧ (consistent s → well_scoped ops (length (sys_handles s)) = true →
     is_Some (run ops s)).
Proof.
  intros Hh Hc. split; [|split; [|split]].
  - revert s Hh. induction ops as [|o ops IH]; intros s Hh rets s' Hrun.
    { injection Hrun as <- <-. done. }
    apply run_cons in Hrun as (r & s1 & rs & Hex & Hrun & ->).
    destruct (exec_handles _ _ _ _ _ _ Hex Hh) as (c1 & Hh1 & _ & Hfix).
    rewrite (Hfix Hc) in Hh1.
    destruct (IH s1 Hh1 _ _ Hrun) as [Hh' Hacc]. split; [done|].
    intros [|i] Hi; simpl in Hi; [|by apply Hacc].
    injection Hi as ->. apply exec_access in Hex as (c0 & Hh0 & -> & _).
    rewrite Hh in Hh0. injection Hh0 as <-.
    by rewrite find_or_make_resolved.
  - intros w. by apply find_or_make_resolved.
  - intros w. by apply operator_resolved.
  - apply run_total.
Qed.

(** C9: whatever the program, a name registered with a logger is still
    registered with the same logger afterwards, and no name leaves the
    registry. *)
Theorem C9_registry_only_grows (ops : list (op U)) s :
  (∀ rets s', run ops s = Some (rets, s') →
     (∀ n l, loggers_ (sys_world s) !! n = Some (Some l) →
             loggers_ (sys_world s') !! n = Some (Some l))
     ∧ (∀ n, is_Some (loggers_ (sys_world s) !! n) →
             is_Some (loggers_ (sys_world s') !! n)))
  ∧ (consistent s → well_scoped ops (length (sys_handles s)) = true →
     is_Some (run ops s)).
Proof.
  split; [|apply run_total].
  intros rets s' Hrun. split.
  - intros n l. by eapply run_keeps.
  - intros n. by eapply run_dom.
Qed.

(** C10: the getter returns what the setter stored, also after any calls in
    between that do not set the default level; before any setter call it
    returns [info]. *)
Theorem C10_default_level_round_trip (L : Level) (e : env U) (u : U)
    (ops : list (op U)) s :
  get_default_catlogger_level (set_default_catlogger_level L e) = L
  ∧ get_default_catlogger_level (env_of (initial_world u)) = info
  ∧ (Forall keeps_default ops →
     ∀ rets s', run (OpSetDefault L :: ops) s = Some (rets, s') →
       exec OpGetDefault s' = Some (RLevel L, s')).
Proof.
  split; [done|]. split; [done|].
  intros Hk rets s' Hrun.
  apply run_cons in Hrun as (r & s1 & rs & Hex & Hrun & ->).
  simpl. unfold get_default_catlogger_level.
  rewrite (run_keeps_default _ _ _ _ Hk Hrun).
  simpl in Hex. by injection Hex as <- <-.
Qed.

(** C5: [set_default_catlogger_level L] changes the stored default level and
    nothing else: the registry, the loggers and their levels, the master sink
    and the handles are as before.  After further calls that do not set the
    default level, the default still is [L], and accessing an unresolved
    handle whose name is not registered makes a new logger whose level is
    [L].  As long as no enumeration runs, the loggers registered before the
    call are as they were. *)
Theorem C5_default_level_is_for_new_loggers (L : Level) (ops : list (op U)) s :
  consistent s →
  Forall keeps_default ops →
  well_scoped ops (length (sys_handles s)) = true →
  ∃ s1 rets s2,
    exec (OpSetDefault L) s = Some (RDone, s1)
    ∧ (loggers_ (sys_world s1) = loggers_ (sys_world s)
       ∧ next_loc (sys_world s1) = next_loc (sys_world s)
       ∧ objects (env_of (sys_world s1)) = objects (env_of (sys_world s))
       ∧ master_sink_sinks (env_of (sys_world s1))
         = master_sink_sinks (env_of (sys_world s))
       ∧ user (env_of (sys_world s1)) = user (env_of (sys_world s))
       ∧ sys_handles s1 = sys_handles s)
    ∧ loggers_default_level_ (env_of (sys_world s1)) = L
    ∧ run ops s1 = Some (rets, s2)
    ∧ loggers_default_level_ (env_of (sys_world s2)) = L
    ∧ (∀ h c,
         sys_handles s2 !! h = Some c → have_logger c = false →
         loggers_ (sys_world s2) !! name c = None →
         ∃ l obj s3,
           exec (OpAccess h) s2 = Some (RPtr (Some l), s3)
           ∧ (∀ n, loggers_ (sys_world s2) !! n ≠ Some (Some l))
           ∧ loggers_ (sys_world s3) !! name c = Some (Some l)
           ∧ objects (env_of (sys_world s3)) !! l = Some obj
           ∧ level_ obj = L)
    ∧ (Forall (λ o, is_enumeration o = false) ops →
       ∀ n l, loggers_ (sys_world s) !! n = Some (Some l) →
              objects (env_of (sys_world s2)) !! l
              = objects (env_of (sys_world s)) !! l).
Proof.
  intros Hs Hk Hscope.
  destruct (exec (OpSetDefault L) s) as [[r s1]|] eqn:Hex; [|done].
  assert (consistent s1) as Hs1 by (by eapply exec_consistent).
  simpl in Hex. injection Hex as <- <-.
  eexists. destruct (run_total ops _ Hs1 Hscope) as [[rets s2] Hrun].
  exists rets, s2. split; [done|]. split; [done|]. split; [done|].
  split; [done|].
  assert (loggers_default_level_ (env_of (sys_world s2)) = L) as HL.
  { by rewrite (run_keeps_default _ _ _ _ Hk Hrun). }
  split; [done|]. split.
  - intros h c Hh Hc Habs.
    destruct (run_consistent _ _ _ _ Hs1 Hrun) as [Hreg2 _].
    exists (next_loc (sys_world s2)),
      {| name_ := name c; sinks_ := [master_sink]; level_ := L |}.
    eexists. split; [|split; [|split; [|split]]].
    + simpl. rewrite Hh. simpl.
      rewrite operator_unresolved, find_or_make_absent by done. done.
    + intros n. by apply registry_ok_fresh.
    + simpl. apply lookup_insert_eq.
    + simpl. rewrite HL. apply lookup_insert_eq.
    + done.
  - intros Hne n l Hn.
    rewrite (run_objects _ _ _ _ l Hne Hrun); [done|].
    destruct Hs as [(Hnn & _) _]. destruct (Hnn _ _ Hn) as (? & [= <-] & Hlt).
    done.
Qed.

Lemma initial_consistent (u : U) : consistent (initial_system u).
Proof.
  split; [|constructor]. repeat split; simpl.
  - intros n p. by rewrite lookup_empty.
  - intros n1 n2 l. by rewrite lookup_empty.
Qed.

End Programs.

(** Every state a program reaches from the initial one is consistent; in
    particular its registry holds no empty pointer. *)
Lemma reachable_consistent {U} (u : U) (ops : list (op U)) rets s' :
  run ops (initial_system u) = Some (rets, s') →
  consistent s' ∧ no_empty_pointer (loggers_ (sys_world s')).
Proof.
  intros Hrun.
  assert (consistent s') as Hs
    by (eapply run_consistent; [apply initial_consistent | done]).
  split; [done|]. apply registry_ok_no_empty, Hs.
Qed.

(** The scenario, run: both handles of ["net"] get the logger at address 0,
    the handle of ["disk"] a second logger, and in the end both loggers are
    at [warn]. *)
Example scenario_runs :
  run scenario (initial_system ())
  = Some ([ RHandle 0; RPtr (Some 0); RHandle 1; RPtr (Some 0); RDone;
            RHandle 2; RPtr (Some 1); RPtr (Some 0) ],
          {| sys_world :=
               {| loggers_ := {[ "net" := Some 0; "disk" := Some 1 ]};
                  next_loc := 2;
                  env_of :=
                    {| loggers_default_level_ := warn;
                       objects :=
                         {[ 0 := {| name_ := "net"; sinks_ := [master_sink];
                                    level_ := warn |};
                            1 := {| name_ := "disk"; sinks_ := [master_sink];
                                    level_ := warn |} ]};
                       master_sink_sinks := [];
                       user := () |} |};
             sys_handles :=
               [ {| have_logger := true; logger := Some 0; name := "net" |};
                 {| have_logger := true; logger := Some 0; name := "net" |};
                 {| have_logger := true; logger := Some 1; name := "disk" |} ] |}).
Proof. vm_compute. reflexivity. Qed.

Lemma C1_one_logger_per_name_witness :
  consistent (initial_system ())
  ∧ well_scoped (@net_twice unit) 0 = true
  ∧ ∃ rets s',
      run net_twice (initial_system ()) = Some (rets, s')
      ∧ next_loc (sys_world s') = size (loggers_ (sys_world s')).
Proof.
  split; [apply initial_consistent|]. split; [reflexivity|].
  destruct (C1_one_logger_per_name net_twice (initial_system ())
              (initial_consistent ()) eq_refl)
    as (rets & s' & Hrun & _ & Hcount & _).
  exists rets, s'. split; [exact Hrun | exact Hcount].
Defined.

Lemma C4_resolved_handle_is_fixed_witness :
  sys_handles (net_resolved ()) !! 0
  = Some {| have_logger := true; logger := Some 0; name := "net" |}
  ∧ ∀ w : world unit,
      operator_logger_ptr
        {| have_logger := true; logger := Some 0; name := "net" |} w
      = (Some 0, {| have_logger := true; logger := Some 0; name := "net" |}, w).
Proof.
  split; [reflexivity|].
  exact (proj1 (proj2 (proj2
    (C4_resolved_handle_is_fixed [OpAccess 0; OpCat "net"; OpAccess 0]
       (net_resolved ()) 0 _ eq_refl eq_refl)))).
Defined.

Lemma C9_registry_only_grows_witness :
  loggers_ (sys_world (net_resolved ())) !! "net" = Some (Some 0)
  ∧ ∃ rets s',
      run net_twice (net_resolved ()) = Some (rets, s')
      ∧ loggers_ (sys_world s') !! "net" = Some (Some 0).
Proof.
  assert (loggers_ (sys_world (net_resolved ())) !! "net" = Some (Some 0))
    as Hnet by (vm_compute; reflexivity).
  split; [exact Hnet|].
  destruct (run net_twice (net_resolved ())) as [[rets s']|] eqn:Hrun;
    [|vm_compute in Hrun; discriminate Hrun].
  exists rets, s'. split; [reflexivity|].
  exact (proj1 (proj1 (C9_registry_only_grows net_twice (net_resolved ()))
                  rets s' Hrun) "net" 0 Hnet).
Defined.

Lemma C10_default_level_round_trip_witness :
  Forall keeps_default [@OpCat unit "disk"; OpAccess 0]
  ∧ ∃ rets s',
      run [OpSetDefault warn; OpCat "disk"; OpAccess 0] (initial_system ())
      = Some (rets, s')
      ∧ exec OpGetDefault s' = Some (RLevel warn, s').
Proof.
  assert (Forall keeps_default [@OpCat unit "disk"; OpAccess 0]) as Hk.
  { repeat constructor. }
  split; [exact Hk|].
  destruct (run [OpSetDefault warn; OpCat "disk"; OpAccess 0]
              (initial_system ())) as [[rets s']|] eqn:Hrun;
    [|vm_compute in Hrun; discriminate Hrun].
  exists rets, s'. split; [reflexivity|].
  exact (proj2 (proj2 (C10_default_level_round_trip warn
                         (env_of (initial_world ())) ()
                         [OpCat "disk"; OpAccess 0] (initial_system ())))
           Hk rets s' Hrun).
Defined.

Lemma C5_default_level_is_for_new_loggers_witness :
  consistent (initial_system ())
  ∧ Forall keeps_default [@OpCat unit "disk"; OpGetDefault]
  ∧ ∃ s1 rets s2,
      exec (OpSetDefault warn) (initial_system ()) = Some (RDone, s1)
      ∧ run [OpCat "disk"; OpGetDefault] s1 = Some (rets, s2)
      ∧ loggers_default_level_ (env_of (sys_world s2)) = warn.
Proof.
  assert (Forall keeps_default [@OpCat unit "disk"; OpGetDefault]) as Hk.
  { repeat constructor. }
  split; [apply initial_consistent|]. split; [exact Hk|].
  destruct (C5_default_level_is_for_new_loggers warn
              [OpCat "disk"; OpGetDefault] (initial_system ())
              (initial_consistent ()) Hk eq_refl)
    as (s1 & rets & s2 & Hex & _ & _ & Hrun & HL & _).
  exists s1, rets, s2. split; [exact Hex|]. split; [exact Hrun | exact HL].
Defined.

(** ** Threads resolving handles of one name *)
Import Threads.

Section ThreadFacts.
Context {U : Type}.
Variables (n : string) (w0 : world U).
Hypothesis slot_not_empty : loggers_ w0 !! n ≠ Some None.

Local Abbreviation pN := (slot (settled n w0) n).

Lemma settled_absent : loggers_ w0 !! n = None → settled n w0 = created n w0.
Proof. intros Habs. unfold settled. by rewrite find_or_make_absent. Qed.

Lemma settled_present l : loggers_ w0 !! n = Some (Some l) → settled n w0 = w0.
Proof.
  intros Hl. unfold settled. by rewrite (find_or_make_present (Cat n) w0 l).
Qed.

Lemma settled_registered :
  ∃ l, loggers_ (settled n w0) !! n = Some (Some l).
Proof using slot_not_empty.
  destruct (loggers_ w0 !! n) as [[l|]|] eqn:Hl; [|done|].
  - exists l. by rewrite (settled_present l).
  - exists (next_loc w0). rewrite settled_absent by done. apply lookup_insert_eq.
Qed.

Lemma slot_with_slot : slot (with_slot n w0) n = None.
Proof. unfold slot, with_slot. simpl. by rewrite lookup_insert_eq. Qed.

Lemma slot_with_raw_logger : slot (with_raw_logger n w0) n = Some (next_loc w0).
Proof. unfold slot, with_raw_logger. simpl. by rewrite lookup_insert_eq. Qed.

Lemma make_after_slot :
  {| loggers_ := <[n := Some (next_loc (with_slot n w0))]> (loggers_ (with_slot n w0));
     next_loc := S (next_loc (with_slot n w0));
     env_of := with_objects
       (<[next_loc (with_slot n w0) := new_logger n master_sink]>
          (objects (env_of (with_slot n w0))))
       (env_of (with_slot n w0)) |}
  = with_raw_logger n w0.
Proof. unfold with_raw_logger, with_slot. simpl. by rewrite insert_insert_eq. Qed.

Lemma set_level_after_make :
  loggers_ w0 !! n = None →
  with_env
    (with_objects
       (alter (set_level (loggers_default_level_ (env_of (with_raw_logger n w0))))
              (next_loc w0) (objects (env_of (with_raw_logger n w0))))
       (env_of (with_raw_logger n w0)))
    (with_raw_logger n w0)
  = settled n w0.
Proof.
  intros Habs. rewrite settled_absent by done.
  unfold with_env, with_objects, with_raw_logger, created. simpl.
  by rewrite alter_insert_eq.
Qed.

Lemma subscript_settled :
  {| loggers_ := (subscript (loggers_ (settled n w0)) n).1;
     next_loc := next_loc (settled n w0);
     env_of := env_of (settled n w0) |}
  = settled n w0.
Proof using slot_not_empty.
  destruct settled_registered as [l Hl]. unfold subscript. rewrite Hl. simpl.
  apply world_eta.
Qed.

Lemma subscript_untouched :
  loggers_ w0 !! n = None →
  {| loggers_ := (subscript (loggers_ w0) n).1;
     next_loc := next_loc w0;
     env_of := env_of w0 |}
  = with_slot n w0.
Proof. intros Habs. unfold subscript. by rewrite Habs. Qed.

(** *** The invariant is kept by every statement *)

Lemma others_lock ph i j tj :
  j ≠ i → thread_inv n pN ph None j tj → thread_inv n pN ph (Some i) j tj.
Proof.
  intros Hne (? & Hcrit & ?). split; [done|]. split; [|done].
  split; [intros Hc; by apply Hcrit in Hc | intros [= ->]; done].
Qed.

Lemma others_unlock ph i j tj :
  j ≠ i → thread_inv n pN ph (Some i) j tj → thread_inv n pN ph None j tj.
Proof.
  intros Hne (? & Hcrit & ?). split; [done|]. split; [|done].
  split; [|done]. intros Hc. apply Hcrit in Hc. by injection Hc as ->.
Qed.

Lemma others_phase ph ph' i j tj :
  j ≠ i → ph ≠ Settled →
  thread_inv n pN ph (Some i) j tj → thread_inv n pN ph' (Some i) j tj.
Proof.
  intros Hne Hph (Hname & Hcrit & Hpc & Hunres & _).
  specialize (Hunres Hph).
  assert (in_critical (t_pc tj) = false) as Hnc.
  { apply not_true_is_false. intros E. apply Hcrit in E. by injection E as ->. }
  destruct tj as [p c]. simpl in *.
  unfold thread_inv. simpl. split_and!.
  - done.
  - rewrite Hnc. split; [done|]. by intros [= ->].
  - destruct ph, p, ph'; simpl in *; done.
  - done.
  - congruence.
  - intros ->. by destruct ph.
  - intros [-> | ->]; by destruct ph.
  - intros p1 ->. by destruct ph.
Qed.

Lemma inv_goto ph ph' s i t p' c' w' mu' :
  c_threads s !! i = Some t →
  w' = world_at ph' n w0 →
  (ph' ≠ Settled → loggers_ w0 !! n = None) →
  (ph' = SlotInserted ∨ ph' = LoggerMade → is_Some mu') →
  (∀ k, mu' = Some k → k < length (c_threads s)) →
  thread_inv n pN ph' mu' i {| t_pc := p'; t_handle := c' |} →
  (∀ j tj, c_threads s !! j = Some tj →
           thread_inv n pN ph (loggers_mutex_ s) j tj) →
  (∀ j tj, j ≠ i → thread_inv n pN ph (loggers_mutex_ s) j tj →
           thread_inv n pN ph' mu' j tj) →
  inv n w0 (goto i p' c' w' mu' s).
Proof.
  intros Hi -> Habs Hheld Hmu Hnew Hall Hothers. exists ph'. simpl.
  split; [done|]. split; [done|]. split; [done|]. split.
  - intros k Hk. rewrite length_insert. by apply Hmu.
  - intros j tj. destruct (decide (i = j)) as [<-|Hne].
    + rewrite list_lookup_insert_eq by (by eapply lookup_lt_Some).
      by intros [= <-].
    + rewrite list_lookup_insert_ne by done. intros Hj.
      apply Hothers; [done|]. by apply Hall.
Qed.

Ltac thread_inv_auto :=
  unfold thread_inv; simpl; split_and!;
  try done;
  try (intros; simplify_eq/=; by auto);
  try (intros; congruence);
  try (intros [?|?]; congruence).

Lemma step_inv i s s' : inv n w0 s → tstep i s = Some s' → inv n w0 s'.
Proof using slot_not_empty.
  intros (ph & Hw & Habs & Hheld & Hmu & Hall) Hstep.
  unfold tstep in Hstep.
  destruct (c_threads s !! i) as [[p c]|] eqn:Hi; simpl in Hstep; [|done].
  destruct (Hall _ _ Hi)
    as (Hname & Hcrit & Hpc & Hunres & Hres & Hflag & Hul & Hdone).
  simpl in *.
  assert (i < length (c_threads s)) as Hlt by (by eapply lookup_lt_Some).
  destruct settled_registered as [lN HlN].
  assert (pN = Some lN) as HpN by (unfold slot; by rewrite HlN).
  rewrite Hw, Hname in Hstep.
  destruct p; simpl in Hcrit, Hpc.
  - (* AtEntry *)
    injection Hstep as <-. apply (inv_goto ph ph _ _ _ _ _ _ _ Hi); try done;
      try (by intros [?|?]).
    destruct (have_logger c) eqn:Hh; simpl.
    + destruct ph; try (by specialize (Hunres ltac:(done))). thread_inv_auto.
    + thread_inv_auto; by destruct ph.
  - (* AtLock *)
    destruct (loggers_mutex_ s) as [k|] eqn:Hk; [done|].
    injection Hstep as <-.
    assert (ph = Untouched ∨ ph = Settled) as Hph.
    { destruct ph; auto; by destruct Hheld as [? ?]; auto. }
    apply (inv_goto ph ph _ _ _ _ _ _ _ Hi); try done;
      try (by intros [?|?]).
    + by intros k [= <-].
    + thread_inv_auto; by destruct Hph as [-> | ->].
    + by rewrite Hk.
    + intros j tj Hne. rewrite Hk. by apply others_lock.
  - (* AtRecheck *)
    injection Hstep as <-. apply (inv_goto ph ph _ _ _ _ _ _ _ Hi); try done;
      try (by intros [?|?]).
    destruct (have_logger c) eqn:Hh; simpl.
    + destruct ph; try (by specialize (Hunres ltac:(done))). thread_inv_auto.
    + thread_inv_auto; by destruct ph.
  - (* AtSubscript *)
    injection Hstep as <-. destruct ph; try done.
    + simpl. rewrite subscript_untouched by (by apply Habs).
      apply (inv_goto Untouched SlotInserted _ _ _ _ _ _ _ Hi); try done;
      try (by intros [?|?]).
      * intros _. by apply Habs.
      * intros _. rewrite (proj1 Hcrit eq_refl). by eexists.
      * thread_inv_auto.
      * intros j tj Hne. rewrite (proj1 Hcrit eq_refl). by apply others_phase.
    + simpl. rewrite subscript_settled.
      apply (inv_goto Settled Settled _ _ _ _ _ _ _ Hi); try done;
      try (by intros [?|?]).
      thread_inv_auto.
  - (* AtTest *)
    destruct ph; try done; simpl in Hstep.
    + rewrite slot_with_slot in Hstep. injection Hstep as <-.
      apply (inv_goto SlotInserted SlotInserted _ _ _ _ _ _ _ Hi); try done;
      try (by intros [?|?]).
      thread_inv_auto.
    + rewrite HpN in Hstep. injection Hstep as <-.
      apply (inv_goto Settled Settled _ _ _ _ _ _ _ Hi); try done;
      try (by intros [?|?]).
      thread_inv_auto.
  - (* AtMake *)
    destruct ph; try done. injection Hstep as <-.
    match goal with
    | |- inv _ _ (goto _ _ _ ?w _ _) =>
        replace w with (with_raw_logger n w0)
          by (symmetry; apply make_after_slot)
    end.
    apply (inv_goto SlotInserted LoggerMade _ _ _ _ _ _ _ Hi); try done;
      try (by intros [?|?]).
    + intros _. by apply Habs.
    + intros _. rewrite (proj1 Hcrit eq_refl). by eexists.
    + thread_inv_auto.
    + intros j tj Hne. rewrite (proj1 Hcrit eq_refl). by apply others_phase.
  - (* AtSetLevel *)
    destruct ph; try done; simpl in Hstep.
    rewrite slot_with_raw_logger in Hstep. simpl in Hstep.
    injection Hstep as <-.
    match goal with
    | |- inv _ _ (goto _ _ _ ?w _ _) =>
        replace w with (settled n w0)
          by (symmetry; apply set_level_after_make; by apply Habs)
    end.
    apply (inv_goto LoggerMade Settled _ _ _ _ _ _ _ Hi); try done;
      try (by intros [?|?]).
    + thread_inv_auto; rewrite Hunres by done; done.
    + intros j tj Hne. rewrite (proj1 Hcrit eq_refl). by apply others_phase.
  - (* AtAssign *)
    injection Hstep as <-. destruct ph; try done.
    apply (inv_goto Settled Settled _ _ _ _ _ _ _ Hi); try done;
      try (by intros [?|?]).
    thread_inv_auto.
  - (* AtFlag *)
    injection Hstep as <-. destruct ph; try done.
    apply (inv_goto Settled Settled _ _ _ _ _ _ _ Hi); try done;
      try (by intros [?|?]).
    thread_inv_auto.
  - (* AtUnlock *)
    injection Hstep as <-. destruct ph; try done.
    apply (inv_goto Settled Settled _ _ _ _ _ _ _ Hi); try done;
      try (by intros [?|?]).
    + thread_inv_auto.
    + intros j tj Hne. rewrite (proj1 Hcrit eq_refl). by apply others_unlock.
  - (* AtReturn *)
    injection Hstep as <-. destruct ph; try done.
    apply (inv_goto Settled Settled _ _ _ _ _ _ _ Hi); try done;
      try (by intros [?|?]).
    assert (have_logger c = true) as Hh by (apply Hul; by right).
    thread_inv_auto.
  - (* Done *)
    done.
Qed.

Lemma inv_start (cs : list CategoryLogger) :
  Forall (λ c, name c = n ∧ handle_ok w0 c) cs → inv n w0 (start w0 cs).
Proof using slot_not_empty.
  intros Hcs.
  assert (∀ i t, c_threads (start w0 cs) !! i = Some t →
            ∃ c, t = {| t_pc := AtEntry; t_handle := c |}
                 ∧ name c = n ∧ handle_ok w0 c) as Hthreads.
  { intros i t. simpl. rewrite list_lookup_fmap.
    destruct (cs !! i) as [c|] eqn:Hc; simpl; [|done]. intros [= <-].
    exists c. split; [done|]. rewrite Forall_forall in Hcs. apply Hcs.
    by eapply list_elem_of_lookup_2. }
  destruct (loggers_ w0 !! n) as [[l|]|] eqn:Hl; [|done|].
  - exists Settled. simpl. rewrite (settled_present l) by done.
    split_and!; try done; try (by intros [?|?]).
    intros i t Ht. destruct (Hthreads i t Ht) as (c & -> & Hname & Hok).
    thread_inv_auto. intros Hh. destruct (Hok Hh) as [Hreg _].
    rewrite Hname, Hl in Hreg. unfold slot. rewrite Hl. simpl. congruence.
  - exists Untouched. simpl. split_and!; try done; try (by intros [?|?]).
    intros i t Ht. destruct (Hthreads i t Ht) as (c & -> & Hname & Hok).
    assert (have_logger c = false) as Hh.
    { apply not_true_is_false. intros Hh. destruct (Hok Hh) as [Hreg _].
      rewrite Hname, Hl in Hreg. done. }
    thread_inv_auto.
Qed.

Lemma run_schedule_inv sch s : inv n w0 s → inv n w0 (run_schedule sch s).
Proof using slot_not_empty.
  revert s. induction sch as [|i sch IH]; intros s Hs; simpl; [done|].
  apply IH. destruct (tstep i s) as [s'|] eqn:Hstep; simpl; [|done].
  by eapply step_inv.
Qed.

Lemma run_schedule_app sch1 sch2 (s : cstate U) :
  run_schedule (sch1 ++ sch2) s = run_schedule sch2 (run_schedule sch1 s).
Proof. revert s. induction sch1 as [|i sch1 IH]; intros s; simpl; [done|apply IH]. Qed.

(** *** Every thread returns *)

Lemma not_all_done (s : cstate U) :
  all_done s = false →
  ∃ i t, c_threads s !! i = Some t ∧ returned t = None.
Proof.
  unfold all_done. induction (c_threads s) as [|t ts IH]; simpl; [done|].
  destruct (returned t) as [p|] eqn:Hr.
  - rewrite bool_decide_eq_true_2 by (by eexists). simpl. intros Hts.
    destruct (IH Hts) as (i & t' & Hi & Hr'). by exists (S i), t'.
  - intros _. by exists 0, t.
Qed.

Lemma inv_progress s :
  inv n w0 s → all_done s = false → ∃ i s', tstep i s = Some s'.
Proof.
  intros (ph & Hw & Habs & Hheld & Hmu & Hall) Hnd.
  destruct (loggers_mutex_ s) as [k|] eqn:Hk.
  - destruct (lookup_lt_is_Some_2 _ _ (Hmu k eq_refl)) as [[p c] Hi].
    destruct (Hall _ _ Hi) as (Hname & Hcrit & Hpc & _). simpl in *.
    exists k. unfold tstep. rewrite Hi, Hk. simpl.
    destruct p; simpl in *; try (by eexists);
      try (by destruct Hcrit as [_ Hc]; discriminate (Hc eq_refl)).
    destruct ph; try done. rewrite Hw, Hname. simpl.
    rewrite slot_with_raw_logger. simpl. by eexists.
  - destruct (not_all_done s Hnd) as (i & [p c] & Hi & Hr).
    destruct (Hall _ _ Hi) as (Hname & Hcrit & _). simpl in *.
    exists i. unfold tstep. rewrite Hi, Hk. simpl.
    destruct p; simpl in *; try done; try (by eexists);
      by destruct Hcrit as [Hc _]; discriminate (Hc eq_refl).
Qed.

Lemma sum_list_insert {A} (f : A → nat) (l : list A) i x y :
  l !! i = Some x →
  sum_list (f <$> <[i := y]> l) + f x = sum_list (f <$> l) + f y.
Proof.
  revert i. induction l as [|a l IH]; intros [|i] Hi; simplify_eq/=; [lia|].
  specialize (IH i Hi). lia.
Qed.

Lemma step_rank i (s s' : cstate U) :
  tstep i s = Some s' → total_rank s' < total_rank s.
Proof.
  unfold tstep. destruct (c_threads s !! i) as [[p c]|] eqn:Hi; simpl; [|done].
  assert (∀ p' c' w' mu',
            rank p' < rank p →
            total_rank (goto i p' c' w' mu' s) < total_rank s) as Hgoto.
  { intros p' c' w' mu' Hlt. unfold total_rank. simpl.
    pose proof (sum_list_insert (rank ∘ t_pc) (c_threads s) i _
                  {| t_pc := p'; t_handle := c' |} Hi) as Hsum.
    simpl in Hsum. lia. }
  intros Hstep.
  destruct p; simpl in Hstep; repeat case_match; simplify_option_eq;
    try done; apply Hgoto; simpl; lia.
Qed.

Lemma eventually_all_done s :
  inv n w0 s → ∃ sch, all_done (run_schedule sch s) = true.
Proof using slot_not_empty.
  remember (total_rank s) as k eqn:Hk. revert s Hk.
  induction k as [k IH] using lt_wf_ind. intros s -> Hs.
  destruct (all_done s) eqn:Hd; [by exists []|].
  destruct (inv_progress s Hs Hd) as (i & s' & Hstep).
  destruct (IH (total_rank s') (step_rank _ _ _ Hstep) s' eq_refl) as [sch Hsch].
  { by eapply step_inv. }
  exists (i :: sch). simpl. by rewrite Hstep.
Qed.

(** *** Outside the critical section *)

Lemma tstep_outside i (s s' : cstate U) t :
  tstep i s = Some s' → c_threads s !! i = Some t →
  in_critical (t_pc t) = false →
  c_world s' = c_world s.
Proof.
  unfold tstep. intros Hstep Hi Hnc. rewrite Hi in Hstep. simpl in Hstep.
  destruct (t_pc t); simpl in *; repeat case_match; by simplify_option_eq.
Qed.

Lemma tstep_others i j (s s' : cstate U) :
  tstep i s = Some s' → j ≠ i → c_threads s' !! j = c_threads s !! j.
Proof.
  unfold tstep. destruct (c_threads s !! i) as [[p c]|] eqn:Hi; simpl; [|done].
  intros Hstep Hne.
  destruct p; simpl in Hstep; repeat case_match; simplify_option_eq;
    try done; simpl; by rewrite list_lookup_insert_ne.
Qed.

(** *** The accesses of the statements *)

Lemma pc_of_goto i p c w mu (s : cstate U) t :
  c_threads s !! i = Some t → pc_of i (goto i p c w mu s) = Some p.
Proof.
  intros Hi. unfold pc_of, goto. simpl.
  by rewrite list_lookup_insert_eq by (by eapply lookup_lt_Some).
Qed.

Lemma tstep_guard_scoped i (s s' : cstate U) :
  tstep i s = Some s' → guard_scoped i s s'.
Proof.
  unfold tstep, guard_scoped, pc_of.
  destruct (c_threads s !! i) as [[p c]|] eqn:Hi; simpl; [|done].
  intros Hstep p0 p' [= <-].
  destruct p; simpl in Hstep; repeat case_match; simplify_option_eq;
    rewrite list_lookup_insert_eq by (by eapply lookup_lt_Some);
    intros [= <-]; done.
Qed.

Lemma content_of_goto x i p c w mu (s : cstate U) t :
  c_threads s !! i = Some t →
  content_of x (goto i p c w mu s)
  = match x with
    | Registry => InRegistry (loggers_ w)
    | DefaultLevel => InDefaultLevel (loggers_default_level_ (env_of w))
    | Heap => InHeap (next_loc w) (objects (env_of w))
    | Elsewhere => InElsewhere (master_sink_sinks (env_of w)) (user (env_of w))
    | Mutex => InMutex mu
    | HaveLogger j =>
        if decide (j = i) then InHaveLogger (Some (have_logger c))
        else content_of x s
    | LoggerMember j =>
        if decide (j = i) then InLoggerMember (Some (logger c))
        else content_of x s
    | NameMember j =>
        if decide (j = i) then InNameMember (Some (name c))
        else content_of x s
    end.
Proof.
  intros Hi. assert (i < length (c_threads s)) by (by eapply lookup_lt_Some).
  destruct x as [| | | | |j|j|j]; try done;
    unfold content_of, goto; cbn [c_threads];
    (destruct (decide (j = i)) as [->|Hne];
     [by rewrite list_lookup_insert_eq by done
     |by rewrite list_lookup_insert_ne by done]).
Qed.

Lemma written_spec i p x :
  x ∈ written i p ↔ ∃ a, a ∈ footprint i p ∧ a_mode a = Writing ∧ a_loc a = x.
Proof.
  unfold written. rewrite list_elem_of_fmap. split.
  - intros (a & -> & Ha). apply list_elem_of_filter in Ha as [Hm Ha]. by exists a.
  - intros (a & Ha & Hm & <-). exists a. split; [done|].
    by apply list_elem_of_filter.
Qed.

Lemma tstep_confined i (s s' : cstate U) :
  tstep i s = Some s' → confined i s s'.
Proof.
  intros Hstep. split; [|intros j Hne; by eapply tstep_others].
  revert Hstep. unfold tstep, pc_of.
  destruct (c_threads s !! i) as [[p c]|] eqn:Hi; simpl; [|done].
  intros Hstep p0 x [= <-] Hx.
  assert (∀ a, a ∈ footprint i p → a_mode a = Writing → a_loc a ≠ x) as Hw.
  { intros a Ha Hm <-. apply Hx, written_spec. by exists a. }
  clear Hx.
  destruct p; simpl in Hstep; repeat case_match; simplify_option_eq;
    rewrite (content_of_goto _ _ _ _ _ _ _ _ Hi);
    (destruct x as [| | | | |j|j|j];
     [..|destruct (decide (j = i)) as [->|]; [|done]
        |destruct (decide (j = i)) as [->|]; [|done]
        |destruct (decide (j = i)) as [->|]; [|done]]);
    try done.
  all: try (by unfold content_of; rewrite Hi).
  all: match goal with
       | |- _ = content_of ?x _ =>
           exfalso;
           first [ by apply (Hw (Access x Writing false)); [repeat constructor|..]
                 | by apply (Hw (Access x Writing true)); [repeat constructor|..] ]
       end.
Qed.

Lemma tstep_determined i (s1 s2 : cstate U) : determined i s1 s2.
Proof.
  intros p Hp1 Hp2 Hag. unfold pc_of in Hp1, Hp2.
  destruct (c_threads s1 !! i) as [[p1 c1]|] eqn:H1; [|done].
  destruct (c_threads s2 !! i) as [[p2 c2]|] eqn:H2; [|done].
  simpl in Hp1, Hp2. injection Hp1 as ->. injection Hp2 as ->.
  assert (HaveLogger i ∈ touched i p → have_logger c1 = have_logger c2) as Eh.
  { intros Hx. specialize (Hag _ Hx). unfold content_of in Hag.
    rewrite H1, H2 in Hag. simpl in Hag. congruence. }
  assert (LoggerMember i ∈ touched i p → logger c1 = logger c2) as El.
  { intros Hx. specialize (Hag _ Hx). unfold content_of in Hag.
    rewrite H1, H2 in Hag. simpl in Hag. congruence. }
  assert (NameMember i ∈ touched i p → name c1 = name c2) as En.
  { intros Hx. specialize (Hag _ Hx). unfold content_of in Hag.
    rewrite H1, H2 in Hag. simpl in Hag. congruence. }
  assert (Registry ∈ touched i p → loggers_ (c_world s1) = loggers_ (c_world s2))
    as Er.
  { intros Hx. specialize (Hag _ Hx). simpl in Hag. congruence. }
  assert (DefaultLevel ∈ touched i p →
          loggers_default_level_ (env_of (c_world s1))
          = loggers_default_level_ (env_of (c_world s2))) as Ed.
  { intros Hx. specialize (Hag _ Hx). simpl in Hag. congruence. }
  assert (Heap ∈ touched i p →
          next_loc (c_world s1) = next_loc (c_world s2)
          ∧ objects (env_of (c_world s1)) = objects (env_of (c_world s2))) as Eo.
  { intros Hx. specialize (Hag _ Hx). simpl in Hag. split; congruence. }
  assert (Mutex ∈ touched i p → loggers_mutex_ s1 = loggers_mutex_ s2) as Em.
  { intros Hx. specialize (Hag _ Hx). simpl in Hag. congruence. }
  clear Hag. unfold tstep. rewrite H1, H2. cbn [mbind option_bind t_pc t_handle].
  destruct p; unfold touched in *;
    cbn [footprint fmap list_fmap a_loc] in *.
  all: repeat match goal with
       | E : _ ∈ _ → _ |- _ =>
           first [ specialize (E ltac:(repeat constructor)) | clear E ]
       end.
  all: try destruct Eo as [Eo1 Eo2].
  all: unfold slot; rewrite ?Eh, ?El, ?En, ?Er, ?Ed, ?Eo1, ?Eo2, ?Em.
  all: try match goal with
       | |- context [default None ?o ≫= _] => destruct (default None o); simpl
       end.
  all: try (destruct (loggers_mutex_ s2) eqn:Hmu2; [done|]).
  all: repeat case_match; try done.
  all: (split;
        [by rewrite (pc_of_goto _ _ _ _ _ _ _ H1), (pc_of_goto _ _ _ _ _ _ _ H2)|]).
  all: intros x Hx;
       rewrite (content_of_goto _ _ _ _ _ _ _ _ H1),
               (content_of_goto _ _ _ _ _ _ _ _ H2).
  all: repeat (apply elem_of_cons in Hx as [-> | Hx]);
       try (by apply elem_of_nil in Hx).
  all: rewrite ?decide_True by done; simpl; congruence.
Qed.

Lemma footprint_kinds i p a :
  a ∈ footprint i p →
  (a_loc a = Mutex ∧ a_atomic a = true)
  ∨ a_loc a ∈ [HaveLogger i; LoggerMember i; NameMember i]
  ∨ (in_critical p = true ∧ a_loc a ∈ [Registry; DefaultLevel; Heap]).
Proof.
  destruct p; simpl; intros Ha;
    repeat (apply elem_of_cons in Ha as [-> | Ha]);
    try (by apply elem_of_nil in Ha); simpl;
    first [ by left
          | by right; left; repeat constructor
          | by right; right; split; [|repeat constructor] ].
Qed.

(** Mutual exclusion is all that race freedom takes: the accesses made
    outside the guarded region are to the thread's own handle or, atomically,
    to the mutex. *)
Lemma exclusion_race_free (s : cstate U) :
  (∀ i t, c_threads s !! i = Some t → in_critical (t_pc t) = true →
          loggers_mutex_ s = Some i) →
  race_free s.
Proof.
  intros Hex i j ti tj a b Hne Hi Hj Ha Hb.
  apply not_true_is_false. unfold conflict.
  rewrite !andb_true_iff, !bool_decide_eq_true, negb_true_iff, andb_false_iff.
  intros [[Hloc _] Hat].
  destruct (footprint_kinds _ _ _ Ha) as [[La Aa]|[La|[Ca La]]];
    destruct (footprint_kinds _ _ _ Hb) as [[Lb Ab]|[Lb|[Cb Lb]]];
    repeat (apply elem_of_cons in La as [La | La]);
    repeat (apply elem_of_cons in Lb as [Lb | Lb]);
    try (by apply elem_of_nil in La); try (by apply elem_of_nil in Lb);
    try congruence.
  all: first [ destruct Hat; congruence
             | pose proof (Hex _ _ Hi Ca); pose proof (Hex _ _ Hj Cb);
               congruence ].
Qed.

(** C8: two threads convert two handles of the name [n], under any schedule.
    At every moment a thread between the construction and the destruction of
    the lock guard owns the mutex (so at most one thread is there), and a
    statement of a thread that does not own the mutex leaves the world and
    the other thread alone.  Once both have returned, they have returned the
    same pointer to a logger, the one registered under [n], and the world is
    the one a single resolution run on its own produces: with one new logger
    if [n] was missing, unchanged if it was registered.  Every schedule can be
    continued so that both return.

    There is no data race: at no moment are the two threads about to execute
    statements with conflicting accesses, where the accesses of a statement
    are those of [footprint].  That [footprint] lists what the statements of
    [tstep] do access holds in every state, reached or not: a statement
    changes no location but those its footprint writes, its outcome depends
    on no location but those of its footprint, and the mutex changes hands
    only where the guard is constructed and destroyed, on the early return of
    line 18 as at the end of the function.  So no statement executed without
    the mutex reads or writes the registry, the default level or a logger.

    The fast path is the test of the atomic flag and the return of the
    handle's own pointer: a thread that finds its handle resolved returns in
    these two statements, whoever owns the mutex, with the pointer registered
    under [n], and leaves the world and the mutex as they are. *)
Theorem C8_concurrent_resolution_converges (c1 c2 : CategoryLogger)
    (sch : list nat) :
  name c1 = n → name c2 = n → handle_ok w0 c1 → handle_ok w0 c2 →
  let s := run_schedule sch (start w0 [c1; c2]) in
  (∀ i t, c_threads s !! i = Some t → in_critical (t_pc t) = true →
          loggers_mutex_ s = Some i)
  ∧ (∀ i s', tstep i s = Some s' → loggers_mutex_ s ≠ Some i →
             c_world s' = c_world s
             ∧ ∀ j, j ≠ i → c_threads s' !! j = c_threads s !! j)
  ∧ (∀ t1 t2 p1 p2,
       c_threads s = [t1; t2] → returned t1 = Some p1 → returned t2 = Some p2 →
       ∃ l, p1 = Some l ∧ p2 = Some l
            ∧ logger (t_handle t1) = Some l ∧ logger (t_handle t2) = Some l
            ∧ loggers_ (c_world s) !! n = Some (Some l)
            ∧ loggers_mutex_ s = None
            ∧ c_world s = settled n w0
            ∧ (loggers_ w0 !! n = None → c_world s = created n w0)
            ∧ (is_Some (loggers_ w0 !! n) → c_world s = w0))
  ∧ (∃ more, all_done (run_schedule (sch ++ more) (start w0 [c1; c2])) = true)
  ∧ race_free s
  ∧ (∀ i (s1 s1' : cstate U),
       tstep i s1 = Some s1' → confined i s1 s1' ∧ guard_scoped i s1 s1')
  ∧ (∀ i (s1 s2 : cstate U), determined i s1 s2)
  ∧ (∀ i, fast_path i = [ {| a_loc := HaveLogger i; a_mode := Reading;
                             a_atomic := true |};
                          {| a_loc := LoggerMember i; a_mode := Reading;
                             a_atomic := false |} ])
  ∧ (∀ i t, c_threads s !! i = Some t →
            t_pc t = AtEntry → have_logger (t_handle t) = true →
            ∃ l s1 s2,
              tstep i s = Some s1 ∧ pc_of i s1 = Some AtReturn
              ∧ tstep i s1 = Some s2 ∧ pc_of i s2 = Some (Done (Some l))
              ∧ loggers_ (c_world s) !! n = Some (Some l)
              ∧ c_world s2 = c_world s
              ∧ loggers_mutex_ s2 = loggers_mutex_ s
              ∧ ∀ j, j ≠ i → c_threads s2 !! j = c_threads s !! j).
Proof using slot_not_empty.
  intros Hn1 Hn2 Hok1 Hok2 s.
  assert (inv n w0 s) as Hs.
  { apply run_schedule_inv, inv_start.
    constructor; [done|]. constructor; [done|]. constructor. }
  assert (∀ i t, c_threads s !! i = Some t → in_critical (t_pc t) = true →
                 loggers_mutex_ s = Some i) as Hex.
  { intros i t Hi Hc. destruct Hs as (ph & _ & _ & _ & _ & Hall).
    destruct (Hall _ _ Hi) as (_ & Hcrit & _). by apply Hcrit. }
  split_and!.
  - exact Hex.
  - intros i s' Hstep Hmu. split; [|intros j Hne; by eapply tstep_others].
    destruct (c_threads s !! i) as [t|] eqn:Hi.
    + eapply tstep_outside; [done..|].
      apply not_true_is_false. intros Hc.
      destruct Hs as (ph & _ & _ & _ & _ & Hall).
      destruct (Hall _ _ Hi) as (_ & Hcrit & _). by apply Hcrit in Hc.
    + unfold tstep in Hstep. by rewrite Hi in Hstep.
  - intros [pc1 h1] [pc2 h2] p1 p2 Hts Hr1 Hr2.
    destruct Hs as (ph & Hw & _ & _ & Hmu & Hall).
    destruct settled_registered as [l Hl].
    assert (slot (settled n w0) n = Some l) as HpN by (unfold slot; by rewrite Hl).
    pose proof (Hall 0 _ ltac:(by rewrite Hts)) as (_ & Hcrit1 & Hpc1 & _ & Hres1 & _ & _ & Hd1).
    pose proof (Hall 1 _ ltac:(by rewrite Hts)) as (_ & Hcrit2 & Hpc2 & _ & Hres2 & _ & _ & Hd2).
    unfold returned in Hr1, Hr2. simpl in *.
    destruct pc1; try done. destruct pc2; try done.
    injection Hr1 as ->. injection Hr2 as ->.
    destruct (Hd1 _ eq_refl) as [-> Hh1]. destruct (Hd2 _ eq_refl) as [Hp2 Hh2].
    destruct ph; try done. simpl in Hw.
    exists l. rewrite Hw. split_and!; try done.
    + congruence.
    + by rewrite (Hres1 Hh1).
    + by rewrite (Hres2 Hh2).
    + destruct (loggers_mutex_ s) as [k|] eqn:Hk; [|done].
      destruct k as [|[|k]].
      * destruct Hcrit1 as [_ Hc]. discriminate (Hc eq_refl).
      * destruct Hcrit2 as [_ Hc]. discriminate (Hc eq_refl).
      * specialize (Hmu _ eq_refl). rewrite Hts in Hmu. simpl in Hmu. lia.
    + apply settled_absent.
    + intros [[l'|] Hl']; [|done]. by apply (settled_present l').
  - destruct (eventually_all_done s Hs) as [more Hmore].
    exists more. by rewrite run_schedule_app.
  - by apply exclusion_race_free.
  - intros i s1 s1' Hstep.
    split; [by apply tstep_confined | by apply tstep_guard_scoped].
  - apply tstep_determined.
  - done.
  - intros i [p c] Hi Hp Hh. simpl in Hp, Hh. subst p.
    destruct Hs as (ph & Hw & _ & _ & _ & Hall).
    destruct (Hall _ _ Hi) as (_ & _ & _ & Hunres & Hres & _). simpl in *.
    destruct settled_registered as [l Hl].
    assert (ph = Settled) as ->.
    { destruct ph; try done; by rewrite Hunres in Hh. }
    assert (logger c = Some l) as Hlc.
    { rewrite (Hres Hh). unfold slot. by rewrite Hl. }
    assert (i < length (c_threads s)) as Hlt by (by eapply lookup_lt_Some).
    set (s1 := goto i AtReturn c (c_world s) (loggers_mutex_ s) s).
    assert (c_threads s1 !! i = Some {| t_pc := AtReturn; t_handle := c |}) as Hi1.
    { unfold s1, goto. simpl. by rewrite list_lookup_insert_eq. }
    exists l, s1, (goto i (Done (logger c)) c (c_world s1) (loggers_mutex_ s1) s1).
    split_and!.
    + unfold tstep. rewrite Hi. simpl. by rewrite Hh.
    + by apply (pc_of_goto _ _ _ _ _ _ _ Hi).
    + unfold tstep. by rewrite Hi1.
    + rewrite <- Hlc. by apply (pc_of_goto _ _ _ _ _ _ _ Hi1).
    + rewrite Hw. exact Hl.
    + done.
    + done.
    + intros j Hne. unfold s1, goto. simpl.
      by rewrite !list_lookup_insert_ne by done.
Qed.

End ThreadFacts.

(** A schedule in which thread 1 finds the mutex taken and waits while thread
    0 creates the logger: both return the one logger, at address 0. *)
Example two_threads_run :
  let s := run_schedule [0; 0; 1; 1; 1; 0; 0; 0; 0; 0; 0; 0; 1; 0; 0;
                         1; 1; 1; 1; 1; 1; 1; 1]
             (start (initial_world ()) [Cat "net"; Cat "net"]) in
  returned <$> c_threads s = [Some (Some 0); Some (Some 0)]
  ∧ loggers_mutex_ s = None
  ∧ c_world s = settled "net" (initial_world ())
  ∧ next_loc (c_world s) = 1.
Proof. vm_compute. done. Qed.

(** Two threads about to run [loggers_[name]] at once, which no schedule
    allows, would race on the registry. *)
Example two_in_the_region_race :
  ¬ race_free
      {| c_world := initial_world ();
         loggers_mutex_ := Some 0;
         c_threads := [ {| t_pc := AtSubscript; t_handle := Cat "net" |};
                        {| t_pc := AtSubscript; t_handle := Cat "net" |} ] |}.
Proof.
  intros Hfree.
  assert (conflict {| a_loc := Registry; a_mode := Writing; a_atomic := false |}
                   {| a_loc := Registry; a_mode := Writing; a_atomic := false |}
          = false) as Hc.
  { apply (Hfree 0 1 _ _ _ _ ltac:(done) eq_refl eq_refl);
      simpl; repeat constructor. }
  discriminate Hc.
Qed.

(** The handle of thread 0 is already resolved, and thread 1 has taken the
    mutex to resolve its own: thread 0 returns on the fast path
    nevertheless. *)
Lemma C8_concurrent_resolution_converges_witness :
  let w := settled "net" (initial_world ()) in
  let c1 := {| have_logger := true; logger := Some 0; name := "net" |} in
  let s := run_schedule [1; 1] (start w [c1; Cat "net"]) in
  loggers_ w !! "net" ≠ Some None
  ∧ handle_ok w c1 ∧ handle_ok w (Cat "net")
  ∧ loggers_mutex_ s = Some 1
  ∧ race_free s
  ∧ (∃ more, all_done (run_schedule ([1; 1] ++ more) (start w [c1; Cat "net"]))
             = true)
  ∧ ∃ l s1 s2,
      tstep 0 s = Some s1 ∧ pc_of 0 s1 = Some AtReturn
      ∧ tstep 0 s1 = Some s2 ∧ pc_of 0 s2 = Some (Done (Some l))
      ∧ loggers_ (c_world s) !! "net" = Some (Some l)
      ∧ c_world s2 = c_world s
      ∧ loggers_mutex_ s2 = loggers_mutex_ s
      ∧ ∀ j, j ≠ 0 → c_threads s2 !! j = c_threads s !! j.
Proof.
  intros w c1 s.
  assert (loggers_ w !! "net" ≠ Some None) as Hslot by (vm_compute; discriminate).
  assert (handle_ok w c1) as Hok1.
  { intros _. split; [vm_compute; reflexivity | by eexists]. }
  assert (handle_ok w (Cat "net")) as Hok2 by discriminate.
  split; [exact Hslot|]. split; [exact Hok1|]. split; [exact Hok2|].
  split; [vm_compute; reflexivity|].
  destruct (C8_concurrent_resolution_converges "net" w Hslot c1 (Cat "net")
              [1; 1] eq_refl eq_refl Hok1 Hok2)
    as (_ & _ & _ & Hmore & Hfree & _ & _ & _ & Hfast).
  split; [exact Hfree|]. split; [exact Hmore|].
  apply (Hfast 0 {| t_pc := AtEntry; t_handle := c1 |}); vm_compute; reflexivity.
Defined.

(** *** A thread on its own does what the operator does *)
Section Alone.
Context {U : Type}.
Implicit Types (c : CategoryLogger) (w : world U).

Lemma alone_step p c w mu :
  tstep 0 (alone p c w mu)
  = match p with
    | AtEntry => Some (alone (if have_logger c then AtReturn else AtLock) c w mu)
    | AtLock => if mu is None then Some (alone AtRecheck c w (Some 0)) else None
    | AtRecheck =>
        Some (alone (if have_logger c then AtUnlock else AtSubscript) c w mu)
    | AtSubscript =>
        Some (alone AtTest c
                {| loggers_ := (subscript (loggers_ w) (name c)).1;
                   next_loc := next_loc w; env_of := env_of w |} mu)
    | AtTest =>
        Some (alone (if slot w (name c) is Some _ then AtAssign else AtMake) c w mu)
    | AtMake =>
        Some (alone AtSetLevel c
                {| loggers_ := <[name c := Some (next_loc w)]> (loggers_ w);
                   next_loc := S (next_loc w);
                   env_of := with_objects
                     (<[next_loc w := new_logger (name c) master_sink]>
                        (objects (env_of w))) (env_of w) |} mu)
    | AtSetLevel =>
        l ← slot w (name c);
        Some (alone AtAssign c
                (with_env
                   (with_objects
                      (alter (set_level (loggers_default_level_ (env_of w))) l
                             (objects (env_of w))) (env_of w)) w) mu)
    | AtAssign =>
        Some (alone AtFlag
                {| have_logger := have_logger c; logger := slot w (name c);
                   name := name c |} w mu)
    | AtFlag =>
        Some (alone AtUnlock
                {| have_logger := true; logger := logger c; name := name c |} w mu)
    | AtUnlock => Some (alone AtReturn c w None)
    | AtReturn => Some (alone (Done (logger c)) c w mu)
    | Done _ => None
    end.
Proof.
  by destruct p.
Qed.

Lemma run_schedule_cons i sch (s : cstate U) :
  run_schedule (i :: sch) s = run_schedule sch (default s (tstep i s)).
Proof. done. Qed.

Lemma slot_insert k p (m : gmap string (option nat)) nl (e : env U) :
  slot {| loggers_ := <[k := p]> m; next_loc := nl; env_of := e |} k = p.
Proof. unfold slot. simpl. by rewrite lookup_insert_eq. Qed.

Lemma slot_with_env e w k : slot (with_env e w) k = slot w k.
Proof. done. Qed.

Ltac alone_next :=
  rewrite run_schedule_cons, alone_step; cbn [from_option id mbind option_bind].

Lemma alone_agrees c w :
  run_schedule (replicate 11 0) (start w [c])
  = alone (Done (operator_logger_ptr c w).1.1)
          (operator_logger_ptr c w).1.2 (operator_logger_ptr c w).2 None.
Proof.
  change (start w [c]) with (alone AtEntry c w None).
  change (replicate 11 0) with [0;0;0;0;0;0;0;0;0;0;0].
  destruct (have_logger c) eqn:Hc.
  { rewrite operator_resolved by done.
    alone_next. rewrite Hc. alone_next. by repeat alone_next. }
  rewrite operator_unresolved by done.
  alone_next. rewrite Hc. alone_next. alone_next. rewrite Hc. alone_next.
  destruct (loggers_ w !! name c) as [[l|]|] eqn:E.
  - rewrite (find_or_make_present c w l) by done.
    assert (subscript (loggers_ w) (name c) = (loggers_ w, Some l)) as ->
      by (unfold subscript; by rewrite E).
    cbn [fst snd]. rewrite world_eta.
    assert (slot w (name c) = Some l) as Hs by (unfold slot; by rewrite E).
    alone_next. rewrite Hs. alone_next. rewrite Hs.
    by repeat alone_next.
  - rewrite find_or_make_empty_slot by done.
    assert (subscript (loggers_ w) (name c) = (loggers_ w, None)) as ->
      by (unfold subscript; by rewrite E).
    cbn [fst snd]. rewrite world_eta.
    assert (slot w (name c) = None) as Hs by (unfold slot; by rewrite E).
    alone_next. rewrite Hs. alone_next.
    alone_next. rewrite slot_insert. cbn [from_option id mbind option_bind].
    alone_next. rewrite slot_with_env, slot_insert.
    repeat alone_next.
    unfold with_env, with_objects, created. cbn [env_of objects loggers_default_level_ master_sink_sinks user loggers_ next_loc fst snd logger name have_logger].
    by rewrite alter_insert_eq.
  - rewrite find_or_make_absent by done.
    assert (subscript (loggers_ w) (name c)
            = (<[name c := None]> (loggers_ w), None)) as ->
      by (unfold subscript; by rewrite E).
    cbn [fst snd].
    alone_next. rewrite slot_insert.
    alone_next.
    alone_next. rewrite slot_insert. cbn [from_option id mbind option_bind].
    alone_next. rewrite slot_with_env, slot_insert.
    repeat alone_next.
    unfold with_env, with_objects, created. cbn [env_of objects loggers_default_level_ master_sink_sinks user loggers_ next_loc fst snd logger name have_logger].
    by rewrite alter_insert_eq, insert_insert_eq.
Qed.

(** The body of [find_or_make_logger], from the construction of the guard
    on, for any handle: for a resolved one it is the early return of line
    18. *)
Lemma alone_find_or_make c w :
  run_schedule (replicate 10 0) (alone AtLock c w None)
  = alone (Done (logger (find_or_make_logger c w).1))
          (find_or_make_logger c w).1 (find_or_make_logger c w).2 None.
Proof.
  destruct (have_logger c) eqn:Hc.
  - rewrite find_or_make_resolved by done. cbn [fst snd].
    change (replicate 10 0) with [0;0;0;0;0;0;0;0;0;0].
    alone_next. alone_next. rewrite Hc. by repeat alone_next.
  - pose proof (alone_agrees c w) as H.
    change (start w [c]) with (alone AtEntry c w None) in H.
    change (replicate 11 0) with (0 :: replicate 10 0) in H.
    rewrite run_schedule_cons, alone_step, Hc in H.
    cbn [from_option id] in H. rewrite H.
    by rewrite operator_unresolved by done.
Qed.

Lemma alone_early_return c w :
  have_logger c = true →
  run_schedule [0; 0] (alone AtLock c w None) = alone AtUnlock c w (Some 0)
  ∧ run_schedule [0; 0; 0] (alone AtLock c w None) = alone AtReturn c w None.
Proof.
  intros Hc. split.
  - alone_next. alone_next. by rewrite Hc.
  - alone_next. alone_next. rewrite Hc. by alone_next.
Qed.

End Alone.

(** * Further properties of the code *)

(** ** Dereferencing and resolution *)
Section MoreResolution.
Context {U : Type}.
Implicit Types (w : world U) (c : CategoryLogger) (s : system U).

(** X1: on a handle that is unresolved, or resolved to the registered pointer,
    in a registry without empty pointers, [operator*] never dereferences an
    empty pointer: it yields the address [operator->] and the conversion
    operator yield, which is the one registered under the handle's name, and
    all three leave the same handle, now resolved, and the same world. *)
Theorem X1_dereference_is_safe c w :
  registry_ok w → handle_ok w c →
  ∃ l c' w',
    operator_star c w = Some (l, c', w')
    ∧ operator_arrow c w = (Some l, c', w')
    ∧ operator_logger_ptr c w = (Some l, c', w')
    ∧ loggers_ w' !! name c = Some (Some l)
    ∧ have_logger c' = true ∧ logger c' = Some l ∧ name c' = name c.
Proof.
  intros Hreg Hc.
  destruct (find_or_make_consistent c w Hreg Hc) as [_ Hc'].
  destruct (Hc' (find_or_make_have_logger c w)) as [Hentry [l Hl]].
  rewrite find_or_make_name in Hentry. rewrite Hl in Hentry.
  exists l, (find_or_make_logger c w).1, (find_or_make_logger c w).2.
  unfold operator_star, operator_arrow.
  rewrite operator_as_find_or_make, Hl. simpl.
  split_and!; try done.
  - apply find_or_make_have_logger.
  - apply find_or_make_name.
Qed.

(** X2: converting an unresolved handle cannot fail, whatever the registry
    holds under its name, an empty pointer included: it returns a pointer to
    a logger, registered under the name afterwards and cached in the handle.
    No other name's slot and no other logger is touched; the registry gains
    an entry only if the name was missing, and a new logger is made only if
    the name was missing or held an empty pointer. *)
Theorem X2_resolution_touches_one_slot c w :
  have_logger c = false →
  ∃ l w',
    operator_logger_ptr c w
    = (Some l, {| have_logger := true; logger := Some l; name := name c |}, w')
    ∧ loggers_ w' !! name c = Some (Some l)
    ∧ (∀ n, n ≠ name c → loggers_ w' !! n = loggers_ w !! n)
    ∧ (∀ l', l' ≠ l → objects (env_of w') !! l' = objects (env_of w) !! l')
    ∧ size (loggers_ w')
      = (if loggers_ w !! name c is Some _ then size (loggers_ w)
         else S (size (loggers_ w)))
    ∧ next_loc w'
      = (if loggers_ w !! name c is Some (Some _) then next_loc w
         else S (next_loc w)).
Proof.
  intros Hc. rewrite operator_unresolved by done.
  destruct (loggers_ w !! name c) as [[l0|]|] eqn:Hl.
  - exists l0, w. rewrite (find_or_make_present c w l0) by done. done.
  - exists (next_loc w), (created (name c) w).
    rewrite find_or_make_empty_slot by done. simpl. split_and!; try done.
    + apply lookup_insert_eq.
    + intros n Hn. by apply lookup_insert_ne.
    + intros l' Hl'. by apply lookup_insert_ne.
    + rewrite map_size_insert_Some; [done|]. by rewrite Hl.
  - exists (next_loc w), (created (name c) w).
    rewrite find_or_make_absent by done. simpl. split_and!; try done.
    + apply lookup_insert_eq.
    + intros n Hn. by apply lookup_insert_ne.
    + intros l' Hl'. by apply lookup_insert_ne.
    + by rewrite map_size_insert_None.
Qed.

End MoreResolution.

Lemma X1_dereference_is_safe_witness :
  registry_ok (two_categories ())
  ∧ handle_ok (two_categories ()) (Cat "disk")
  ∧ ∃ c' w', operator_star (Cat "disk") (two_categories ()) = Some (1, c', w').
Proof.
  assert (registry_ok (two_categories ())) as Hreg.
  { unfold registry_ok, two_categories. simpl. split_and!.
    - intros n p Hn. apply lookup_insert_Some in Hn as [[_ <-]|[_ Hn]].
      { exists 0. split; [done|lia]. }
      apply lookup_singleton_Some in Hn as [_ <-]. exists 1. split; [done|lia].
    - intros n1 n2 l H1 H2.
      apply lookup_insert_Some in H1 as [[<- [= <-]]|[? H1]];
        apply lookup_insert_Some in H2 as [[<- H2]|[? H2]]; try done.
      + apply lookup_singleton_Some in H2 as [_ [=]].
      + apply lookup_singleton_Some in H1 as [_ [= <-]]. done.
      + apply lookup_singleton_Some in H1 as [<- _].
        apply lookup_singleton_Some in H2 as [<- _]. done.
    - vm_compute. reflexivity. }
  assert (handle_ok (two_categories ()) (Cat "disk")) as Hc by discriminate.
  split; [exact Hreg|]. split; [exact Hc|].
  destruct (X1_dereference_is_safe (Cat "disk") (two_categories ()) Hreg Hc)
    as (l & c' & w' & Hstar & _ & _ & Hl & _).
  exists c', w'.
  assert (l = 1) as <-; [|exact Hstar].
  vm_compute in Hstar. by injection Hstar as <- _ _.
Defined.

Lemma X2_resolution_touches_one_slot_witness :
  have_logger (Cat "net") = false
  ∧ ∃ l w',
      operator_logger_ptr (Cat "net") (two_categories ())
      = (Some l, {| have_logger := true; logger := Some l; name := "net" |}, w')
      ∧ loggers_ w' !! "disk" = loggers_ (two_categories ()) !! "disk".
Proof.
  split; [reflexivity|].
  destruct (X2_resolution_touches_one_slot (Cat "net") (two_categories ())
              eq_refl) as (l & w' & Hop & _ & Hother & _).
  exists l, w'. split; [exact Hop|]. apply Hother. discriminate.
Defined.

(** ** Enumeration and programs *)
Section MorePrograms.
Context {U : Type}.
Implicit Types (w : world U) (c : CategoryLogger) (s : system U) (o : op U).

Lemma visit_all_is_Some (f : visitor U) entries (e : env U) :
  is_Some (visit_all f entries e) ↔ Forall (λ np, is_Some np.2) entries.
Proof.
  revert e. induction entries as [|[n [l|]] entries IH]; intros e; simpl.
  - split; [constructor|by eexists].
  - rewrite IH. split.
    + intros H. constructor; [by eexists|done].
    + by inversion 1.
  - split; [by intros [? ?]|]. inversion 1 as [|? ? [? ?]]. done.
Qed.

(** X3: the enumeration dereferences the registered pointers only when it is
    given a visitor.  So it is undefined exactly when a visitor is given and
    some name is registered with an empty pointer; without a visitor it runs
    to its end on any registry. *)
Theorem X3_enumeration_defined_iff (f : option (visitor U))
    (g : option (follow_up U)) w :
  is_Some (for_each_cat_logger f g w)
  ↔ f = None ∨ no_empty_pointer (loggers_ w).
Proof.
  unfold for_each_cat_logger, no_empty_pointer.
  rewrite map_Forall_to_list.
  destruct f as [f|]; simpl.
  - destruct (visit_all f _ _) as [e1|] eqn:Hv; simpl.
    + split; [|by eexists]. intros _. right.
      assert (is_Some (visit_all f (map_to_list (loggers_ w)) (env_of w))) as H
        by (by eexists).
      apply visit_all_is_Some in H.
      eapply Forall_impl; [exact H|]. by intros [? ?].
    + split; [by intros [? ?]|]. intros [?|H]; [done|].
      assert (is_Some (visit_all f (map_to_list (loggers_ w)) (env_of w))) as [? ?].
      { apply visit_all_is_Some. eapply Forall_impl; [exact H|]. by intros [? ?]. }
      congruence.
  - split; [by left|by eexists].
Qed.

Lemma find_or_make_other c w n :
  n ≠ name c →
  loggers_ (find_or_make_logger c w).2 !! n = loggers_ w !! n.
Proof.
  intros Hn. destruct (have_logger c) eqn:Hc.
  { by rewrite find_or_make_resolved. }
  destruct (loggers_ w !! name c) as [[l'|]|] eqn:Hl.
  - by rewrite (find_or_make_present c w l').
  - rewrite find_or_make_empty_slot by done. simpl. by apply lookup_insert_ne.
  - rewrite find_or_make_absent by done. simpl. by apply lookup_insert_ne.
Qed.

Lemma exec_registered_by_use o s r s' :
  consistent s → registered_by_use s → exec o s = Some (r, s') →
  registered_by_use s'.
Proof.
  intros Hs [Hreg Hunres] Hex. unfold registered_by_use.
  assert (consistent s') as [_ Hhs'] by (by eapply exec_consistent).
  assert (∀ n, (∃ h c, sys_handles s' !! h = Some c
                       ∧ have_logger c = true ∧ name c = n)
               → is_Some (loggers_ (sys_world s') !! n)) as Hback.
  { intros n (h & c & Hh & Hc & <-). rewrite Forall_forall in Hhs'.
    destruct (Hhs' c) as [-> _]; [by eapply list_elem_of_lookup_2|done|].
    by eexists. }
  destruct o as [n'|h|f g|L|]; simpl in Hex.
  - injection Hex as <- <-. simpl in *. split.
    + intros n. split; [|apply Hback].
      intros (h & c & Hh & Hc & Hn)%Hreg. exists h, c. simpl.
      by rewrite lookup_app_l by (by eapply lookup_lt_Some).
    + intros h c Hh Hc. simpl in Hh.
      apply lookup_app_Some in Hh as [Hh|[_ Hh]]; [by eapply Hunres|].
      destruct (h - length (sys_handles s)) as [|k]; simpl in Hh; [|done].
      by injection Hh as <-.
  - apply exec_access in Hex as (c & Hh & _ & Hw & Hhs).
    rewrite Hhs, Hw in *. split.
    + intros n. split; [|apply Hback]. intros Hn.
      destruct (decide (n = name c)) as [->|Hne].
      * exists h, (find_or_make_logger c (sys_world s)).1.
        rewrite list_lookup_insert_eq by (by eapply lookup_lt_Some).
        split; [done|]. split; [apply find_or_make_have_logger|].
        apply find_or_make_name.
      * rewrite find_or_make_other in Hn by done.
        apply Hreg in Hn as (h0 & c0 & Hh0 & Hc0 & Hn0).
        exists h0, c0. rewrite list_lookup_insert_ne; [done|].
        intros ->. congruence.
    + intros h0 c0 Hh0 Hc0. destruct (decide (h = h0)) as [->|Hne].
      * rewrite list_lookup_insert_eq in Hh0 by (by eapply lookup_lt_Some).
        injection Hh0 as <-. by rewrite find_or_make_have_logger in Hc0.
      * rewrite list_lookup_insert_ne in Hh0 by done. by eapply Hunres.
  - destruct (for_each_cat_logger f g (sys_world s)) as [w'|] eqn:Hfe; [|done].
    injection Hex as <- <-. simpl in *.
    apply for_each_frame in Hfe as [Hl _]. rewrite Hl in *. split; [|done].
    intros n. split; [apply Hreg | apply Hback].
  - injection Hex as <- <-. simpl in *. split; [|done].
    intros n. split; [apply Hreg | apply Hback].
  - by injection Hex as <- <-.
Qed.

(** X4: categories are created on first use and only then.  After any
    program run from the initial state, a name is in the registry exactly
    when some handle of that name has been resolved (constructing a handle
    registers nothing), and every handle not yet resolved holds an empty
    pointer. *)
Theorem X4_registry_follows_use (u : U) (ops : list (op U)) rets s' :
  run ops (initial_system u) = Some (rets, s') → registered_by_use s'.
Proof.
  assert (∀ s, consistent s → registered_by_use s →
               run ops s = Some (rets, s') → registered_by_use s') as Hgen.
  { revert rets. induction ops as [|o ops IH]; intros rets s Hs Hr Hrun.
    - by injection Hrun as <- <-.
    - apply run_cons in Hrun as (r & s1 & rs & Hex & Hrun & ->).
      apply (IH rs s1); [by eapply exec_consistent| |done].
      by eapply exec_registered_by_use. }
  apply Hgen; [apply initial_consistent|].
  split; simpl.
  - intros n. rewrite lookup_empty. split; [by intros [? ?]|].
    by intros (h & c & Hh & _).
  - by intros h c Hh.
Qed.

End MorePrograms.

Lemma X4_registry_follows_use_witness :
  ∃ rets s',
    run scenario (initial_system ()) = Some (rets, s')
    ∧ registered_by_use s'.
Proof.
  destruct (run scenario (initial_system ())) as [[rets s']|] eqn:Hrun;
    [|vm_compute in Hrun; discriminate Hrun].
  exists rets, s'. split; [reflexivity|].
  exact (X4_registry_follows_use () scenario rets s' Hrun).
Defined.

(** ** The loggers the registry holds *)
Section RegisteredLoggers.
Context {U : Type}.
Implicit Types (w : world U) (c : CategoryLogger) (s : system U) (o : op U).

Lemma well_named_find_or_make c w :
  registry_ok w → well_named w → well_named (find_or_make_logger c w).2.
Proof.
  intros (Hnn & _) Hwn. destruct (have_logger c) eqn:Hc.
  { by rewrite find_or_make_resolved. }
  destruct (loggers_ w !! name c) as [[l'|]|] eqn:Hl.
  - by rewrite (find_or_make_present c w l').
  - destruct (Hnn _ _ Hl) as (? & [=] & _).
  - rewrite find_or_make_absent by done. intros n l. simpl.
    rewrite lookup_insert. case_decide as Hn.
    + intros [= <-]. rewrite lookup_insert_eq. eexists. by subst.
    + intros Hn'. destruct (Hnn _ _ Hn') as (? & [= <-] & Hlt).
      rewrite lookup_insert_ne by lia. by apply Hwn.
Qed.

Lemma visit_all_identity (f : visitor U) entries (e e' : env U) l obj :
  (∀ n l, keeps_identity_env (f n l)) →
  visit_all f entries e = Some e' →
  objects e !! l = Some obj →
  ∃ obj', objects e' !! l = Some obj'
          ∧ name_ obj' = name_ obj ∧ sinks_ obj' = sinks_ obj.
Proof.
  intros Hf. revert e obj.
  induction entries as [|[n [l0|]] entries IH]; intros e obj; simpl.
  - intros [= <-] Hobj. by exists obj.
  - intros Hrun Hobj.
    destruct (Hf n l0 e l obj Hobj) as (obj1 & Hobj1 & Hn1 & Hs1).
    destruct (IH _ _ Hrun Hobj1) as (obj' & Hobj' & Hn' & Hs').
    exists obj'. split; [done|]. split; congruence.
  - done.
Qed.

Lemma exec_well_named o s r s' :
  consistent s → well_named (sys_world s) → keeps_identity o →
  exec o s = Some (r, s') → well_named (sys_world s').
Proof.
  intros [Hreg _] Hwn Hk Hex. destruct o as [n'|h|f g|L|]; simpl in Hex, Hk.
  - by injection Hex as <- <-.
  - apply exec_access in Hex as (c & _ & _ & -> & _).
    by apply well_named_find_or_make.
  - destruct Hk as [Hf Hg]. unfold for_each_cat_logger in Hex.
    assert (∃ e1, (match f with
                   | Some f => visit_all f (map_to_list (loggers_ (sys_world s)))
                                 (env_of (sys_world s))
                   | None => Some (env_of (sys_world s))
                   end) = Some e1
                  ∧ sys_world s'
                    = {| loggers_ := loggers_ (sys_world s);
                         next_loc := next_loc (sys_world s);
                         env_of := match g with Some g => g e1 | None => e1 end |})
      as (e1 & Hv & ->).
    { destruct (match f with Some _ => _ | None => _ end) as [e1|];
        simpl in Hex; [|done]. injection Hex as <- <-. by exists e1. }
    intros n l Hn. simpl in *.
    destruct (Hwn n l Hn) as (obj & Hobj & Hname & Hsinks).
    assert (∃ obj1, objects e1 !! l = Some obj1
                    ∧ name_ obj1 = name_ obj ∧ sinks_ obj1 = sinks_ obj)
      as (obj1 & Hobj1 & Hn1 & Hs1).
    { destruct f as [f|]; [|injection Hv as <-; by exists obj].
      eapply visit_all_identity; [by apply Hf|done..]. }
    destruct g as [g|].
    + destruct (Hg g eq_refl e1 l obj1 Hobj1) as (obj2 & Hobj2 & Hn2 & Hs2).
      exists obj2. split; [done|]. split; congruence.
    + exists obj1. split; [done|]. split; congruence.
  - by injection Hex as <- <-.
  - by injection Hex as <- <-.
Qed.

Lemma level_setter_keeps_identity L n l :
  keeps_identity_env (level_setter (U:=U) L n l).
Proof.
  intros e l' obj Hobj. unfold level_setter. simpl. rewrite lookup_alter.
  case_decide; subst; rewrite Hobj; simpl; by eexists.
Qed.

Lemma set_default_keeps_identity L :
  keeps_identity_env (set_default_catlogger_level (U:=U) L).
Proof. intros e l obj Hobj. by exists obj. Qed.

Lemma reconfigure_keeps_identity L : keeps_identity (reconfigure (U:=U) L).
Proof.
  split.
  - intros f' [= <-]. apply level_setter_keeps_identity.
  - intros g [= <-]. apply set_default_keeps_identity.
Qed.

(** X5: every logger in the registry is the one made for its category.  After
    any program run from the initial state whose callbacks leave the loggers'
    names and sinks alone, each registered pointer designates a logger whose
    name is the name it is registered under and which is attached to the
    master sink and to nothing else. *)
Theorem X5_loggers_named_after_category (u : U) (ops : list (op U)) rets s' :
  Forall keeps_identity ops →
  run ops (initial_system u) = Some (rets, s') →
  well_named (sys_world s').
Proof.
  intros Hk.
  assert (∀ s, consistent s → well_named (sys_world s) →
               run ops s = Some (rets, s') → well_named (sys_world s')) as Hgen.
  { revert rets. induction Hk as [|o ops Ho _ IH]; intros rets s Hs Hwn Hrun.
    - by injection Hrun as <- <-.
    - apply run_cons in Hrun as (r & s1 & rs & Hex & Hrun & ->).
      apply (IH rs s1); [by eapply exec_consistent| |done].
      by eapply exec_well_named. }
  apply Hgen; [apply initial_consistent|].
  intros n l. simpl. by rewrite lookup_empty.
Qed.

(** *** Reconfiguring the level *)

Lemma set_level_twice L obj : set_level L (set_level L obj) = set_level L obj.
Proof. done. Qed.

Lemma visit_all_level_setter L (pairs : list (string * nat)) (e : env U) :
  ∃ e',
    visit_all (level_setter L) (entry_of <$> pairs) e = Some e'
    ∧ loggers_default_level_ e' = loggers_default_level_ e
    ∧ ∀ l, objects e' !! l
           = if bool_decide (l ∈ pairs.*2)
             then set_level L <$> objects e !! l
             else objects e !! l.
Proof.
  revert e. induction pairs as [|[n l0] pairs IH]; intros e.
  { by exists e. }
  destruct (IH (level_setter L n l0 e)) as (e' & Hrun & Hdef & Hobj).
  exists e'. split; [done|]. split; [done|]. intros l.
  rewrite Hobj, fmap_cons. cbn [snd].
  unfold level_setter. cbn [objects with_objects]. rewrite lookup_alter.
  destruct (decide (l0 = l)) as [->|Hne].
  - rewrite (bool_decide_eq_true_2 (l ∈ l :: pairs.*2)) by (by left).
    case_bool_decide; [|done].
    destruct (objects e !! l); simpl; [|done]. by rewrite set_level_twice.
  - case_bool_decide as Hin.
    + rewrite bool_decide_eq_true_2; [done|]. by right.
    + rewrite bool_decide_eq_false_2; [done|].
      intros [?|?]%elem_of_cons; [congruence|done].
Qed.

Lemma all_at_find_or_make L c w :
  registry_ok w → all_at L w → all_at L (find_or_make_logger c w).2.
Proof.
  intros (Hnn & _) [Hdef Hall]. destruct (have_logger c) eqn:Hc.
  { by rewrite find_or_make_resolved. }
  destruct (loggers_ w !! name c) as [[l'|]|] eqn:Hl.
  - by rewrite (find_or_make_present c w l').
  - destruct (Hnn _ _ Hl) as (? & [=] & _).
  - rewrite find_or_make_absent by done. split; [done|]. intros n l. simpl.
    rewrite lookup_insert. case_decide as Hn.
    + intros [= <-]. rewrite lookup_insert_eq. by eexists.
    + intros Hn'. destruct (Hnn _ _ Hn') as (? & [= <-] & Hlt).
      rewrite lookup_insert_ne by lia. by apply (Hall n).
Qed.

Lemma exec_all_at L o s r s' :
  consistent s → all_at L (sys_world s) → quiet o = true →
  exec o s = Some (r, s') → all_at L (sys_world s').
Proof.
  intros [Hreg _] Hall Hq Hex. destruct o as [n'|h|f g|L'|]; simpl in Hex, Hq;
    try done.
  - by injection Hex as <- <-.
  - apply exec_access in Hex as (c & _ & _ & -> & _).
    by apply all_at_find_or_make.
  - by injection Hex as <- <-.
Qed.

(** X6: the reconfiguration the header prescribes for the default-level
    setter is complete.  One enumeration whose visitor sets the level of each
    logger to [L] and whose follow-up sets the default level to [L] leaves no
    registered logger at another level, and neither do the constructions and
    accesses that follow: a logger made later starts at [L].  The registry
    itself is not changed by the reconfiguration. *)
Theorem X6_reconfiguration_is_complete (L : Level) (ops : list (op U)) s :
  consistent s → well_named (sys_world s) →
  Forall (λ o, quiet o = true) ops →
  well_scoped ops (length (sys_handles s)) = true →
  ∃ s1 rets s2,
    exec (reconfigure L) s = Some (RDone, s1)
    ∧ loggers_ (sys_world s1) = loggers_ (sys_world s)
    ∧ sys_handles s1 = sys_handles s
    ∧ all_at L (sys_world s1)
    ∧ run ops s1 = Some (rets, s2)
    ∧ all_at L (sys_world s2).
Proof.
  intros Hs Hwn Hq Hscope.
  pose proof (registry_ok_no_empty _ (proj1 Hs)) as Hnn.
  destruct (registry_pairs _ Hnn) as (pairs & Hpairs & _).
  destruct (visit_all_level_setter L pairs (env_of (sys_world s)))
    as (e1 & Hv & Hdef & Hobj).
  set (s1 := {| sys_world :=
                  {| loggers_ := loggers_ (sys_world s);
                     next_loc := next_loc (sys_world s);
                     env_of := set_default_catlogger_level L e1 |};
                sys_handles := sys_handles s |}).
  assert (exec (reconfigure L) s = Some (RDone, s1)) as Hex.
  { simpl. unfold for_each_cat_logger. by rewrite Hpairs, Hv. }
  assert (consistent s1) as Hs1 by (by eapply exec_consistent).
  assert (all_at L (sys_world s1)) as Hall1.
  { split; [done|]. intros n l Hn. simpl in *.
    destruct (Hwn n l Hn) as (obj & Hobjl & _).
    exists (set_level L obj). rewrite Hobj, Hobjl.
    rewrite bool_decide_eq_true_2; [done|].
    apply elem_of_map_to_list in Hn. rewrite Hpairs in Hn.
    apply list_elem_of_fmap_1 in Hn as ([n0 l0] & [= <- <-] & Hin).
    by apply (list_elem_of_fmap_2' snd _ (n, l)). }
  destruct (run_total ops s1 Hs1 Hscope) as [[rets s2] Hrun].
  exists s1, rets, s2. split_and!; try done.
  clear Hex Hscope. revert rets Hrun.
  generalize dependent s1. clear Hobj Hv.
  induction Hq as [|o ops Ho _ IH]; intros s1 Hs1 Hall1 rets Hrun.
  - by injection Hrun as <- <-.
  - apply run_cons in Hrun as (r & s1' & rs & Hex & Hrun & ->).
    apply (IH s1' (exec_consistent _ _ _ _ Hs1 Hex)
              (exec_all_at _ _ _ _ _ Hs1 Hall1 Ho Hex) rs Hrun).
Qed.

End RegisteredLoggers.

Lemma X5_loggers_named_after_category_witness :
  Forall keeps_identity (@scenario unit)
  ∧ ∃ rets s',
      run scenario (initial_system ()) = Some (rets, s')
      ∧ well_named (sys_world s').
Proof.
  assert (Forall keeps_identity (@scenario unit)) as Hk.
  { unfold scenario. repeat (constructor; [first [exact I | apply reconfigure_keeps_identity]|]).
    constructor. }
  split; [exact Hk|].
  destruct (run scenario (initial_system ())) as [[rets s']|] eqn:Hrun;
    [|vm_compute in Hrun; discriminate Hrun].
  exists rets, s'. split; [reflexivity|].
  exact (X5_loggers_named_after_category () scenario rets s' Hk Hrun).
Defined.

Lemma X6_reconfiguration_is_complete_witness :
  consistent (initial_system ())
  ∧ well_named (sys_world (initial_system ()))
  ∧ ∃ s1 rets s2,
      exec (reconfigure warn) (initial_system ()) = Some (RDone, s1)
      ∧ run [OpCat "disk"; OpAccess 0] s1 = Some (rets, s2)
      ∧ all_at warn (sys_world s2).
Proof.
  assert (well_named (sys_world (initial_system ()))) as Hwn.
  { intros n l Hn. simpl in Hn. by rewrite lookup_empty in Hn. }
  split; [apply initial_consistent|]. split; [exact Hwn|].
  destruct (X6_reconfiguration_is_complete warn [OpCat "disk"; OpAccess 0]
              (initial_system ()) (initial_consistent ()) Hwn)
    as (s1 & rets & s2 & Hex & _ & _ & _ & Hrun & Hall).
  { by repeat constructor. }
  { reflexivity. }
  exists s1, rets, s2. split; [exact Hex|]. split; [exact Hrun | exact Hall].
Defined.

(** ** Threads with handles of any names *)
Import AnyNames.

Section AnyNamesFacts.
Context {U : Type}.
Implicit Types (w : world U) (c : CategoryLogger) (s : cstate U) (t : thread).

Lemma size_omap_no_empty (m : gmap string (option nat)) :
  no_empty_pointer m → size (omap id m) = size m.
Proof.
  intros Hnn. rewrite <- !(size_dom (D:=gset string)). f_equal.
  apply set_eq. intros n. rewrite !elem_of_dom, lookup_omap.
  destruct (m !! n) as [p|] eqn:Hn; simpl.
  - destruct (Hnn n p Hn) as [l ->]. simpl. split; by eexists.
  - split; by intros [? ?].
Qed.

Lemma thread_ok_others w w' t :
  (∀ n l, loggers_ w !! n = Some (Some l) → loggers_ w' !! n = Some (Some l)) →
  in_critical (t_pc t) = false →
  thread_ok w t → thread_ok w' t.
Proof.
  intros Hkeep Hnc [Hres Hpc]. destruct t as [p c]. simpl in *.
  assert (have_logger c = true →
          loggers_ w' !! name c = Some (logger c) ∧ is_Some (logger c)) as Hres'.
  { intros Hh. destruct (Hres Hh) as [Hreg [l Hl]]. rewrite Hl in *.
    split; [by apply Hkeep|by eexists]. }
  split; [done|]. by destruct p.
Qed.

Lemma not_critical_of_other s i j tj :
  (∀ i t, c_threads s !! i = Some t →
          in_critical (t_pc t) = true ↔ loggers_mutex_ s = Some i) →
  loggers_mutex_ s = Some i → j ≠ i → c_threads s !! j = Some tj →
  in_critical (t_pc tj) = false.
Proof.
  intros Hlock Hmu Hne Hj. apply not_true_is_false. intros Hc.
  apply (Hlock _ _ Hj) in Hc. congruence.
Qed.

Lemma thread_ok_ext w w' t :
  loggers_ w' = loggers_ w → thread_ok w t → thread_ok w' t.
Proof. unfold thread_ok. by intros ->. Qed.

Lemma ginv_goto w0 cs s i t p' c' w' mu' :
  ginv w0 cs s →
  c_threads s !! i = Some t →
  name c' = name (t_handle t) →
  (in_critical p' = true ↔ mu' = Some i) →
  (∀ j tj, j ≠ i → c_threads s !! j = Some tj →
           in_critical (t_pc tj) = true ↔ mu' = Some j) →
  (∀ k, mu' = Some k → k < length (c_threads s)) →
  (∀ n l, loggers_ w' !! n = Some (Some l) → l < next_loc w') →
  (∀ n1 n2 l, loggers_ w' !! n1 = Some (Some l) →
              loggers_ w' !! n2 = Some (Some l) → n1 = n2) →
  size (omap id (loggers_ w')) = next_loc w' →
  (∀ n, loggers_ w' !! n = Some None →
        (mu' = Some i ∧ n = name c')
        ∨ (loggers_ (c_world s) !! n = Some None ∧ mu' = loggers_mutex_ s)) →
  (∀ n l, loggers_ (c_world s) !! n = Some (Some l) →
          loggers_ w' !! n = Some (Some l)) →
  (∀ n, is_Some (loggers_ w' !! n) →
        is_Some (loggers_ (c_world s) !! n) ∨ n = name c') →
  thread_ok w' {| t_pc := p'; t_handle := c' |} →
  (∀ j tj, j ≠ i → c_threads s !! j = Some tj →
           thread_ok (c_world s) tj → thread_ok w' tj) →
  ginv w0 cs (goto i p' c' w' mu' s).
Proof.
  intros (Hlock & Hmu & Hnames & Hlt & Hinj & Hsize & Hnull & Hkeep & Hdom & Hth)
    Hi Hname Hlocki Hlocko Hmu' Hlt' Hinj' Hsize' Hnull' Hkeep' Hdom' Hthi Htho.
  assert (i < length (c_threads s)) as Hilt by (by eapply lookup_lt_Some).
  unfold ginv. simpl. split_and!; try done.
  - intros j tj. destruct (decide (i = j)) as [<-|Hne].
    + rewrite list_lookup_insert_eq by done. by intros [= <-].
    + rewrite list_lookup_insert_ne by done. intros Hj. by apply Hlocko.
  - intros k Hk. rewrite length_insert. by apply Hmu'.
  - rewrite list_fmap_insert. simpl. rewrite Hname, <- Hnames.
    apply list_insert_id. by rewrite list_lookup_fmap, Hi.
  - intros n Hn. destruct (Hnull' n Hn) as [[-> ->]|[Hold Hsame]].
    + eexists i, _. rewrite list_lookup_insert_eq by done. done.
    + destruct (Hnull n Hold) as (k & tk & Hk & Hlk & Hnk).
      destruct (decide (i = k)) as [<-|Hne].
      * eexists i, _. rewrite list_lookup_insert_eq by done.
        split; [congruence|]. split; [done|]. simpl. congruence.
      * exists k, tk. rewrite list_lookup_insert_ne by done.
        split; [congruence|done].
  - intros n l Hn. by apply Hkeep', Hkeep.
  - intros n Hn. destruct (Hdom' n Hn) as [Hold| ->]; [by apply Hdom|].
    right. rewrite Hname, <- Hnames.
    apply (list_elem_of_lookup_2 _ i). by rewrite list_lookup_fmap, Hi.
  - intros j tj. destruct (decide (i = j)) as [<-|Hne].
    + rewrite list_lookup_insert_eq by done. by intros [= <-].
    + rewrite list_lookup_insert_ne by done. intros Hj.
      apply (Htho j); [done..|]. by eapply Hth.
Qed.

Lemma ginv_local w0 cs s i t p' c' w' :
  ginv w0 cs s →
  c_threads s !! i = Some t →
  name c' = name (t_handle t) →
  in_critical p' = in_critical (t_pc t) →
  loggers_ w' = loggers_ (c_world s) → next_loc w' = next_loc (c_world s) →
  thread_ok w' {| t_pc := p'; t_handle := c' |} →
  ginv w0 cs (goto i p' c' w' (loggers_mutex_ s) s).
Proof.
  intros Hinv Hi Hname Hcrit Hl Hn Hthi.
  pose proof Hinv as
    (Hlock & Hmu & Hnames & Hlt & Hinj & Hsize & Hnull & Hkeep & Hdom & Hth).
  apply (ginv_goto w0 cs s i t); try done; rewrite ?Hl, ?Hn; try done.
  - rewrite Hcrit. by apply Hlock.
  - intros j tj _ Hj. by apply Hlock.
  - intros n Hnull'. by right.
  - intros n Hn'. by left.
  - intros j tj _ _. by apply thread_ok_ext.
Qed.

Lemma gstep_inv w0 cs i s s' :
  ginv w0 cs s → tstep i s = Some s' → ginv w0 cs s'.
Proof.
  intros Hinv Hstep.
  pose proof Hinv as
    (Hlock & Hmu & Hnames & Hlt & Hinj & Hsize & Hnull & Hkeep & Hdom & Hth).
  unfold tstep in Hstep.
  destruct (c_threads s !! i) as [[p c]|] eqn:Hi; simpl in Hstep; [|done].
  destruct (Hth _ _ Hi) as [Hres Hpc]. pose proof (Hlock _ _ Hi) as Hcrit.
  simpl in *.
  assert (i < length (c_threads s)) as Hilt by (by eapply lookup_lt_Some).
  destruct p; simpl in *.
  - (* AtEntry *)
    injection Hstep as <-.
    apply (ginv_local w0 cs s i _ _ _ _ Hinv Hi); try done.
    + by destruct (have_logger c).
    + split; simpl; [done|]. by destruct (have_logger c) eqn:Hh.
  - (* AtLock *)
    destruct (loggers_mutex_ s) as [k|] eqn:Hk; [done|]. injection Hstep as <-.
    apply (ginv_goto w0 cs s i _ _ _ _ _ Hinv Hi); try done.
    + intros j tj Hne Hj. split.
      * intros Hc. by apply (Hlock _ _ Hj) in Hc.
      * by intros [= ->].
    + by intros k [= <-].
    + intros n Hn. destruct (Hnull n Hn) as (k & ? & ? & _). done.
    + intros n Hn. by left.
  - (* AtRecheck *)
    injection Hstep as <-.
    apply (ginv_local w0 cs s i _ _ _ _ Hinv Hi); try done.
    + by destruct (have_logger c).
    + split; simpl; [done|]. by destruct (have_logger c) eqn:Hh.
  - (* AtSubscript *)
    injection Hstep as <-. unfold subscript.
    destruct (loggers_ (c_world s) !! name c) as [p|] eqn:Hl; simpl.
    + apply (ginv_local w0 cs s i _ _ _ _ Hinv Hi); try done.
      split; simpl; rewrite Hl; [done|by eexists].
    + assert (loggers_mutex_ s = Some i) as Hmui by (by apply Hcrit).
      apply (ginv_goto w0 cs s i _ _ _ _ _ Hinv Hi); try done; simpl.
      * intros j tj _ Hj. by apply Hlock.
      * intros n l [[_ ?]|[_ Hn]]%lookup_insert_Some; [done|]. by eapply Hlt.
      * intros n1 n2 l [[_ ?]|[_ H1]]%lookup_insert_Some
                       [[_ ?]|[_ H2]]%lookup_insert_Some; try done.
        by eapply Hinj.
      * rewrite omap_insert_None by done. rewrite delete_id; [done|].
        by rewrite lookup_omap, Hl.
      * intros n [[<- _]|[_ Hn]]%lookup_insert_Some; [by left|by right].
      * intros n l Hn. rewrite lookup_insert_ne; [done|]. congruence.
      * intros n [->|Hn]%lookup_insert_is_Some'; [by right|by left].
      * split; simpl; [|rewrite lookup_insert_eq; by eexists].
        intros Hh. destruct (Hres Hh) as [? _]. congruence.
      * intros j tj Hne Hj. apply thread_ok_others; simpl.
        -- intros n l Hn. rewrite lookup_insert_ne; [done|]. congruence.
        -- by eapply not_critical_of_other.
  - (* AtTest *)
    injection Hstep as <-.
    apply (ginv_local w0 cs s i _ _ _ _ Hinv Hi); try done.
    + unfold slot. by destruct (loggers_ (c_world s) !! name c) as [[?|]|].
    + split; simpl; [done|]. unfold slot.
      destruct Hpc as [[l|] Hl]; rewrite Hl; simpl; [by eexists|done].
  - (* AtMake *)
    injection Hstep as <-.
    assert (loggers_mutex_ s = Some i) as Hmui by (by apply Hcrit).
    apply (ginv_goto w0 cs s i _ _ _ _ _ Hinv Hi); try done; simpl.
    + intros j tj _ Hj. by apply Hlock.
    + intros n l [[_ [= <-]]|[_ Hn]]%lookup_insert_Some; [lia|].
      specialize (Hlt _ _ Hn). lia.
    + intros n1 n2 l [[<- [= <-]]|[? H1]]%lookup_insert_Some
                     [[<- H2]|[? H2]]%lookup_insert_Some; try done.
      * specialize (Hlt _ _ H2). lia.
      * injection H2 as <-. specialize (Hlt _ _ H1). lia.
      * by eapply Hinj.
    + rewrite (omap_insert_Some _ _ _ _ (next_loc (c_world s))) by done.
      rewrite map_size_insert_None; [by rewrite Hsize|].
      by rewrite lookup_omap, Hpc.
    + intros n [[_ ?]|[_ Hn]]%lookup_insert_Some; [done|by right].
    + intros n l Hn. rewrite lookup_insert_ne; [done|]. congruence.
    + intros n [->|Hn]%lookup_insert_is_Some'; [by right|by left].
    + split; simpl; [|rewrite lookup_insert_eq; by eexists].
      intros Hh. destruct (Hres Hh) as [Hreg [l Hl]]. congruence.
    + intros j tj Hne Hj. apply thread_ok_others; simpl.
      * intros n l Hn. rewrite lookup_insert_ne; [done|]. congruence.
      * by eapply not_critical_of_other.
  - (* AtSetLevel *)
    destruct Hpc as [l Hl]. unfold slot in Hstep. rewrite Hl in Hstep.
    simpl in Hstep. injection Hstep as <-.
    apply (ginv_local w0 cs s i _ _ _ _ Hinv Hi); try done.
    split; simpl; [done|]. by exists l.
  - (* AtAssign *)
    injection Hstep as <-. destruct Hpc as [l Hl].
    apply (ginv_local w0 cs s i _ _ _ _ Hinv Hi); try done.
    unfold slot. rewrite Hl. simpl.
    split; simpl; [intros _|]; (split; [done|by eexists]).
  - (* AtFlag *)
    injection Hstep as <-.
    by apply (ginv_local w0 cs s i _ _ _ _ Hinv Hi).
  - (* AtUnlock *)
    injection Hstep as <-.
    assert (loggers_mutex_ s = Some i) as Hmui by (by apply Hcrit).
    apply (ginv_goto w0 cs s i _ _ _ _ _ Hinv Hi); try done.
    + intros j tj Hne Hj. split; [|done]. intros Hc.
      apply (Hlock _ _ Hj) in Hc. congruence.
    + intros n Hn. destruct (Hnull n Hn) as (k & tk & Hk & Hlk & Hnk).
      assert (k = i) as -> by congruence. rewrite Hi in Hlk.
      injection Hlk as <-. simpl in Hnk. subst n.
      destruct (Hres Hpc) as [Hreg [l Hl]]. congruence.
    + intros n Hn. by left.
  - (* AtReturn *)
    injection Hstep as <-.
    by apply (ginv_local w0 cs s i _ _ _ _ Hinv Hi).
  - done.
Qed.

Lemma ginv_start w0 cs :
  registry_ok w0 → Forall (handle_ok w0) cs → ginv w0 cs (start w0 cs).
Proof.
  intros (Hnn & Hinj & Hsize) Hcs. unfold ginv. simpl.
  assert (∀ i t, ((λ c, {| t_pc := AtEntry; t_handle := c |}) <$> cs) !! i
                 = Some t →
            ∃ c, t = {| t_pc := AtEntry; t_handle := c |} ∧ handle_ok w0 c)
    as Hthreads.
  { intros i t. rewrite list_lookup_fmap.
    destruct (cs !! i) as [c|] eqn:Hc; simpl; [|done]. intros [= <-].
    exists c. split; [done|]. rewrite Forall_forall in Hcs. apply Hcs.
    by eapply list_elem_of_lookup_2. }
  split_and!; try done.
  - intros i t (c & -> & _)%Hthreads. done.
  - by rewrite <- list_fmap_compose.
  - intros n l Hn. destruct (Hnn _ _ Hn) as (? & [= <-] & ?). done.
  - rewrite size_omap_no_empty; [done|].
    intros n p Hn. destruct (Hnn _ _ Hn) as (? & -> & _). by eexists.
  - intros n Hn. destruct (Hnn _ _ Hn) as (? & [=] & _).
  - intros n Hn. by left.
  - intros i t (c & -> & Hc)%Hthreads. by split.
Qed.

Lemma run_schedule_ginv w0 cs sch s :
  ginv w0 cs s → ginv w0 cs (run_schedule sch s).
Proof.
  revert s. induction sch as [|i sch IH]; intros s Hs; simpl; [done|].
  apply IH. destruct (tstep i s) as [s'|] eqn:Hstep; simpl; [|done].
  by eapply gstep_inv.
Qed.

Lemma ginv_progress w0 cs s :
  ginv w0 cs s → all_done s = false → ∃ i s', tstep i s = Some s'.
Proof.
  intros (Hlock & Hmu & _ & _ & _ & _ & _ & _ & _ & Hth) Hnd.
  destruct (loggers_mutex_ s) as [k|] eqn:Hk.
  - destruct (lookup_lt_is_Some_2 _ _ (Hmu k eq_refl)) as [[p c] Hi].
    pose proof (Hlock _ _ Hi) as Hcrit. destruct (Hth _ _ Hi) as [_ Hpc].
    simpl in *. exists k. unfold tstep. rewrite Hi, Hk. simpl.
    destruct p; simpl in *; try (by eexists);
      try (by destruct Hcrit as [_ Hc]; discriminate (Hc eq_refl)).
    destruct Hpc as [l Hl]. unfold slot. rewrite Hl. simpl. by eexists.
  - destruct (not_all_done s Hnd) as (i & [p c] & Hi & Hr).
    pose proof (Hlock _ _ Hi) as Hcrit. simpl in *.
    exists i. unfold tstep. rewrite Hi, Hk. simpl.
    destruct p; simpl in *; try done; try (by eexists);
      by destruct Hcrit as [Hc _]; discriminate (Hc eq_refl).
Qed.

Lemma sum_list_fmap_insert {A} (f : A → nat) (l : list A) i x y :
  l !! i = Some x →
  sum_list (f <$> <[i := y]> l) + f x = sum_list (f <$> l) + f y.
Proof.
  revert i. induction l as [|a l IH]; intros [|i] Hi; simplify_eq/=; [lia|].
  specialize (IH i Hi). lia.
Qed.

(** Every statement brings its thread closer to its return. *)
Lemma tstep_rank i s s' : tstep i s = Some s' → total_rank s' < total_rank s.
Proof.
  unfold tstep. destruct (c_threads s !! i) as [[p c]|] eqn:Hi; simpl; [|done].
  assert (∀ p' c' w' mu',
            rank p' < rank p →
            total_rank (goto i p' c' w' mu' s) < total_rank s) as Hgoto.
  { intros p' c' w' mu' Hlt. unfold total_rank. simpl.
    pose proof (sum_list_fmap_insert (rank ∘ t_pc) (c_threads s) i _
                  {| t_pc := p'; t_handle := c' |} Hi) as Hsum.
    simpl in Hsum. lia. }
  intros Hstep.
  destruct p; simpl in Hstep; repeat case_match; simplify_option_eq;
    try done; apply Hgoto; simpl; lia.
Qed.

(** A statement outside the guarded region leaves the world as it is. *)
Lemma tstep_outside_world i s s' t :
  tstep i s = Some s' → c_threads s !! i = Some t →
  in_critical (t_pc t) = false →
  c_world s' = c_world s.
Proof.
  unfold tstep. intros Hstep Hi Hnc. rewrite Hi in Hstep. simpl in Hstep.
  destruct (t_pc t); simpl in *; repeat case_match; by simplify_option_eq.
Qed.

Lemma ginv_eventually w0 cs s :
  ginv w0 cs s → ∃ sch, all_done (run_schedule sch s) = true.
Proof.
  remember (total_rank s) as k eqn:Hk. revert s Hk.
  induction k as [k IH] using lt_wf_ind. intros s -> Hs.
  destruct (all_done s) eqn:Hd; [by exists []|].
  destruct (ginv_progress w0 cs s Hs Hd) as (i & s' & Hstep).
  destruct (IH (total_rank s') (tstep_rank _ _ _ Hstep) s' eq_refl) as [sch Hsch].
  { by eapply gstep_inv. }
  exists (i :: sch). simpl. by rewrite Hstep.
Qed.

Lemma effective_steps_bound sch s :
  effective_steps sch s + total_rank (run_schedule sch s) ≤ total_rank s.
Proof.
  revert s. induction sch as [|i sch IH]; intros s; simpl; [lia|].
  destruct (tstep i s) as [s'|] eqn:Hstep; simpl; [|apply IH].
  pose proof (tstep_rank _ _ _ Hstep). specialize (IH s'). lia.
Qed.

Lemma total_rank_start w cs : total_rank (start w cs) = 11 * length cs.
Proof.
  unfold total_rank, start. cbn [c_threads].
  induction cs as [|c cs IH]; [done|].
  rewrite !fmap_cons. cbn [sum_list sum_list_with]. rewrite IH.
  cbn [compose t_pc rank length id]. lia.
Qed.

Lemma all_done_returned s i t :
  all_done s = true → c_threads s !! i = Some t → is_Some (returned t).
Proof.
  unfold all_done. intros Hall Hi.
  rewrite forallb_forall in Hall.
  specialize (Hall t). rewrite bool_decide_eq_true in Hall. apply Hall.
  apply list_elem_of_In. by eapply list_elem_of_lookup_2.
Qed.

(** X7: the statements of a conversion, run one after the other by a single
    thread, end after at most eleven steps with the mutex released and with
    exactly the pointer, the handle and the world of the operator taken as
    one function.  So do the statements of [find_or_make_logger], from the
    construction of the guard on, for the function [find_or_make_logger] and
    any handle.  For a handle that is resolved when the guard is constructed
    (another thread has resolved the same handle object since the test of
    line 63) this is the early return of line 18: the thread takes the mutex,
    finds the flag set, releases the mutex, and returns the handle's pointer
    with the handle and the world as they were. *)
Theorem X7_uncontended_call_is_the_operator c w :
  (let '(p, c', w') := operator_logger_ptr c w in
   run_schedule (replicate 11 0) (start w [c])
   = {| c_world := w';
        loggers_mutex_ := None;
        c_threads := [ {| t_pc := Done p; t_handle := c' |} ] |})
  ∧ (let '(c', w') := find_or_make_logger c w in
     run_schedule (replicate 10 0) (alone AtLock c w None)
     = {| c_world := w';
          loggers_mutex_ := None;
          c_threads := [ {| t_pc := Done (logger c'); t_handle := c' |} ] |})
  ∧ (have_logger c = true →
     run_schedule [0; 0] (alone AtLock c w None)
     = {| c_world := w;
          loggers_mutex_ := Some 0;
          c_threads := [ {| t_pc := AtUnlock; t_handle := c |} ] |}
     ∧ run_schedule [0; 0; 0] (alone AtLock c w None)
       = {| c_world := w;
            loggers_mutex_ := None;
            c_threads := [ {| t_pc := AtReturn; t_handle := c |} ] |}
     ∧ run_schedule (replicate 10 0) (alone AtLock c w None)
       = {| c_world := w;
            loggers_mutex_ := None;
            c_threads := [ {| t_pc := Done (logger c); t_handle := c |} ] |}).
Proof.
  split_and!.
  - rewrite alone_agrees. by destruct (operator_logger_ptr c w) as [[p c'] w'].
  - rewrite alone_find_or_make. by destruct (find_or_make_logger c w) as [c' w'].
  - intros Hc. destruct (alone_early_return c w Hc) as [H2 H3].
    split; [exact H2|]. split; [exact H3|].
    rewrite alone_find_or_make. by rewrite find_or_make_resolved by done.
Qed.

(** X8: any number of threads, handles of any names, any schedule.  At most
    one thread is between the construction and the destruction of the lock
    guard, and it owns the mutex; a statement of a thread that does not own
    the mutex changes neither the world nor another thread; a name is
    registered with an empty pointer only while the mutex is held; and when
    all threads have returned the mutex is free. *)
Theorem X8_mutual_exclusion w0 (cs : list CategoryLogger) (sch : list nat) :
  registry_ok w0 → Forall (handle_ok w0) cs →
  let s := run_schedule sch (start w0 cs) in
  (∀ i j ti tj,
     c_threads s !! i = Some ti → c_threads s !! j = Some tj →
     in_critical (t_pc ti) = true → in_critical (t_pc tj) = true → i = j)
  ∧ (∀ i t, c_threads s !! i = Some t → in_critical (t_pc t) = true →
            loggers_mutex_ s = Some i)
  ∧ (∀ i s', tstep i s = Some s' → loggers_mutex_ s ≠ Some i →
             c_world s' = c_world s
             ∧ ∀ j, j ≠ i → c_threads s' !! j = c_threads s !! j)
  ∧ (loggers_mutex_ s = None → no_empty_pointer (loggers_ (c_world s)))
  ∧ (all_done s = true → loggers_mutex_ s = None).
Proof.
  intros Hreg Hcs s.
  assert (ginv w0 cs s) as Hs by (by apply run_schedule_ginv, ginv_start).
  destruct Hs as (Hlock & Hmu & _ & _ & _ & _ & Hnull & _ & _ & _).
  split_and!.
  - intros i j ti tj Hi Hj Hci Hcj.
    apply (Hlock _ _ Hi) in Hci. apply (Hlock _ _ Hj) in Hcj. congruence.
  - intros i t Hi Hc. by apply (Hlock _ _ Hi).
  - intros i s' Hstep Hmui. split; [|intros j Hne; by eapply tstep_others].
    destruct (c_threads s !! i) as [t|] eqn:Hi.
    + eapply tstep_outside_world; [done..|].
      apply not_true_is_false. intros Hc. by apply (Hlock _ _ Hi) in Hc.
    + unfold tstep in Hstep. by rewrite Hi in Hstep.
  - intros Hfree n [l|] Hn; [by eexists|].
    destruct (Hnull n Hn) as (k & ? & ? & _). congruence.
  - intros Hdone. destruct (loggers_mutex_ s) as [k|] eqn:Hk; [|done].
    destruct (lookup_lt_is_Some_2 _ _ (Hmu k eq_refl)) as [t Hi].
    destruct (all_done_returned s k t Hdone Hi) as [p Hp].
    assert (in_critical (t_pc t) = true) as Hc by (by apply (Hlock _ _ Hi)).
    unfold returned in Hp. by destruct (t_pc t).
Qed.

(** X9: any number of threads, handles of any names, any schedule.  A thread
    that has returned has returned a pointer to a logger, the one cached in
    its handle and registered under the name of its handle; two threads have
    returned the same pointer exactly when their handles have the same name.
    What was registered at the start is still registered, and nothing is
    registered but names of the start and of the handles.  When all threads
    have returned, the name of every handle is registered and the registry is
    as after a sequence of calls: no empty pointer, no logger under two
    names, as many loggers made as names registered. *)
Theorem X9_threads_converge w0 (cs : list CategoryLogger) (sch : list nat) :
  registry_ok w0 → Forall (handle_ok w0) cs →
  let s := run_schedule sch (start w0 cs) in
  (∀ i t p,
     c_threads s !! i = Some t → returned t = Some p →
     ∃ c l, cs !! i = Some c ∧ name (t_handle t) = name c
            ∧ p = Some l ∧ logger (t_handle t) = Some l
            ∧ loggers_ (c_world s) !! name c = Some (Some l))
  ∧ (∀ i j ti tj pi pj,
       c_threads s !! i = Some ti → c_threads s !! j = Some tj →
       returned ti = Some pi → returned tj = Some pj →
       pi = pj ↔ name (t_handle ti) = name (t_handle tj))
  ∧ (∀ n l, loggers_ w0 !! n = Some (Some l) →
            loggers_ (c_world s) !! n = Some (Some l))
  ∧ (∀ n, is_Some (loggers_ (c_world s) !! n) →
          is_Some (loggers_ w0 !! n) ∨ n ∈ name <$> cs)
  ∧ (all_done s = true →
     registry_ok (c_world s)
     ∧ ∀ c, c ∈ cs → is_Some (loggers_ (c_world s) !! name c)).
Proof.
  intros Hreg Hcs s.
  assert (ginv w0 cs s) as Hs by (by apply run_schedule_ginv, ginv_start).
  destruct Hs as (Hlock & Hmu & Hnames & Hlt & Hinj & Hsize & Hnull & Hkeep
                  & Hdom & Hth).
  assert (∀ i t p, c_threads s !! i = Some t → returned t = Some p →
            ∃ l, p = Some l ∧ logger (t_handle t) = Some l
                 ∧ loggers_ (c_world s) !! name (t_handle t) = Some (Some l))
    as Hret.
  { intros i [pc c] p Hi Hp. destruct (Hth _ _ Hi) as [Hres Hpc].
    unfold returned in Hp. simpl in *. destruct pc; try done.
    injection Hp as ->. destruct Hpc as [Hh ->].
    destruct (Hres Hh) as [Hl [l Hl']]. exists l. by rewrite Hl' in *. }
  split_and!; try done.
  - intros i t p Hi Hp. destruct (Hret _ _ _ Hi Hp) as (l & -> & Hl & Hn).
    assert ((name <$> cs) !! i = Some (name (t_handle t))) as Hc.
    { rewrite <- Hnames, list_lookup_fmap, Hi. done. }
    rewrite list_lookup_fmap in Hc.
    destruct (cs !! i) as [c|]; simpl in Hc; [|done]. injection Hc as Hc.
    exists c, l. rewrite Hc. done.
  - intros i j ti tj pi pj Hi Hj Hpi Hpj.
    destruct (Hret _ _ _ Hi Hpi) as (li & -> & _ & Hni).
    destruct (Hret _ _ _ Hj Hpj) as (lj & -> & _ & Hnj).
    split.
    + intros [= ->]. by eapply Hinj.
    + intros Heq. rewrite Heq in Hni. congruence.
  - intros Hdone.
    assert (loggers_mutex_ s = None) as Hfree.
    { destruct (loggers_mutex_ s) as [k|] eqn:Hk; [|done].
      destruct (lookup_lt_is_Some_2 _ _ (Hmu k eq_refl)) as [t Hi].
      destruct (all_done_returned s k t Hdone Hi) as [p Hp].
      assert (in_critical (t_pc t) = true) as Hc by (by apply (Hlock _ _ Hi)).
      unfold returned in Hp. by destruct (t_pc t). }
    assert (no_empty_pointer (loggers_ (c_world s))) as Hnn.
    { intros n [l|] Hn; [by eexists|].
      destruct (Hnull n Hn) as (k & ? & ? & _). congruence. }
    split.
    + split_and!; [|done|by rewrite <- size_omap_no_empty].
      intros n p Hn. destruct (Hnn n p Hn) as [l ->].
      exists l. split; [done|]. by eapply Hlt.
    + intros c [i Hc]%list_elem_of_lookup_1.
      assert (((name ∘ t_handle) <$> c_threads s) !! i = Some (name c)) as Hi.
      { by rewrite Hnames, list_lookup_fmap, Hc. }
      rewrite list_lookup_fmap in Hi.
      destruct (c_threads s !! i) as [t|] eqn:Ht; simpl in Hi; [|done].
      injection Hi as Hi.
      destruct (all_done_returned s i t Hdone Ht) as [p Hp].
      destruct (Hret _ _ _ Ht Hp) as (l & _ & _ & Hl).
      rewrite <- Hi, Hl. by eexists.
Qed.

(** X10: resolution cannot deadlock and is bounded.  Whatever the threads,
    their handles and the schedule, at most eleven statements per thread are
    ever executed, and the schedule can be continued so that every thread
    returns. *)
Theorem X10_threads_complete w0 (cs : list CategoryLogger) (sch : list nat) :
  registry_ok w0 → Forall (handle_ok w0) cs →
  effective_steps sch (start w0 cs) ≤ 11 * length cs
  ∧ ∃ more, all_done (run_schedule (sch ++ more) (start w0 cs)) = true.
Proof.
  intros Hreg Hcs. split.
  - pose proof (effective_steps_bound sch (start w0 cs)) as Hb.
    rewrite total_rank_start in Hb. lia.
  - destruct (ginv_eventually w0 cs (run_schedule sch (start w0 cs)))
      as [more Hmore].
    { by apply run_schedule_ginv, ginv_start. }
    exists more. by rewrite run_schedule_app.
Qed.

End AnyNamesFacts.

(** A handle resolved to the logger of "net", entering [find_or_make_logger]
    all the same. *)
Lemma X7_uncontended_call_is_the_operator_witness :
  let w : world () := settled "net" (initial_world ()) in
  let c := {| have_logger := true; logger := Some 0; name := "net" |} in
  have_logger c = true
  ∧ run_schedule [0; 0] (alone AtLock c w None)
    = {| c_world := w;
         loggers_mutex_ := Some 0;
         c_threads := [ {| t_pc := AtUnlock; t_handle := c |} ] |}
  ∧ run_schedule [0; 0; 0] (alone AtLock c w None)
    = {| c_world := w;
         loggers_mutex_ := None;
         c_threads := [ {| t_pc := AtReturn; t_handle := c |} ] |}
  ∧ run_schedule (replicate 10 0) (alone AtLock c w None)
    = {| c_world := w;
         loggers_mutex_ := None;
         c_threads := [ {| t_pc := Done (Some 0); t_handle := c |} ] |}.
Proof.
  intros w c. split; [reflexivity|].
  exact (proj2 (proj2 (X7_uncontended_call_is_the_operator c w)) eq_refl).
Defined.

Lemma three_handles_ok :
  registry_ok (initial_world ())
  ∧ Forall (handle_ok (initial_world ())) [Cat "net"; Cat "disk"; Cat "net"].
Proof.
  split; [apply (initial_consistent ())|].
  repeat (constructor; [discriminate|]). constructor.
Qed.

Lemma X8_mutual_exclusion_witness :
  registry_ok (initial_world ())
  ∧ Forall (handle_ok (initial_world ())) [Cat "net"; Cat "disk"; Cat "net"]
  ∧ ∀ i t,
      c_threads (run_schedule [0; 1; 2; 0; 1; 2; 0; 0]
                   (start (initial_world ()) [Cat "net"; Cat "disk"; Cat "net"]))
        !! i = Some t →
      in_critical (t_pc t) = true →
      loggers_mutex_ (run_schedule [0; 1; 2; 0; 1; 2; 0; 0]
                   (start (initial_world ()) [Cat "net"; Cat "disk"; Cat "net"]))
      = Some i.
Proof.
  destruct three_handles_ok as [Hreg Hcs].
  split; [exact Hreg|]. split; [exact Hcs|].
  exact (proj1 (proj2 (X8_mutual_exclusion (initial_world ())
                         [Cat "net"; Cat "disk"; Cat "net"]
                         [0; 1; 2; 0; 1; 2; 0; 0] Hreg Hcs))).
Defined.

Lemma X9_threads_converge_witness :
  registry_ok (initial_world ())
  ∧ Forall (handle_ok (initial_world ())) [Cat "net"; Cat "disk"; Cat "net"]
  ∧ ∀ n l,
      loggers_ (initial_world ()) !! n = Some (Some l) →
      loggers_ (c_world (run_schedule [0; 1; 2; 0; 1; 2; 0; 0]
                   (start (initial_world ()) [Cat "net"; Cat "disk"; Cat "net"])))
        !! n = Some (Some l).
Proof.
  destruct three_handles_ok as [Hreg Hcs].
  split; [exact Hreg|]. split; [exact Hcs|].
  exact (proj1 (proj2 (proj2 (X9_threads_converge (initial_world ())
                         [Cat "net"; Cat "disk"; Cat "net"]
                         [0; 1; 2; 0; 1; 2; 0; 0] Hreg Hcs)))).
Defined.

Lemma X10_threads_complete_witness :
  registry_ok (initial_world ())
  ∧ Forall (handle_ok (initial_world ())) [Cat "net"; Cat "disk"; Cat "net"]
  ∧ effective_steps [0; 1; 2; 0; 1; 2; 0; 0]
      (start (initial_world ()) [Cat "net"; Cat "disk"; Cat "net"]) ≤ 33.
Proof.
  destruct three_handles_ok as [Hreg Hcs].
  split; [exact Hreg|]. split; [exact Hcs|].
  exact (proj1 (X10_threads_complete (initial_world ())
                  [Cat "net"; Cat "disk"; Cat "net"]
                  [0; 1; 2; 0; 1; 2; 0; 0] Hreg Hcs)).
Defined.

(** Three threads, two names, a contended schedule run to its end: the two
    handles of ["net"] share one logger, the handle of ["disk"] has its
    own. *)
Example three_threads_run :
  let s := run_schedule
             [0; 1; 2; 0; 1; 2; 0; 0; 0; 0; 0; 0; 0; 0; 0; 0;
              1; 1; 1; 1; 1; 1; 1; 1; 1; 1; 2; 2; 2; 2; 2; 2; 2; 2; 2]
             (start (initial_world ()) [Cat "net"; Cat "disk"; Cat "net"]) in
  returned <$> c_threads s
  = [Some (Some 0); Some (Some 1); Some (Some 0)]
  ∧ loggers_mutex_ s = None
  ∧ loggers_ (c_world s) = {[ "net" := Some 0; "disk" := Some 1 ]}.
Proof. vm_compute. done. Qed.

(** ** An enumeration among the threads *)
Import Enumerating.

Section EnumeratingFacts.
Context {U : Type}.
Implicit Types (w : world U) (b : cstate U) (s : mstate U).
Implicit Types (f : option (visitor U)) (g : option (follow_up U)).

Lemma ginv_ext w0 cs b b' :
  c_threads b' = c_threads b → loggers_mutex_ b' = loggers_mutex_ b →
  loggers_ (c_world b') = loggers_ (c_world b) →
  next_loc (c_world b') = next_loc (c_world b) →
  ginv w0 cs b → ginv w0 cs b'.
Proof.
  unfold ginv. intros -> -> Hl ->. rewrite Hl.
  intros (? & ? & ? & ? & ? & ? & ? & ? & ? & Hth).
  split_and!; try done.
  intros i t Hi. eapply thread_ok_ext; [done|]. by eapply Hth.
Qed.

Lemma with_mutex_id b : loggers_mutex_ b = None → with_mutex None b = b.
Proof. destruct b. simpl. by intros ->. Qed.

Lemma visit_all_app (f' : visitor U) l1 l2 (e : env U) :
  visit_all f' (l1 ++ l2) e = visit_all f' l1 e ≫= visit_all f' l2.
Proof.
  revert e. induction l1 as [|[n [l|]] l1 IH]; intros e; simpl; [done| |done].
  apply IH.
Qed.

(** While another thread owns the mutex, a converting thread can only test
    its flag, wait, or return: it does not touch the world. *)
Lemma tstep_while_locked i b b' k :
  loggers_mutex_ b = Some k →
  (∀ t, c_threads b !! i = Some t → in_critical (t_pc t) = false) →
  tstep i b = Some b' →
  tstep i (with_mutex None b) = Some (with_mutex None b')
  ∧ loggers_mutex_ b' = Some k
  ∧ c_world b' = c_world b
  ∧ length (c_threads b') = length (c_threads b).
Proof.
  intros Hk Hnc. unfold tstep. simpl.
  destruct (c_threads b !! i) as [[p c]|] eqn:Hi; simpl; [|done].
  specialize (Hnc _ eq_refl). simpl in Hnc. rewrite Hk.
  destruct p; simpl in *; try done; intros [= <-]; simpl;
    by rewrite length_insert.
Qed.

Lemma threads_length w0 cs b :
  ginv w0 cs b → length (c_threads b) = length cs.
Proof.
  intros (_ & _ & Hnames & _).
  by rewrite <- (length_fmap (name ∘ t_handle)), Hnames, length_fmap.
Qed.

Lemma mstep_inv f g w0 cs a s s' :
  minv f g w0 cs s → mstep f g a s = Some s' → minv f g w0 cs s'.
Proof.
  unfold minv. intros Hinv Hstep. destruct a as [i|]; simpl in Hstep.
  - destruct (tstep i (m_threads s)) as [b'|] eqn:Ht; simpl in Hstep; [|done].
    injection Hstep as <-. simpl.
    destruct (holding (m_epc s)) eqn:Hh; [|by eapply gstep_inv].
    destruct Hinv as (Hmu & Hg & w1 & Hat & Hprog).
    assert (∀ t, c_threads (m_threads s) !! i = Some t →
                 in_critical (t_pc t) = false) as Hnc.
    { intros t Hi. apply not_true_is_false. intros Hc.
      destruct Hg as (Hlock & _). by apply (Hlock i t) in Hc. }
    destruct (tstep_while_locked i _ b' _ Hmu Hnc Ht)
      as (Hfree & Hmu' & Hw & Hlen).
    split; [by rewrite Hlen|]. split; [by eapply gstep_inv|].
    exists w1. by rewrite Hw.
  - unfold estep in Hstep.
    destruct (m_epc s) as [| |rest| | |] eqn:Hpc; simpl in Hinv.
    + (* ELock *)
      destruct (loggers_mutex_ (m_threads s)) eqn:Hmu; [done|].
      injection Hstep as <-. simpl. split; [done|].
      split; [by rewrite <- (with_mutex_id (m_threads s)) in Hinv|].
      exists (c_world (m_threads s)). split; [done|].
      split_and!; try done.
      destruct Hinv as (_ & _ & _ & _ & _ & _ & Hnull & _).
      intros n [l|] Hn; [by eexists|].
      destruct (Hnull n Hn) as (k & ? & ? & _). congruence.
    + (* ETest *)
      injection Hstep as <-. simpl.
      destruct Hinv as (Hmu & Hg & w1 & Hat & Hl & Hn & Hnn & ->).
      destruct f as [f'|]; simpl; (split; [done|]); (split; [done|]);
        exists w1; (split; [done|]); split_and!; try done.
      by exists f', [].
    + (* EVisit *)
      destruct Hinv as (Hmu & Hg & w1 & Hat & Hl & Hn & Hnn
                        & f' & visited & -> & Hlist & Hv).
      destruct rest as [|[n [l|]] rest]; simpl in Hstep; [| |done].
      * injection Hstep as <-. simpl. split; [done|]. split; [done|].
        exists w1. split; [done|]. split_and!; try done.
        by rewrite Hlist, app_nil_r.
      * injection Hstep as <-. simpl. split; [done|]. split.
        { eapply ginv_ext; [..|exact Hg]; done. }
        exists w1. split; [done|]. split_and!; try done.
        exists f', (visited ++ [(n, Some l)]). split; [done|].
        split; [by rewrite <- app_assoc|].
        rewrite visit_all_app, Hv. done.
    + (* EFollowUp *)
      injection Hstep as <-. simpl.
      destruct Hinv as (Hmu & Hg & w1 & Hat & Hl & Hn & Hnn & Hv).
      split; [done|]. split.
      { eapply ginv_ext; [..|exact Hg]; done. }
      exists w1. split; [done|]. split_and!; try done.
      unfold for_each_cat_logger, with_env. rewrite Hl, Hn.
      destruct f as [f'|]; [rewrite Hv|rewrite Hv]; done.
    + (* EUnlock *)
      injection Hstep as <-. simpl. by destruct Hinv as (_ & Hg & _).
    + done.
Qed.

Lemma mrun_inv f g w0 cs sch s :
  minv f g w0 cs s → minv f g w0 cs (mrun f g sch s).
Proof.
  revert s. induction sch as [|a sch IH]; intros s Hs; simpl; [done|].
  apply IH. destruct (mstep f g a s) as [s'|] eqn:Hstep; simpl; [|done].
  by eapply mstep_inv.
Qed.

(** X11: an enumeration running among any number of converting threads,
    under any schedule, is atomic with respect to the creation of
    categories.  From the moment it owns the mutex until it releases it, no
    converting thread is between its own lock guard's construction and
    destruction, and no statement of a converting thread changes the world;
    the registry is the one the enumeration found, and it holds no empty
    pointer, so the enumeration can always take its next statement.  The
    entries still to visit are a tail of the registry's entries.  When the
    callbacks are done, the world is exactly what [for_each_cat_logger], called
    as one function in the world found at the lock, returns. *)
Theorem X11_enumeration_is_atomic f g w0 (cs : list CategoryLogger)
    (sch : list who) :
  registry_ok w0 → Forall (handle_ok w0) cs →
  let s := mrun f g sch (mstart w0 cs) in
  let b := m_threads s in
  (holding (m_epc s) = true →
   loggers_mutex_ b = Some (length cs)
   ∧ (∀ i t, c_threads b !! i = Some t → in_critical (t_pc t) = false)
   ∧ (∀ i b', tstep i b = Some b' → c_world b' = c_world b)
   ∧ is_Some (mstep f g Enumerator s)
   ∧ ∃ w1, m_at_lock s = Some w1
           ∧ loggers_ (c_world b) = loggers_ w1
           ∧ next_loc (c_world b) = next_loc w1
           ∧ no_empty_pointer (loggers_ w1))
  ∧ (∀ rest, m_epc s = EVisit rest →
       ∃ visited, map_to_list (loggers_ (c_world b)) = visited ++ rest)
  ∧ (m_epc s = EUnlock →
       ∃ w1, m_at_lock s = Some w1
             ∧ for_each_cat_logger f g w1 = Some (c_world b)).
Proof.
  intros Hreg Hcs s b.
  assert (minv f g w0 cs s) as Hs.
  { apply mrun_inv. unfold minv. simpl. by apply ginv_start. }
  unfold minv in Hs. fold b in Hs. split_and!.
  - intros Hh. rewrite Hh in Hs.
    destruct Hs as (Hmu & Hg & w1 & Hat & Hl & Hn & Hnn & Hprog).
    assert (∀ i t, c_threads b !! i = Some t → in_critical (t_pc t) = false)
      as Hnc.
    { intros i t Hi. apply not_true_is_false. intros Hc.
      destruct Hg as (Hlock & _). by apply (Hlock i t) in Hc. }
    split_and!.
    + rewrite Hmu. f_equal. by apply (threads_length w0 cs (with_mutex None b)).
    + done.
    + intros i b' Ht.
      by destruct (tstep_while_locked i b b' _ Hmu (Hnc i) Ht) as (_ & _ & ? & _).
    + simpl. unfold estep. fold b.
      destruct (m_epc s) as [| |rest| | |]; try done; try (by eexists).
      destruct Hprog as (f' & visited & -> & Hlist & _).
      destruct rest as [|[n [l|]] rest]; simpl; try (by eexists).
      destruct (Hnn n None) as [? ?]; [|done].
      apply elem_of_map_to_list. rewrite Hlist.
      apply elem_of_app. right. by left.
    + by exists w1.
  - intros rest Hpc. rewrite Hpc in Hs. simpl in Hs.
    destruct Hs as (_ & _ & w1 & _ & Hl & _ & _ & f' & visited & _ & Hlist & _).
    exists visited. by rewrite Hl.
  - intros Hpc. rewrite Hpc in Hs. simpl in Hs.
    destruct Hs as (_ & _ & w1 & Hat & _ & _ & _ & Hfe). by exists w1.
Qed.

End EnumeratingFacts.

Lemma X11_enumeration_is_atomic_witness :
  registry_ok (initial_world ())
  ∧ Forall (handle_ok (initial_world ())) [Cat "net"; Cat "disk"; Cat "net"]
  ∧ ∃ w1,
      m_at_lock
        (mrun (Some (level_setter warn)) (Some (set_default_catlogger_level warn))
           [ Resolver 0; Resolver 0; Resolver 0; Resolver 0; Resolver 0;
             Resolver 0; Resolver 0; Resolver 0; Resolver 0; Resolver 0;
             Resolver 1; Enumerator; Resolver 1; Resolver 2; Enumerator;
             Enumerator; Resolver 2; Enumerator; Enumerator ]
           (mstart (initial_world ()) [Cat "net"; Cat "disk"; Cat "net"]))
      = Some w1
      ∧ for_each_cat_logger (Some (level_setter warn))
          (Some (set_default_catlogger_level warn)) w1
        = Some (c_world (m_threads
            (mrun (Some (level_setter warn))
               (Some (set_default_catlogger_level warn))
               [ Resolver 0; Resolver 0; Resolver 0; Resolver 0; Resolver 0;
                 Resolver 0; Resolver 0; Resolver 0; Resolver 0; Resolver 0;
                 Resolver 1; Enumerator; Resolver 1; Resolver 2; Enumerator;
                 Enumerator; Resolver 2; Enumerator; Enumerator ]
               (mstart (initial_world ()) [Cat "net"; Cat "disk"; Cat "net"])))).
Proof.
  destruct three_handles_ok as [Hreg Hcs].
  split; [exact Hreg|]. split; [exact Hcs|].
  apply (proj2 (proj2 (X11_enumeration_is_atomic
            (Some (level_setter warn)) (Some (set_default_catlogger_level warn))
            (initial_world ()) [Cat "net"; Cat "disk"; Cat "net"]
            [ Resolver 0; Resolver 0; Resolver 0; Resolver 0; Resolver 0;
              Resolver 0; Resolver 0; Resolver 0; Resolver 0; Resolver 0;
              Resolver 1; Enumerator; Resolver 1; Resolver 2; Enumerator;
              Enumerator; Resolver 2; Enumerator; Enumerator ]
            Hreg Hcs))).
  vm_compute. reflexivity.
Defined.

(** The schedule of the witness, run: thread 0 has created ["net"] before the
    enumeration takes the mutex; thread 1, which wants to create ["disk"], is
    kept waiting until the enumeration is over, so the enumeration sees one
    category and ["disk"], created afterwards, starts at the new default. *)
Example enumeration_among_threads :
  let s := mrun (Some (level_setter warn))
             (Some (set_default_catlogger_level warn))
             [ Resolver 0; Resolver 0; Resolver 0; Resolver 0; Resolver 0;
               Resolver 0; Resolver 0; Resolver 0; Resolver 0; Resolver 0;
               Resolver 1; Enumerator; Resolver 1; Resolver 2; Enumerator;
               Enumerator; Resolver 2; Enumerator; Enumerator; Enumerator;
               Resolver 1; Resolver 1; Resolver 1; Resolver 1; Resolver 1;
               Resolver 1; Resolver 1; Resolver 1; Resolver 1; Resolver 1 ]
             (mstart (initial_world ()) [Cat "net"; Cat "disk"; Cat "net"]) in
  m_epc s = EDone
  ∧ (loggers_ <$> m_at_lock s) = Some {[ "net" := Some 0 ]}
  ∧ loggers_ (c_world (m_threads s)) = {[ "net" := Some 0; "disk" := Some 1 ]}
  ∧ (level_ <$> objects (env_of (c_world (m_threads s))))
    = {[ 0 := warn; 1 := warn ]}.
Proof. vm_compute. done. Qed.

(** *** The enumeration and the threads all return *)
Section EnumeratingCompletes.
Context {U : Type}.
Implicit Types (w : world U) (b : cstate U) (s : mstate U).
Implicit Types (f : option (visitor U)) (g : option (follow_up U)).

Lemma mrun_app f g sch1 sch2 s :
  mrun f g (sch1 ++ sch2) s = mrun f g sch2 (mrun f g sch1 s).
Proof. revert s. induction sch1 as [|a sch1 IH]; intros s; simpl; [done|apply IH]. Qed.

Lemma mrun_resolvers f g (sch : list nat) s :
  mrun f g (Resolver <$> sch) s
  = {| m_threads := run_schedule sch (m_threads s);
       m_epc := m_epc s;
       m_at_lock := m_at_lock s |}.
Proof.
  revert s. induction sch as [|i sch IH]; intros s; simpl; [by destruct s|].
  rewrite IH. by destruct (tstep i (m_threads s)).
Qed.

Lemma all_done_mutex_free w0 cs b :
  ginv w0 cs b → all_done b = true → loggers_mutex_ b = None.
Proof.
  intros (Hlock & Hmu & _) Hdone.
  destruct (loggers_mutex_ b) as [k|] eqn:Hk; [|done].
  destruct (lookup_lt_is_Some_2 _ _ (Hmu k eq_refl)) as [t Hi].
  destruct (all_done_returned b k t Hdone Hi) as [p Hp].
  assert (in_critical (t_pc t) = true) as Hc by (by apply (Hlock _ _ Hi)).
  unfold returned in Hp. by destruct (t_pc t).
Qed.

(** Once it owns the mutex the enumeration always has a next statement, which
    leaves the threads as they are. *)
Lemma enumeration_next f g w0 cs s :
  minv f g w0 cs s → holding (m_epc s) = true →
  ∃ s1, mstep f g Enumerator s = Some s1
        ∧ c_threads (m_threads s1) = c_threads (m_threads s)
        ∧ esteps_left (c_world (m_threads s1)) (m_epc s1)
          < esteps_left (c_world (m_threads s)) (m_epc s)
        ∧ (holding (m_epc s1) = true ∨ m_epc s1 = EDone).
Proof.
  intros Hinv Hh. unfold minv in Hinv. rewrite Hh in Hinv.
  destruct Hinv as (Hmu & Hg & w1 & Hat & Hl & Hnl & Hnn & Hprog).
  simpl. unfold estep.
  destruct (m_epc s) as [| |rest| | |] eqn:Hpc; try done.
  - eexists. split; [done|]. simpl. split; [done|].
    destruct f; simpl; (split; [lia|by left]).
  - destruct Hprog as (f' & visited & -> & Hlist & _).
    destruct rest as [|[n [l|]] rest]; simpl.
    + eexists. split; [done|]. simpl. split; [done|]. split; [lia|by left].
    + eexists. split; [done|]. simpl. split; [done|]. split; [lia|by left].
    + destruct (Hnn n None) as [? ?]; [|done].
      apply elem_of_map_to_list. rewrite Hlist.
      apply elem_of_app. right. by left.
  - eexists. split; [done|]. simpl. split; [done|]. split; [lia|by left].
  - eexists. split; [done|]. simpl. split; [done|]. split; [lia|by right].
Qed.

(** So it runs to its end, whatever the other threads do not do meanwhile. *)
Lemma enumeration_finishes f g w0 cs s :
  minv f g w0 cs s → holding (m_epc s) = true →
  ∃ k, m_epc (mrun f g (replicate k Enumerator) s) = EDone
       ∧ c_threads (m_threads (mrun f g (replicate k Enumerator) s))
         = c_threads (m_threads s).
Proof.
  remember (esteps_left (c_world (m_threads s)) (m_epc s)) as n eqn:Hn.
  revert s Hn. induction n as [n IH] using lt_wf_ind. intros s -> Hinv Hh.
  destruct (enumeration_next f g w0 cs s Hinv Hh)
    as (s1 & Hstep & Hthreads & Hlt & Hnext).
  pose proof (mstep_inv _ _ _ _ _ _ _ Hinv Hstep) as Hinv1.
  destruct Hnext as [Hh1|Hdone].
  - destruct (IH _ Hlt s1 eq_refl Hinv1 Hh1) as (k & Hk & Hkt).
    exists (S k). simpl in *. rewrite Hstep. simpl.
    split; [done|]. by rewrite Hkt.
  - exists 1. simpl in *. by rewrite Hstep.
Qed.

(** X12: an enumeration and any number of converting threads cannot block
    one another for good.  Under any schedule, however far it has run, there
    is a continuation after which the enumeration and every thread have
    returned. *)
Theorem X12_enumeration_and_threads_complete f g w0
    (cs : list CategoryLogger) (sch : list who) :
  registry_ok w0 → Forall (handle_ok w0) cs →
  ∃ more, m_all_done (mrun f g (sch ++ more) (mstart w0 cs)) = true.
Proof.
  intros Hreg Hcs.
  set (s := mrun f g sch (mstart w0 cs)).
  assert (minv f g w0 cs s) as Hs.
  { apply mrun_inv. unfold minv. simpl. by apply ginv_start. }
  (* the enumeration first, if it owns the mutex *)
  assert (∃ m1, let s1 := mrun f g m1 s in
                holding (m_epc s1) = false ∧ minv f g w0 cs s1)
    as (m1 & Hh1 & Hs1).
  { destruct (holding (m_epc s)) eqn:Hh; [|by exists []].
    destruct (enumeration_finishes f g w0 cs s Hs Hh) as (k & Hk & _).
    exists (replicate k Enumerator). simpl. rewrite Hk.
    split; [done|]. by apply mrun_inv. }
  set (s1 := mrun f g m1 s) in *.
  (* then the threads *)
  assert (ginv w0 cs (m_threads s1)) as Hg1.
  { unfold minv in Hs1. by rewrite Hh1 in Hs1. }
  destruct (ginv_eventually w0 cs _ Hg1) as [schr Hschr].
  set (s2 := mrun f g (Resolver <$> schr) s1).
  assert (minv f g w0 cs s2) as Hs2 by (by apply mrun_inv).
  assert (m_threads s2 = run_schedule schr (m_threads s1)
          ∧ m_epc s2 = m_epc s1) as [Ht2 Hpc2].
  { unfold s2. by rewrite mrun_resolvers. }
  (* then the enumeration, if it has not started *)
  assert (∃ m3, m_all_done (mrun f g m3 s2) = true) as [m3 Hm3].
  { unfold m_all_done.
    destruct (m_epc s2) as [| |rest| | |] eqn:Hpc; try (by rewrite <- Hpc2 in Hh1).
    - assert (ginv w0 cs (m_threads s2)) as Hg2.
      { unfold minv in Hs2. by rewrite Hpc in Hs2. }
      assert (loggers_mutex_ (m_threads s2) = None) as Hfree.
      { eapply all_done_mutex_free; [done|]. by rewrite Ht2. }
      destruct (mstep f g Enumerator s2) as [s3|] eqn:Hstep;
        [|by simpl in Hstep; unfold estep in Hstep; rewrite Hpc, Hfree in Hstep].
      pose proof (mstep_inv _ _ _ _ _ _ _ Hs2 Hstep) as Hs3.
      assert (m_epc s3 = ETest
              ∧ c_threads (m_threads s3) = c_threads (m_threads s2))
        as [Hpc3 Ht3].
      { simpl in Hstep. unfold estep in Hstep. rewrite Hpc, Hfree in Hstep.
        by injection Hstep as <-. }
      destruct (enumeration_finishes f g w0 cs s3 Hs3) as (k & Hk & Hkt);
        [by rewrite Hpc3|].
      exists (Enumerator :: replicate k Enumerator).
      cbn [mrun]. rewrite Hstep. cbn [default from_option id].
      rewrite Hk, andb_true_r. unfold all_done. rewrite Hkt, Ht3.
      fold (all_done (m_threads s2)). by rewrite Ht2.
    - exists []. simpl. rewrite Hpc, andb_true_r. by rewrite Ht2. }
  exists (m1 ++ (Resolver <$> schr) ++ m3).
  by rewrite !mrun_app.
Qed.

End EnumeratingCompletes.

Lemma X12_enumeration_and_threads_complete_witness :
  registry_ok (initial_world ())
  ∧ Forall (handle_ok (initial_world ())) [Cat "net"; Cat "disk"; Cat "net"]
  ∧ ∃ more,
      m_all_done
        (mrun (Some (level_setter warn)) (Some (set_default_catlogger_level warn))
           ([Resolver 0; Enumerator; Resolver 1; Resolver 0] ++ more)
           (mstart (initial_world ()) [Cat "net"; Cat "disk"; Cat "net"]))
      = true.
Proof.
  destruct three_handles_ok as [Hreg Hcs].
  split; [exact Hreg|]. split; [exact Hcs|].
  exact (X12_enumeration_and_threads_complete
           (Some (level_setter warn)) (Some (set_default_catlogger_level warn))
           (initial_world ()) [Cat "net"; Cat "disk"; Cat "net"]
           [Resolver 0; Enumerator; Resolver 1; Resolver 0] Hreg Hcs).
Defined.

(** ** A reconfiguration among the threads *)
Import Reconfiguring.

Section ReconfiguringFacts.
Context {U : Type}.
Implicit Types (w : world U) (b : cstate U) (s : mstate U).

Lemma levelled_goto L b i t p' c' w' mu' :
  c_threads b !! i = Some t → t_pc t ≠ AtSetLevel →
  loggers_default_level_ (env_of w')
  = loggers_default_level_ (env_of (c_world b)) →
  objects (env_of w') = objects (env_of (c_world b)) →
  (∀ n l, loggers_ w' !! n = Some (Some l) →
          loggers_ (c_world b) !! n = Some (Some l)) →
  levelled L b → levelled L (goto i p' c' w' mu' b).
Proof.
  intros Hi Hpc Hdef Hobj Hsub [HL Hall]. split; simpl; [congruence|].
  intros n l Hn. rewrite Hobj.
  destruct (Hall n l (Hsub n l Hn)) as [?|(j & tj & Hj & Hpj & Hnj)]; [by left|].
  right. exists j, tj. rewrite list_lookup_insert_ne; [done|].
  intros <-. congruence.
Qed.

Lemma objects_present_sub w w' :
  objects (env_of w') = objects (env_of w) →
  (∀ n l, loggers_ w' !! n = Some (Some l) → loggers_ w !! n = Some (Some l)) →
  objects_present w → objects_present w'.
Proof. intros Hobj Hsub Hp n l Hn. rewrite Hobj. by eapply Hp, Hsub. Qed.

Lemma subscript_sub (m : gmap string (option nat)) k n l :
  (subscript m k).1 !! n = Some (Some l) → m !! n = Some (Some l).
Proof.
  unfold subscript. destruct (m !! k) eqn:Hk; simpl; [done|].
  rewrite lookup_insert. case_decide; [done|done].
Qed.

(** What a statement of a converting thread does to the loggers' levels,
    once the reconfiguration is over or waits to release the mutex. *)
Lemma rinv_resolver L w0 cs i b b' :
  ginv w0 cs b → objects_present (c_world b) →
  tstep i b = Some b' →
  objects_present (c_world b') ∧ (levelled L b → levelled L b').
Proof.
  intros (Hlock & _ & _ & Hlt & Hinj & _) Hp Hstep.
  unfold tstep in Hstep.
  destruct (c_threads b !! i) as [[p c]|] eqn:Hi; simpl in Hstep; [|done].
  pose proof (Hlock _ _ Hi) as Hcrit. simpl in Hcrit.
  destruct p; simpl in Hstep;
    try (injection Hstep as <-; split;
         [done | by apply (levelled_goto L b i _ _ _ _ _ Hi)]).
  - (* AtLock *)
    destruct (loggers_mutex_ b); [done|]. injection Hstep as <-.
    split; [done | by apply (levelled_goto L b i _ _ _ _ _ Hi)].
  - (* AtSubscript *)
    injection Hstep as <-. split.
    + eapply objects_present_sub; [| |exact Hp]; [done|].
      intros n l. apply subscript_sub.
    + apply (levelled_goto L b i _ _ _ _ _ Hi); try done.
      intros n l. apply subscript_sub.
  - (* AtMake *)
    injection Hstep as <-. split.
    + intros n l. simpl. rewrite lookup_insert. case_decide.
      * intros [= <-]. rewrite lookup_insert_eq. by eexists.
      * intros Hn. rewrite lookup_insert_ne; [by eapply Hp|].
        specialize (Hlt _ _ Hn). lia.
    + intros [HL Hall]. split; [done|]. intros n l. simpl.
      rewrite lookup_insert. case_decide as Hn.
      * intros _. right. eexists i, _.
        rewrite list_lookup_insert_eq by (by eapply lookup_lt_Some). done.
      * intros Hn'. destruct (Hall n l Hn') as [(o & Ho & HoL)|H].
        -- left. exists o. rewrite lookup_insert_ne; [done|].
           specialize (Hlt _ _ Hn'). lia.
        -- destruct H as (j & tj & Hj & Hpj & Hnj).
           assert (j = i) as ->.
           { assert (in_critical (t_pc tj) = true) as Hc by (by rewrite Hpj).
             apply (Hlock _ _ Hj) in Hc.
             assert (loggers_mutex_ b = Some i) by (by apply Hcrit).
             congruence. }
           rewrite Hi in Hj. by injection Hj as <-.
  - (* AtSetLevel *)
    destruct (slot (c_world b) (name c)) as [l0|] eqn:Hs; simpl in Hstep; [|done].
    injection Hstep as <-.
    assert (loggers_ (c_world b) !! name c = Some (Some l0)) as Hl0.
    { unfold slot in Hs. by destruct (loggers_ (c_world b) !! name c) as [[?|]|];
        simplify_eq/=. }
    split.
    + intros n l Hn. simpl in *. rewrite lookup_alter.
      destruct (Hp n l Hn) as [o Ho]. case_decide; subst; rewrite Ho; by eexists.
    + intros [HL Hall]. split; [done|]. intros n l Hn. simpl in *.
      left. rewrite lookup_alter. destruct (decide (l0 = l)) as [<-|Hne].
      * destruct (Hp _ _ Hl0) as [o Ho]. rewrite Ho. simpl. by eexists.
      * destruct (Hall n l Hn) as [?|(j & tj & Hj & Hpj & Hnj)]; [done|].
        assert (j = i) as ->.
        { assert (in_critical (t_pc tj) = true) as Hc by (by rewrite Hpj).
          apply (Hlock _ _ Hj) in Hc.
          assert (loggers_mutex_ b = Some i) by (by apply Hcrit).
          congruence. }
        rewrite Hi in Hj. injection Hj as <-. simpl in Hnj. subst n.
        congruence.
  - done.
Qed.

Lemma rstep_inv L w0 cs a s s' :
  minv (Some (level_setter L)) (Some (set_default_catlogger_level L)) w0 cs s →
  rinv L s →
  mstep (Some (level_setter L)) (Some (set_default_catlogger_level L)) a s
  = Some s' →
  rinv L s'.
Proof.
  intros Hinv [Hp Hlev] Hstep.
  pose proof (mstep_inv _ _ _ _ _ _ _ Hinv Hstep) as Hinv'.
  unfold minv in Hinv. destruct a as [i|]; simpl in Hstep.
  - destruct (tstep i (m_threads s)) as [b'|] eqn:Ht; simpl in Hstep; [|done].
    injection Hstep as <-. unfold rinv. simpl.
    assert (objects_present (c_world b')
            ∧ (levelled L (m_threads s) → levelled L b')) as [Hp' Hlev'].
    { destruct (holding (m_epc s)) eqn:Hh.
      - destruct Hinv as (Hmu & Hg & _).
        assert (∀ t, c_threads (m_threads s) !! i = Some t →
                     in_critical (t_pc t) = false) as Hnc.
        { intros t Hi. apply not_true_is_false. intros Hc.
          destruct Hg as (Hlock & _). by apply (Hlock i t) in Hc. }
        destruct (tstep_while_locked i _ b' _ Hmu Hnc Ht) as (Hfree & _).
        exact (rinv_resolver L w0 cs i _ _ Hg Hp Hfree).
      - exact (rinv_resolver L w0 cs i _ _ Hinv Hp Ht). }
    split; [done|]. destruct (m_epc s); try done; by apply Hlev'.
  - unfold estep in Hstep. unfold rinv.
    destruct (m_epc s) as [| |rest| | |] eqn:Hpc; simpl in Hinv.
    + destruct (loggers_mutex_ (m_threads s)); [done|].
      by injection Hstep as <-.
    + by injection Hstep as <-.
    + destruct rest as [|[n [l|]] rest]; simpl in Hstep; [| |done].
      * by injection Hstep as <-.
      * injection Hstep as <-. simpl. split; [|done].
        intros n' l' Hn'. simpl. rewrite lookup_alter.
        destruct (Hp n' l' Hn') as [o Ho].
        case_decide; subst; rewrite Ho; by eexists.
    + injection Hstep as <-. simpl in *. split; [done|].
      split; [done|]. intros n l Hn. left. simpl in *.
      destruct Hinv' as (_ & _ & w1 & _ & Hl & _ & Hnn & Hfe).
      simpl in Hl, Hfe.
      destruct (registry_pairs _ Hnn) as (pairs & Hpairs & _).
      destruct (visit_all_level_setter L pairs (env_of w1))
        as (e1 & Hv & _ & Hobj).
      unfold for_each_cat_logger in Hfe. rewrite Hpairs, Hv in Hfe.
      simpl in Hfe. injection Hfe as _ _ Hsame _ _.
      destruct (Hp n l Hn) as [o Ho]. rewrite <- Hsame, Hobj in Ho.
      rewrite <- Hsame, Hobj.
      assert (l ∈ pairs.*2) as Hin.
      { rewrite Hl in Hn. apply elem_of_map_to_list in Hn. rewrite Hpairs in Hn.
        apply list_elem_of_fmap_1 in Hn as ([n0 l0] & [= <- <-] & Hin).
        by apply (list_elem_of_fmap_2' snd _ (n, l)). }
      rewrite bool_decide_eq_true_2 in Ho |- * by done.
      destruct (objects (env_of w1) !! l) as [o1|]; simpl in *; [|done].
      by exists (set_level L o1).
    + injection Hstep as <-. done.
    + done.
Qed.

Lemma rrun_inv L w0 cs sch s :
  minv (Some (level_setter L)) (Some (set_default_catlogger_level L)) w0 cs s →
  rinv L s →
  rinv L (mrun (Some (level_setter L)) (Some (set_default_catlogger_level L))
            sch s).
Proof.
  revert s. induction sch as [|a sch IH]; intros s Hs Hr; simpl; [done|].
  destruct (mstep _ _ a s) as [s'|] eqn:Hstep; simpl; [|by apply IH].
  apply IH; [by eapply mstep_inv | by eapply rstep_inv].
Qed.

(** X13: no logger misses a reconfiguration.  Among any number of converting
    threads and under any schedule, once the enumeration that sets every
    logger to [L] and then the default level to [L] has returned, the default
    level is [L] and every registered logger is at [L], except at most the
    one the owner of the mutex has just made and is about to set to the
    default, which is [L]: whenever the mutex is free, all are at [L].  This
    covers the categories created while the enumeration ran or after it. *)
Theorem X13_no_logger_misses_a_reconfiguration (L : Level) w0
    (cs : list CategoryLogger) (sch : list who) :
  registry_ok w0 → Forall (handle_ok w0) cs → objects_present w0 →
  let s := mrun (Some (level_setter L))
             (Some (set_default_catlogger_level L)) sch (mstart w0 cs) in
  m_epc s = EDone →
  levelled L (m_threads s)
  ∧ (loggers_mutex_ (m_threads s) = None → all_at L (c_world (m_threads s))).
Proof.
  intros Hreg Hcs Hp s Hdone.
  assert (minv (Some (level_setter L)) (Some (set_default_catlogger_level L))
            w0 cs (mstart w0 cs)) as Hs0.
  { unfold minv. simpl. by apply ginv_start. }
  assert (rinv L s) as [_ Hlev] by (by apply (rrun_inv L w0 cs)).
  assert (ginv w0 cs (m_threads s)) as (Hlock & _).
  { pose proof (mrun_inv _ _ _ _ sch _ Hs0) as Hs. unfold minv in Hs.
    fold s in Hs. by rewrite Hdone in Hs. }
  rewrite Hdone in Hlev. split; [done|].
  intros Hfree. destruct Hlev as [HL Hall]. split; [done|].
  intros n l Hn. destruct (Hall n l Hn) as [?|(j & tj & Hj & Hpj & _)]; [done|].
  assert (in_critical (t_pc tj) = true) as Hc by (by rewrite Hpj).
  apply (Hlock _ _ Hj) in Hc. congruence.
Qed.

End ReconfiguringFacts.

Lemma X13_no_logger_misses_a_reconfiguration_witness :
  registry_ok (initial_world ())
  ∧ Forall (handle_ok (initial_world ())) [Cat "net"; Cat "disk"; Cat "net"]
  ∧ objects_present (initial_world ())
  ∧ all_at warn
      (c_world (m_threads
         (mrun (Some (level_setter warn))
            (Some (set_default_catlogger_level warn))
            [ Resolver 0; Resolver 0; Resolver 0; Resolver 0; Resolver 0;
              Resolver 0; Resolver 0; Resolver 0; Resolver 0; Resolver 0;
              Resolver 1; Enumerator; Resolver 1; Resolver 2; Enumerator;
              Enumerator; Resolver 2; Enumerator; Enumerator; Enumerator;
              Resolver 1; Resolver 1; Resolver 1; Resolver 1; Resolver 1;
              Resolver 1; Resolver 1; Resolver 1; Resolver 1; Resolver 1 ]
            (mstart (initial_world ()) [Cat "net"; Cat "disk"; Cat "net"])))).
Proof.
  destruct three_handles_ok as [Hreg Hcs].
  assert (objects_present (initial_world ())) as Hp.
  { intros n l Hn. simpl in Hn. by rewrite lookup_empty in Hn. }
  split; [exact Hreg|]. split; [exact Hcs|]. split; [exact Hp|].
  apply (X13_no_logger_misses_a_reconfiguration warn (initial_world ())
           [Cat "net"; Cat "disk"; Cat "net"] _ Hreg Hcs Hp).
  - vm_compute. reflexivity.
  - vm_compute. reflexivity.
Defined.
